(** * Distributed Imaging Services: wire codec, transport receive,
      stage loops and the persistence gateway

    A shallow embedding of the C++ sources of the [dis] pipeline
    (message_types.hpp, serialization.hpp/.cpp, ipc_manager.cpp,
    feature_extractor.cpp, data_logger.cpp) and of the receive path of the
    older [voyis] transport (src/common/ipc.cpp), with the properties of the
    design document stated and settled against them.  Further properties
    follow, of the same code and of its neighbours: the message codec of the
    older transport (src/common/message.cpp), the image generator
    (image_generator.cpp), the publisher of the older transport and the
    command lines of the three stages.

    Conventions.
    - [size_t] and [uint64_t] are 64-bit, [uint32_t] is 32-bit; unsigned
      arithmetic wraps and every wrap is written out ([wrap32], [wrap64]).
    - The platform is little-endian; [memcpy] of an integer to or from a
      buffer is [le_split] / [le_combine].
    - A [float] is carried as its 32-bit pattern: the codec only ever copies
      floats byte-wise, it never computes with them.
    - A C++ exception is a [Throw] result; a read outside a buffer (undefined
      behaviour in C++) is the separate result [OutOfBounds]. *)

From Stdlib Require Import ZArith Lia String List Bool.
From coqutil Require Import Byte Word.LittleEndianList.
Import ListNotations.
Local Open Scope Z_scope.
Local Open Scope bool_scope.

(* ===================================================================== *)
(** ** Machine integers and buffers *)
(* ===================================================================== *)

Definition wrap32 (z : Z) : Z := z mod 2 ^ 32.
Definition wrap64 (z : Z) : Z := z mod 2 ^ 64.

(** Two's-complement reading of a 32-bit pattern ([int32_t]). *)
Definition signed32 (z : Z) : Z :=
  if wrap32 z <? 2 ^ 31 then wrap32 z else wrap32 z - 2 ^ 32.

(** [v.size()] of a [std::vector] or [std::string]. *)
Definition size {A : Type} (v : list A) : Z := Z.of_nat (List.length v).

(** Exceptions thrown by the sources; all derive from [std::exception]. *)
Inductive exn : Type :=
| SerializationError (msg : string)
| IPCError (msg : string)
| DatabaseError (msg : string)
| RuntimeError (msg : string).

(** Outcome of a C++ call: a value, an exception, or a read outside the
    bounds of a buffer. *)
Inductive result (A : Type) : Type :=
| Ok (a : A)
| Throw (e : exn)
| OutOfBounds.
Arguments Ok {A} a.
Arguments Throw {A} e.
Arguments OutOfBounds {A}.

Definition bind {A B : Type} (m : result A) (k : A -> result B) : result B :=
  match m with
  | Ok a => k a
  | Throw e => Throw e
  | OutOfBounds => OutOfBounds
  end.

Notation "x <- m ;; k" := (bind m (fun x => k))
  (at level 61, m at next level, right associativity).
Notation "' p <- m ;; k" := (bind m (fun x => let p := x in k))
  (at level 61, p pattern, m at next level, right associativity).

(** The bytes [offset, offset + n) of a buffer.  This is what a [memcpy] from
    [buffer.data() + offset] or an iterator-range constructor reads; it is
    defined only when the whole range lies inside the buffer. *)
Definition bytes_at (buffer : list byte) (offset n : Z) : result (list byte) :=
  if (0 <=? offset) && (0 <=? n) && (offset + n <=? size buffer)
  then Ok (firstn (Z.to_nat n) (skipn (Z.to_nat offset) buffer))
  else OutOfBounds.

(** Trivially copyable types, as the [template<typename T>] helpers of
    [Serializer] use them: [sizeof(T)] and the object representation. *)
Class Pod (T : Type) : Type := {
  sizeof : nat;
  to_bytes : T -> list byte;
  of_bytes : list byte -> T
}.

(** [uint32_t]. *)
Record uint32_t : Type := U32 { u32 : Z }.

#[export] Instance Pod_uint32 : Pod uint32_t := {|
  sizeof := 4;
  to_bytes := fun v => le_split 4 (u32 v);
  of_bytes := fun bs => U32 (le_combine (firstn 4 bs))
|}.

(** [float], as its bit pattern. *)
Record float : Type := F32 { float_bits : Z }.

#[export] Instance Pod_float : Pod float := {|
  sizeof := 4;
  to_bytes := fun v => le_split 4 (float_bits v);
  of_bytes := fun bs => F32 (le_combine (firstn 4 bs))
|}.

(** [count] consecutive objects of type [T] laid out in [bs]. *)
Fixpoint objects_of_bytes {T : Type} `{Pod T} (count : nat) (bs : list byte)
  : list T :=
  match count with
  | O => []
  | S c => of_bytes (firstn sizeof bs) :: objects_of_bytes c (skipn sizeof bs)
  end.

(* ===================================================================== *)
(** ** message_types.hpp *)
(* ===================================================================== *)

Definition MESSAGE_MAGIC : Z := 0xDEADBEEF.

Inductive MessageType : Type := IMAGE | IMAGE_WITH_FEATURES.

(** [enum class MessageType : uint32_t]. *)
Definition MessageType_value (t : MessageType) : Z :=
  match t with
  | IMAGE => 1
  | IMAGE_WITH_FEATURES => 2
  end.

(** [struct MessageHeader].  [type] holds the underlying [uint32_t]: a header
    copied out of a received buffer can carry any value there. *)
Record MessageHeader : Type := {
  magic : Z;
  type : Z;
  payload_size : Z;
  timestamp : Z;
  width : Z;
  height : Z;
  channels : Z;
  filename_length : Z;
  reserved : list byte
}.

(** [MessageHeader::MessageHeader()]. *)
Definition MessageHeader_default : MessageHeader := {|
  magic := MESSAGE_MAGIC;
  type := MessageType_value IMAGE;
  payload_size := 0;
  timestamp := 0;
  width := 0;
  height := 0;
  channels := 0;
  filename_length := 0;
  reserved := repeat Byte.x00 24
|}.

(** Object representation of the header: the members in declaration order.
    Every member is naturally aligned at its offset, so the compiler inserts
    no padding, which is what the source's [static_assert] checks. *)
Definition header_bytes (h : MessageHeader) : list byte :=
  le_split 4 (magic h) ++ le_split 4 (type h) ++
  le_split 8 (payload_size h) ++ le_split 8 (timestamp h) ++
  le_split 4 (width h) ++ le_split 4 (height h) ++
  le_split 4 (channels h) ++ le_split 4 (filename_length h) ++
  firstn 24 (reserved h ++ repeat Byte.x00 24).

Definition sizeof_MessageHeader : Z := 64.

(** The member of [n] bytes at offset [off] of an object representation. *)
Definition member (bs : list byte) (off n : nat) : list byte :=
  firstn n (skipn off bs).

(** [std::memcpy(&header, data.data(), sizeof(MessageHeader))]. *)
Definition header_of_bytes (bs : list byte) : MessageHeader := {|
  magic := le_combine (member bs 0 4);
  type := le_combine (member bs 4 4);
  payload_size := le_combine (member bs 8 8);
  timestamp := le_combine (member bs 16 8);
  width := le_combine (member bs 24 4);
  height := le_combine (member bs 28 4);
  channels := le_combine (member bs 32 4);
  filename_length := le_combine (member bs 36 4);
  reserved := member bs 40 24
|}.

(** [struct ImageData]. *)
Record ImageData : Type := {
  filename : string;
  img_width : Z;
  img_height : Z;
  img_channels : Z;
  img_timestamp : Z;
  data : list byte
}.

(** [ImageData::ImageData()]. *)
Definition ImageData_default : ImageData := {|
  filename := EmptyString;
  img_width := 0;
  img_height := 0;
  img_channels := 0;
  img_timestamp := 0;
  data := []
|}.

(** [ImageData::empty()]. *)
Definition empty (image : ImageData) : bool :=
  match data image with [] => true | _ => false end.

(** [struct Keypoint]: five floats and two [int32_t], 28 bytes. *)
Record Keypoint : Type := {
  kp_x : float;
  kp_y : float;
  kp_size : float;
  kp_angle : float;
  kp_response : float;
  kp_octave : Z;
  kp_class_id : Z
}.

#[export] Instance Pod_Keypoint : Pod Keypoint := {|
  sizeof := 28;
  to_bytes := fun kp =>
    to_bytes (kp_x kp) ++ to_bytes (kp_y kp) ++ to_bytes (kp_size kp) ++
    to_bytes (kp_angle kp) ++ to_bytes (kp_response kp) ++
    le_split 4 (kp_octave kp) ++ le_split 4 (kp_class_id kp);
  of_bytes := fun bs => {|
    kp_x := of_bytes (member bs 0 4);
    kp_y := of_bytes (member bs 4 4);
    kp_size := of_bytes (member bs 8 4);
    kp_angle := of_bytes (member bs 12 4);
    kp_response := of_bytes (member bs 16 4);
    kp_octave := signed32 (le_combine (member bs 20 4));
    kp_class_id := signed32 (le_combine (member bs 24 4))
  |}
|}.

(** [struct ImageWithFeatures]. *)
Record ImageWithFeatures : Type := {
  image : ImageData;
  keypoints : list Keypoint;
  descriptors : list float
}.

(** [ImageWithFeatures()]. *)
Definition ImageWithFeatures_default : ImageWithFeatures := {|
  image := ImageData_default;
  keypoints := [];
  descriptors := []
|}.

(* ===================================================================== *)
(** ** serialization.hpp / serialization.cpp *)
(* ===================================================================== *)

(** [s.size()] of a [std::string]; its characters are the bytes
    [list_byte_of_string s]. *)
Definition string_size (s : string) : Z := Z.of_nat (String.length s).

Module Serializer.

(** [write_to_buffer<T>]: append the object representation of [value]. *)
Definition write_to_buffer {T : Type} `{Pod T}
    (buffer : list byte) (value : T) : list byte :=
  buffer ++ to_bytes value.

(** [write_vector_to_buffer<T>]: append the [vec.size() * sizeof(T)] bytes of
    the elements of [vec], back to back. *)
Definition write_vector_to_buffer {T : Type} `{Pod T}
    (buffer : list byte) (vec : list T) : list byte :=
  buffer ++ flat_map to_bytes vec.

(** [read_from_buffer<T>]: the value read and the advanced offset. *)
Definition read_from_buffer {T : Type} `{Pod T}
    (buffer : list byte) (offset : Z) : result (T * Z) :=
  if wrap64 (offset + Z.of_nat sizeof) >? size buffer
  then Throw (SerializationError "Buffer underflow: not enough data to read")
  else
    bs <- bytes_at buffer offset (Z.of_nat sizeof) ;;
    Ok (of_bytes bs, wrap64 (offset + Z.of_nat sizeof)).

(** [read_vector_from_buffer<T>]: [count] elements and the advanced
    offset. *)
Definition read_vector_from_buffer {T : Type} `{Pod T}
    (buffer : list byte) (offset : Z) (count : Z) : result (list T * Z) :=
  let bytes_needed := wrap64 (count * Z.of_nat sizeof) in
  if wrap64 (offset + bytes_needed) >? size buffer
  then Throw (SerializationError
                "Buffer underflow: not enough data for vector")
  else
    bs <- bytes_at buffer offset bytes_needed ;;
    Ok (objects_of_bytes (Z.to_nat count) bs, wrap64 (offset + bytes_needed)).

(** [Serializer::serialize(const ImageData&)]. *)
Definition serialize_image (image : ImageData) : list byte :=
  let buffer : list byte := [] in
  let filename_length := wrap32 (string_size (filename image)) in
  let header := {|
    magic := magic MessageHeader_default;
    type := MessageType_value IMAGE;
    payload_size := wrap64 (filename_length + size (data image));
    timestamp := img_timestamp image;
    width := img_width image;
    height := img_height image;
    channels := img_channels image;
    filename_length := filename_length;
    reserved := reserved MessageHeader_default
  |} in
  let buffer := buffer ++ header_bytes header in
  let buffer := buffer ++ list_byte_of_string (filename image) in
  let buffer := buffer ++ data image in
  buffer.

(** [Serializer::serialize(const ImageWithFeatures&)]. *)
Definition serialize_image_with_features
    (image_features : ImageWithFeatures) : list byte :=
  let buffer : list byte := [] in
  let img := image image_features in
  let keypoint_data_size :=
    wrap64 (size (keypoints image_features) * 28) in
  let descriptor_data_size :=
    wrap64 (size (descriptors image_features) * 4) in
  let header := {|
    magic := magic MessageHeader_default;
    type := MessageType_value IMAGE_WITH_FEATURES;
    payload_size :=
      wrap64 (string_size (filename img) + size (data img) +
              4 + keypoint_data_size + 4 + descriptor_data_size);
    timestamp := img_timestamp img;
    width := img_width img;
    height := img_height img;
    channels := img_channels img;
    filename_length := wrap32 (string_size (filename img));
    reserved := reserved MessageHeader_default
  |} in
  let buffer := buffer ++ header_bytes header in
  let buffer := buffer ++ list_byte_of_string (filename img) in
  let buffer := buffer ++ data img in
  let keypoint_count := wrap32 (size (keypoints image_features)) in
  let buffer := write_to_buffer buffer (U32 keypoint_count) in
  let buffer :=
    if keypoint_count >? 0
    then write_vector_to_buffer buffer (keypoints image_features)
    else buffer in
  let descriptor_count := wrap32 (size (descriptors image_features)) in
  let buffer := write_to_buffer buffer (U32 descriptor_count) in
  let buffer :=
    if descriptor_count >? 0
    then write_vector_to_buffer buffer (descriptors image_features)
    else buffer in
  buffer.

(** [Serializer::deserialize_image]. *)
Definition deserialize_image (data : list byte) : result ImageData :=
  if size data <? sizeof_MessageHeader
  then Throw (SerializationError "Data too small to contain header")
  else
    hb <- bytes_at data 0 sizeof_MessageHeader ;;
    let header := header_of_bytes hb in
    if negb (magic header =? MESSAGE_MAGIC)
    then Throw (SerializationError "Invalid magic number in header")
    else if negb (type header =? MessageType_value IMAGE)
    then Throw (SerializationError "Expected IMAGE message type")
    else
      let expected_size :=
        wrap64 (sizeof_MessageHeader + payload_size header) in
      if negb (size data =? expected_size)
      then Throw (SerializationError "Data size mismatch")
      else
        let offset := sizeof_MessageHeader in
        if wrap64 (offset + filename_length header) >? size data
        then Throw (SerializationError "Invalid filename length")
        else
          fn <- bytes_at data offset (filename_length header) ;;
          let offset := wrap64 (offset + filename_length header) in
          let image_data_size :=
            wrap64 (payload_size header - filename_length header) in
          if negb (wrap64 (offset + image_data_size) =? size data)
          then Throw (SerializationError "Invalid image data size")
          else
            image_data <- bytes_at data offset (size data - offset) ;;
            Ok {| filename := string_of_list_byte fn;
                  img_width := width header;
                  img_height := height header;
                  img_channels := channels header;
                  img_timestamp := timestamp header;
                  data := image_data |}.

(** [Serializer::deserialize_image_with_features]. *)
Definition deserialize_image_with_features (data : list byte)
  : result ImageWithFeatures :=
  if size data <? sizeof_MessageHeader
  then Throw (SerializationError "Data too small to contain header")
  else
    hb <- bytes_at data 0 sizeof_MessageHeader ;;
    let header := header_of_bytes hb in
    if negb (magic header =? MESSAGE_MAGIC)
    then Throw (SerializationError "Invalid magic number in header")
    else if negb (type header =? MessageType_value IMAGE_WITH_FEATURES)
    then Throw (SerializationError
                  "Expected IMAGE_WITH_FEATURES message type")
    else
      let offset := sizeof_MessageHeader in
      if wrap64 (offset + filename_length header) >? size data
      then Throw (SerializationError "Invalid filename length")
      else
        fn <- bytes_at data offset (filename_length header) ;;
        let offset := wrap64 (offset + filename_length header) in
        let remaining_after_filename :=
          wrap64 (payload_size header - filename_length header) in
        let image_data_size :=
          wrap32 (wrap32 (width header * height header) * channels header) in
        if wrap64 (offset + image_data_size) >? size data
        then Throw (SerializationError "Invalid image data size")
        else
          image_data <- bytes_at data offset image_data_size ;;
          let offset := wrap64 (offset + image_data_size) in
          '(keypoint_count, offset) <- read_from_buffer data offset ;;
          '(keypoints, offset) <-
            (if u32 keypoint_count >? 0
             then read_vector_from_buffer data offset (u32 keypoint_count)
             else Ok ([], offset)) ;;
          '(descriptor_count, offset) <- read_from_buffer data offset ;;
          '(descriptors, offset) <-
            (if u32 descriptor_count >? 0
             then read_vector_from_buffer data offset (u32 descriptor_count)
             else Ok ([], offset)) ;;
          Ok {| image := {| filename := string_of_list_byte fn;
                            img_width := width header;
                            img_height := height header;
                            img_channels := channels header;
                            img_timestamp := timestamp header;
                            data := image_data |};
                keypoints := keypoints;
                descriptors := descriptors |}.

End Serializer.

(* ===================================================================== *)
(** ** State and exceptions *)
(* ===================================================================== *)

(** A member function of an object with state [S]: it returns, throws, or
    reads out of bounds, and leaves the object in a new state. *)
Definition M (S A : Type) : Type := S -> result A * S.

Definition ret {S A : Type} (a : A) : M S A := fun s => (Ok a, s).

Definition bindM {S A B : Type} (m : M S A) (k : A -> M S B) : M S B :=
  fun s =>
    match m s with
    | (Ok a, s') => k a s'
    | (Throw e, s') => (Throw e, s')
    | (OutOfBounds, s') => (OutOfBounds, s')
    end.

Definition throw {S A : Type} (e : exn) : M S A := fun s => (Throw e, s).

(** A pure computation run inside a member function. *)
Definition lift {S A : Type} (r : result A) : M S A := fun s => (r, s).

(** [try { body } catch (const std::exception& e) { handler }]. *)
Definition try_catch {S A : Type} (body : M S A) (handler : exn -> M S A)
  : M S A :=
  fun s =>
    match body s with
    | (Throw e, s') => handler e s'
    | other => other
    end.

Definition get {S : Type} : M S S := fun s => (Ok s, s).
Definition modify {S : Type} (f : S -> S) : M S unit := fun s => (Ok tt, f s).

Declare Scope stage_scope.
Delimit Scope stage_scope with stage.
Notation "x <- m ;; k" := (bindM m (fun x => k))
  (at level 61, m at next level, right associativity) : stage_scope.
Notation "m ;; k" := (bindM m (fun _ => k))
  (at level 61, right associativity) : stage_scope.

(** [for (const auto& a : l) body(a);] *)
Fixpoint for_each {S A : Type} (l : list A) (body : A -> M S unit)
  : M S unit :=
  match l with
  | [] => ret tt
  | a :: rest => bindM (body a) (fun _ => for_each rest body)
  end.

(** [e.what()]. *)
Definition what (e : exn) : string :=
  match e with
  | SerializationError msg => msg
  | IPCError msg => msg
  | DatabaseError msg => msg
  | RuntimeError msg => msg
  end.

(* ===================================================================== *)
(** ** ZeroMQ, as the transport uses it *)
(* ===================================================================== *)

Module zmq.

Definition EINTR : Z := 4.
Definition EAGAIN : Z := 11.

(** What one call of [zmq_msg_recv] on a socket with [ZMQ_RCVTIMEO] set
    yields: a message, or [-1] with [zmq_errno()].  The receive timeout
    elapsing with no message available is [-1] with [EAGAIN]. *)
Inductive recv_outcome : Type :=
| Message (msg : list byte)
| Failure (errno : Z).

Definition timeout : recv_outcome := Failure EAGAIN.

End zmq.

(** What the environment supplies to one iteration of a stage loop. *)
Record tick : Type := {
  stop_requested : bool;        (* the signal handler ran [stop()] *)
  msg_init_rc : Z;              (* return code of [zmq_msg_init] *)
  recv : zmq.recv_outcome;      (* outcome of [zmq_msg_recv] *)
  send_errno : option Z         (* [zmq_send] failing with this errno *)
}.

(** Library functions the sources call and do not define. *)
Record Mat : Type := { rows : Z; cols : Z; mat_channels : Z }.

Record cvKeyPoint : Type := {
  pt_x : float;
  pt_y : float;
  cv_size : float;
  cv_angle : float;
  cv_response : float;
  cv_octave : Z;
  cv_class_id : Z
}.

Record Externals : Type := {
  zmq_strerror : Z -> string;
  (* [cv::imdecode(data, cv::IMREAD_COLOR)]: an empty matrix on failure *)
  imdecode : list byte -> Mat;
  (* [cvtColor] and [SIFT::detectAndCompute]: keypoints and one descriptor
     row per keypoint, or a [cv::Exception] *)
  detectAndCompute : Mat -> exn + (list cvKeyPoint * list (list float));
  (* the error text [sqlite3_exec] reports with a return code *)
  sqlite3_errmsg : Z -> string
}.

(** [cv::Mat::empty()]. *)
Definition Mat_empty (m : Mat) : bool := (rows m =? 0) || (cols m =? 0).

(* ===================================================================== *)
(** ** ipc_manager.cpp *)
(* ===================================================================== *)

Module Publisher.

(** [Publisher::Impl::send]: the bytes handed to [zmq_send], when it
    succeeds, are appended to the socket's outbound queue. *)
Definition send_bytes (ext : Externals) (t : tick) (data : list byte)
  : M (list (list byte)) unit :=
  match data with
  | [] => throw (IPCError "Cannot send empty data")
  | _ =>
      match send_errno t with
      | Some err =>
          throw (IPCError
                   ("Failed to send message: " ++ zmq_strerror ext err)%string)
      | None => modify (fun queue => queue ++ [data])
      end
  end.

(** [Publisher::send(const ImageData&)]. *)
Definition send_image (ext : Externals) (t : tick) (image : ImageData)
  : M (list (list byte)) unit :=
  let data := Serializer.serialize_image image in
  send_bytes ext t data.

(** [Publisher::send(const ImageWithFeatures&)]. *)
Definition send_image_with_features (ext : Externals) (t : tick)
    (image_features : ImageWithFeatures) : M (list (list byte)) unit :=
  let data := Serializer.serialize_image_with_features image_features in
  send_bytes ext t data.

End Publisher.

Module Subscriber.

(** [Subscriber::Impl::receive]. *)
Definition receive (ext : Externals) (t : tick) : result (list byte) :=
  if negb (msg_init_rc t =? 0)
  then Throw (IPCError "Failed to initialize message")
  else
    match recv t with
    | zmq.Failure err =>
        (* Timeout is not an error, return empty vector *)
        if err =? zmq.EAGAIN
        then Ok []
        else Throw (IPCError
                      ("Failed to receive message: " ++
                       zmq_strerror ext err)%string)
    | zmq.Message msg => Ok msg
    end.

(** [Subscriber::receive_image]. *)
Definition receive_image (ext : Externals) (t : tick) : result ImageData :=
  data <- receive ext t ;;
  match data with
  | [] => Ok ImageData_default
  | _ => Serializer.deserialize_image data
  end.

(** [Subscriber::receive_image_with_features]. *)
Definition receive_image_with_features (ext : Externals) (t : tick)
  : result ImageWithFeatures :=
  data <- receive ext t ;;
  match data with
  | [] => Ok ImageWithFeatures_default
  | _ => Serializer.deserialize_image_with_features data
  end.

End Subscriber.

(* ===================================================================== *)
(** ** src/common/ipc.cpp (namespace voyis) *)
(* ===================================================================== *)

Module voyis.

Record Subscriber : Type := {
  connected_ : bool;
  cerr : list string
}.

(** [bool Subscriber::receive(std::vector<uint8_t>& data)]: the return
    value, the caller's vector and the subscriber afterwards.  Nothing in
    the function throws. *)
Definition receive (ext : Externals) (t : tick)
    (sub : Subscriber) (data : list byte)
  : bool * list byte * Subscriber :=
  if negb (connected_ sub) then (false, data, sub)
  else if negb (msg_init_rc t =? 0) then (false, data, sub)
  else
    match recv t with
    | zmq.Failure errno =>
        if (errno =? zmq.EAGAIN) || (errno =? zmq.EINTR)
        then (false, data, sub)
        else (false, data,
              {| connected_ := connected_ sub;
                 cerr := cerr sub ++
                   [("Error receiving message: " ++
                     zmq_strerror ext errno)%string]
              |})
    | zmq.Message msg => (true, msg, sub)
    end.

End voyis.

(** Run a member function of a sub-object inside its owner. *)
Definition zoom {S T A : Type} (proj : S -> T) (upd : T -> S -> S)
    (m : M T A) : M S A :=
  fun s => let (r, t') := m (proj s) in (r, upd t' s).

(* ===================================================================== *)
(** ** feature_extractor.cpp *)
(* ===================================================================== *)

Module FeatureExtractor.

Record t : Type := {
  running_ : bool;
  images_processed_ : Z;
  total_features_extracted_ : Z;
  publisher_ : list (list byte);    (* what was handed to the socket *)
  cerr : list string
}.

(** State after the constructor. *)
Definition init : t := {|
  running_ := false;
  images_processed_ := 0;
  total_features_extracted_ := 0;
  publisher_ := [];
  cerr := []
|}.

Definition set_running (b : bool) (st : t) : t := {|
  running_ := b;
  images_processed_ := images_processed_ st;
  total_features_extracted_ := total_features_extracted_ st;
  publisher_ := publisher_ st;
  cerr := cerr st
|}.

Definition set_publisher (q : list (list byte)) (st : t) : t := {|
  running_ := running_ st;
  images_processed_ := images_processed_ st;
  total_features_extracted_ := total_features_extracted_ st;
  publisher_ := q;
  cerr := cerr st
|}.

(** [images_processed_++; total_features_extracted_ += n;] *)
Definition count (n : Z) (st : t) : t := {|
  running_ := running_ st;
  images_processed_ := wrap64 (images_processed_ st + 1);
  total_features_extracted_ := wrap64 (total_features_extracted_ st + n);
  publisher_ := publisher_ st;
  cerr := cerr st
|}.

(** [std::cerr << line << std::endl]. *)
Definition log_error (line : string) (st : t) : t := {|
  running_ := running_ st;
  images_processed_ := images_processed_ st;
  total_features_extracted_ := total_features_extracted_ st;
  publisher_ := publisher_ st;
  cerr := cerr st ++ [line]
|}.

(** [FeatureExtractor::decode_image]. *)
Definition decode_image (ext : Externals) (image : ImageData) : result Mat :=
  if empty image then Throw (RuntimeError "Empty image data")
  else
    let decoded := imdecode ext (data image) in
    if Mat_empty decoded
    then Throw (RuntimeError
                  ("Failed to decode image: " ++ filename image)%string)
    else Ok decoded.

(** [FeatureExtractor::extract_sift_features]. *)
Definition extract_sift_features (ext : Externals) (image : Mat)
  : result (list cvKeyPoint * list (list float)) :=
  if Mat_empty image
  then Throw (RuntimeError "Cannot extract features from empty image")
  else
    match detectAndCompute ext image with
    | inl e => Throw e
    | inr r => Ok r
    end.

(** [FeatureExtractor::convert_keypoints]. *)
Definition convert_keypoints (cv_keypoints : list cvKeyPoint)
  : list Keypoint :=
  map (fun cv_kp => {| kp_x := pt_x cv_kp;
                       kp_y := pt_y cv_kp;
                       kp_size := cv_size cv_kp;
                       kp_angle := cv_angle cv_kp;
                       kp_response := cv_response cv_kp;
                       kp_octave := cv_octave cv_kp;
                       kp_class_id := cv_class_id cv_kp |}) cv_keypoints.

(** [FeatureExtractor::convert_descriptors]: the rows, flattened. *)
Definition convert_descriptors (cv_descriptors : list (list float))
  : list float :=
  List.concat cv_descriptors.

(** [FeatureExtractor::process_image]. *)
Definition process_image (ext : Externals) (image : ImageData)
  : result ImageWithFeatures :=
  mat <- decode_image ext image ;;
  '(cv_keypoints, cv_descriptors) <- extract_sift_features ext mat ;;
  Ok {| keypoints := convert_keypoints cv_keypoints;
        descriptors := convert_descriptors cv_descriptors;
        image := {| filename := filename image;
                    img_width := wrap32 (cols mat);
                    img_height := wrap32 (rows mat);
                    img_channels := wrap32 (mat_channels mat);
                    img_timestamp := img_timestamp image;
                    data := data image |} |}.

(** The body of the [while (running_)] loop of [FeatureExtractor::run]. *)
Definition iteration (ext : Externals) (tk : tick) : M t unit :=
  try_catch
    (image <- lift (Subscriber.receive_image ext tk) ;;
     if empty image
     then ret tt        (* Timeout or no data - continue waiting *)
     else
       result <- lift (process_image ext image) ;;
       modify (count (size (keypoints result))) ;;
       zoom publisher_ set_publisher
            (Publisher.send_image_with_features ext tk result))%stage
    (fun e =>
       modify (log_error ("Error processing image: " ++ what e)%string)).

(** [FeatureExtractor::stop]. *)
Definition stop (st : t) : t := set_running false st.

(** The loop of [FeatureExtractor::run] against the environment [env], one
    tick per iteration; a stop request takes effect at the next test of
    [running_]. *)
Fixpoint run_loop (ext : Externals) (env : list tick) : M t unit :=
  match env with
  | [] => ret tt
  | tk :: rest =>
      fun st =>
        let st := if stop_requested tk then stop st else st in
        if running_ st
        then bindM (iteration ext tk) (fun _ => run_loop ext rest) st
        else (Ok tt, st)
  end.

(** [FeatureExtractor::run]. *)
Definition run (ext : Externals) (env : list tick) : M t unit :=
  (modify (set_running true) ;; run_loop ext env)%stage.

End FeatureExtractor.

(* ===================================================================== *)
(** ** SQLite, as the data logger uses it *)
(* ===================================================================== *)

Module sqlite.

Definition SQLITE_OK : Z := 0.
Definition SQLITE_ERROR : Z := 1.
Definition SQLITE_IOERR : Z := 10.
Definition SQLITE_FULL : Z := 13.
Definition SQLITE_DONE : Z := 101.

(** The largest rowid of a table. *)
Definition MAX_ROWID : Z := 2 ^ 63 - 1.

(** Rows of the three tables of [DataLogger::init_database]. *)
Record ImageRow : Type := {
  image_rowid : Z;
  row_filename : string;
  row_timestamp : Z;
  row_width : Z;
  row_height : Z;
  row_channels : Z;
  row_image_data : list byte;
  row_data_size : Z
}.

Record KeypointRow : Type := {
  keypoint_rowid : Z;
  kp_image_id : Z;
  row_x : float;
  row_y : float;
  row_size : float;
  row_angle : float;
  row_response : float;
  row_octave : Z;
  row_class_id : Z
}.

Record DescriptorRow : Type := {
  descriptor_rowid : Z;
  desc_image_id : Z;
  row_descriptor_data : list byte
}.

(** The tables, with the [AUTOINCREMENT] high-water mark of each. *)
Record Tables : Type := {
  images : list ImageRow;
  keypoints : list KeypointRow;
  descriptors : list DescriptorRow;
  images_seq : Z;
  keypoints_seq : Z;
  descriptors_seq : Z
}.

(** A fault the environment injects into one API call: none, a failure
    that leaves an open transaction open, or a failure on which SQLite
    rolls the open transaction back by itself (disk full, I/O error). *)
Inductive fault : Type := NoFault | Fail | FailAbort.

(** A database connection: the committed tables, the working copy of an
    open transaction, [sqlite3_last_insert_rowid], and the faults still to
    come, one per fallible API call. *)
Record sqlite3 : Type := {
  committed : Tables;
  txn : option Tables;
  last_rowid : Z;
  faults : list fault
}.

(** An [INSERT] statement with its parameters bound. *)
Inductive statement : Type :=
| InsertImage (filename : string)
              (timestamp width height channels : Z)
              (image_data : list byte) (data_size : Z)
| InsertKeypoint (image_id : Z) (x y size angle response : float)
                 (octave class_id : Z)
| InsertDescriptors (image_id : Z) (descriptor_data : list byte).

Inductive sql : Type := BEGIN_TRANSACTION | COMMIT | ROLLBACK.

Definition next_fault (db : sqlite3) : fault * sqlite3 :=
  match faults db with
  | [] => (NoFault, db)
  | f :: rest =>
      (f, {| committed := committed db; txn := txn db;
             last_rowid := last_rowid db; faults := rest |})
  end.

Definition set_txn (w : option Tables) (db : sqlite3) : sqlite3 :=
  {| committed := committed db; txn := w;
     last_rowid := last_rowid db; faults := faults db |}.

(** The row a statement adds to the tables, and its rowid. *)
Definition insert (s : statement) (tb : Tables) : Tables * Z :=
  match s with
  | InsertImage fn ts w h c blob n =>
      let id := images_seq tb + 1 in
      ({| images := images tb ++
            [{| image_rowid := id; row_filename := fn; row_timestamp := ts;
                row_width := w; row_height := h; row_channels := c;
                row_image_data := blob; row_data_size := n |}];
          keypoints := keypoints tb;
          descriptors := descriptors tb;
          images_seq := id;
          keypoints_seq := keypoints_seq tb;
          descriptors_seq := descriptors_seq tb |}, id)
  | InsertKeypoint image_id x y sz a r o c =>
      let id := keypoints_seq tb + 1 in
      ({| images := images tb;
          keypoints := keypoints tb ++
            [{| keypoint_rowid := id; kp_image_id := image_id;
                row_x := x; row_y := y; row_size := sz; row_angle := a;
                row_response := r; row_octave := o; row_class_id := c |}];
          descriptors := descriptors tb;
          images_seq := images_seq tb;
          keypoints_seq := id;
          descriptors_seq := descriptors_seq tb |}, id)
  | InsertDescriptors image_id blob =>
      let id := descriptors_seq tb + 1 in
      ({| images := images tb;
          keypoints := keypoints tb;
          descriptors := descriptors tb ++
            [{| descriptor_rowid := id; desc_image_id := image_id;
                row_descriptor_data := blob |}];
          images_seq := images_seq tb;
          keypoints_seq := keypoints_seq tb;
          descriptors_seq := id |}, id)
  end.

(** [sqlite3_exec] of a transaction-control statement. *)
Definition sqlite3_exec (q : sql) (db : sqlite3) : Z * sqlite3 :=
  match q with
  | BEGIN_TRANSACTION =>
      let (f, db) := next_fault db in
      match f, txn db with
      | NoFault, None => (SQLITE_OK, set_txn (Some (committed db)) db)
      | NoFault, Some _ => (SQLITE_ERROR, db)   (* nested transaction *)
      | Fail, _ => (SQLITE_ERROR, db)
      | FailAbort, _ => (SQLITE_IOERR, set_txn None db)
      end
  | COMMIT =>
      let (f, db) := next_fault db in
      match f, txn db with
      | NoFault, Some w =>
          (SQLITE_OK, {| committed := w; txn := None;
                         last_rowid := last_rowid db; faults := faults db |})
      | NoFault, None => (SQLITE_ERROR, db)     (* no transaction active *)
      | Fail, _ => (SQLITE_ERROR, db)
      | FailAbort, _ => (SQLITE_IOERR, set_txn None db)
      end
  | ROLLBACK =>
      (* rolling back an open transaction always succeeds *)
      match txn db with
      | Some _ => (SQLITE_OK, set_txn None db)
      | None => (SQLITE_ERROR, db)              (* no transaction active *)
      end
  end.

(** [sqlite3_prepare_v2] of an [INSERT]. *)
Definition sqlite3_prepare_v2 (db : sqlite3) : Z * sqlite3 :=
  let (f, db) := next_fault db in
  match f with
  | NoFault => (SQLITE_OK, db)
  | Fail => (SQLITE_ERROR, db)
  | FailAbort => (SQLITE_IOERR, set_txn None db)
  end.

(** [sqlite3_step] of a prepared [INSERT]: inside a transaction the row
    goes to the working copy, outside one it is committed at once.  A table
    whose [AUTOINCREMENT] sequence has reached the largest rowid accepts no
    further row. *)
Definition sqlite3_step (s : statement) (db : sqlite3) : Z * sqlite3 :=
  let (f, db) := next_fault db in
  match f with
  | NoFault =>
      match txn db with
      | Some w =>
          let (w', id) := insert s w in
          if id >? MAX_ROWID
          then (SQLITE_FULL, db)
          else (SQLITE_DONE, {| committed := committed db; txn := Some w';
                                last_rowid := id; faults := faults db |})
      | None =>
          let (c', id) := insert s (committed db) in
          if id >? MAX_ROWID
          then (SQLITE_FULL, db)
          else (SQLITE_DONE, {| committed := c'; txn := None;
                                last_rowid := id; faults := faults db |})
      end
  | Fail => (SQLITE_ERROR, db)
  | FailAbort => (SQLITE_IOERR, set_txn None db)
  end.

(** [sqlite3_last_insert_rowid]. *)
Definition sqlite3_last_insert_rowid (db : sqlite3) : Z * sqlite3 :=
  (last_rowid db, db).

End sqlite.

(* ===================================================================== *)
(** ** data_logger.cpp *)
(* ===================================================================== *)

(** [s.c_str()] read as a NUL-terminated string. *)
Fixpoint c_str (s : string) : string :=
  match s with
  | EmptyString => EmptyString
  | String c rest =>
      if Ascii.eqb c Ascii.zero then EmptyString else String c (c_str rest)
  end.

(** Conversion of a 64-bit pattern to [sqlite3_int64]. *)
Definition signed64 (z : Z) : Z :=
  if wrap64 z <? 2 ^ 63 then wrap64 z else wrap64 z - 2 ^ 64.

Module DataLogger.

Record t : Type := {
  running_ : bool;
  images_logged_ : Z;
  keypoints_logged_ : Z;
  db_ : sqlite.sqlite3;
  cerr : list string
}.

Definition set_running (b : bool) (st : t) : t := {|
  running_ := b;
  images_logged_ := images_logged_ st;
  keypoints_logged_ := keypoints_logged_ st;
  db_ := db_ st;
  cerr := cerr st
|}.

Definition set_db (db : sqlite.sqlite3) (st : t) : t := {|
  running_ := running_ st;
  images_logged_ := images_logged_ st;
  keypoints_logged_ := keypoints_logged_ st;
  db_ := db;
  cerr := cerr st
|}.

(** [images_logged_++]. *)
Definition incr_images_logged (st : t) : t := {|
  running_ := running_ st;
  images_logged_ := wrap64 (images_logged_ st + 1);
  keypoints_logged_ := keypoints_logged_ st;
  db_ := db_ st;
  cerr := cerr st
|}.

(** [keypoints_logged_ += n]. *)
Definition add_keypoints_logged (n : Z) (st : t) : t := {|
  running_ := running_ st;
  images_logged_ := images_logged_ st;
  keypoints_logged_ := wrap64 (keypoints_logged_ st + n);
  db_ := db_ st;
  cerr := cerr st
|}.

(** [std::cerr << line << std::endl]. *)
Definition log_error (line : string) (st : t) : t := {|
  running_ := running_ st;
  images_logged_ := images_logged_ st;
  keypoints_logged_ := keypoints_logged_ st;
  db_ := db_ st;
  cerr := cerr st ++ [line]
|}.

(** A call into SQLite on [db_]. *)
Definition call {A : Type} (f : sqlite.sqlite3 -> A * sqlite.sqlite3) : M t A :=
  fun st => let (a, db) := f (db_ st) in (Ok a, set_db db st).

(** [DataLogger::execute_sql]. *)
Definition execute_sql (ext : Externals) (q : sqlite.sql) : M t unit :=
  (rc <- call (sqlite.sqlite3_exec q) ;;
   if negb (rc =? sqlite.SQLITE_OK)
   then throw (DatabaseError
                 ("SQL execution failed: " ++ sqlite3_errmsg ext rc)%string)
   else ret tt)%stage.

Definition begin_transaction (ext : Externals) : M t unit :=
  execute_sql ext sqlite.BEGIN_TRANSACTION.
Definition commit_transaction (ext : Externals) : M t unit :=
  execute_sql ext sqlite.COMMIT.
Definition rollback_transaction (ext : Externals) : M t unit :=
  execute_sql ext sqlite.ROLLBACK.

(** The statements [store_image_with_features] binds. *)
Definition insert_image_stmt (image : ImageData) : sqlite.statement :=
  sqlite.InsertImage (c_str (filename image))
              (signed64 (img_timestamp image))
              (signed32 (img_width image))
              (signed32 (img_height image))
              (signed32 (img_channels image))
              (data image)
              (signed32 (size (data image))).

Definition insert_keypoint_stmt (image_id : Z) (kp : Keypoint)
  : sqlite.statement :=
  sqlite.InsertKeypoint image_id (kp_x kp) (kp_y kp) (kp_size kp) (kp_angle kp)
                 (kp_response kp) (kp_octave kp) (kp_class_id kp).

Definition insert_descriptors_stmt (image_id : Z) (ds : list float)
  : sqlite.statement :=
  sqlite.InsertDescriptors image_id (flat_map to_bytes ds).

(** [DataLogger::store_image_with_features]. *)
Definition store_image_with_features (ext : Externals)
    (data : ImageWithFeatures) : M t unit :=
  (begin_transaction ext ;;
   try_catch
     (rc <- call sqlite.sqlite3_prepare_v2 ;;
      if negb (rc =? sqlite.SQLITE_OK)
      then throw (DatabaseError "Failed to prepare image insert statement")
      else
        rc <- call (sqlite.sqlite3_step (insert_image_stmt (image data))) ;;
        if negb (rc =? sqlite.SQLITE_DONE)
        then throw (DatabaseError "Failed to insert image")
        else
          image_id <- call sqlite.sqlite3_last_insert_rowid ;;
          match keypoints data with
          | [] => ret tt
          | _ =>
              rc <- call sqlite.sqlite3_prepare_v2 ;;
              if negb (rc =? sqlite.SQLITE_OK)
              then throw (DatabaseError
                            "Failed to prepare keypoint insert statement")
              else
                for_each (keypoints data) (fun kp =>
                  rc <- call (sqlite.sqlite3_step
                                (insert_keypoint_stmt image_id kp)) ;;
                  if negb (rc =? sqlite.SQLITE_DONE)
                  then throw (DatabaseError "Failed to insert keypoint")
                  else ret tt)
          end ;;
          match descriptors data with
          | [] => ret tt
          | _ =>
              rc <- call sqlite.sqlite3_prepare_v2 ;;
              if negb (rc =? sqlite.SQLITE_OK)
              then throw (DatabaseError
                            "Failed to prepare descriptor insert statement")
              else
                rc <- call (sqlite.sqlite3_step
                              (insert_descriptors_stmt image_id
                                 (descriptors data))) ;;
                if negb (rc =? sqlite.SQLITE_DONE)
                then throw (DatabaseError "Failed to insert descriptors")
                else ret tt
          end ;;
          commit_transaction ext ;;
          modify incr_images_logged ;;
          modify (add_keypoints_logged (size (keypoints data))))
     (fun e => rollback_transaction ext ;; throw e))%stage.

(** The body of the [while (running_)] loop of [DataLogger::run]. *)
Definition iteration (ext : Externals) (tk : tick) : M t unit :=
  try_catch
    (data <- lift (Subscriber.receive_image_with_features ext tk) ;;
     if empty (image data)
     then ret tt        (* Timeout or no data - continue waiting *)
     else store_image_with_features ext data)%stage
    (fun e => modify (log_error ("Error logging data: " ++ what e)%string)).

(** [DataLogger::stop]. *)
Definition stop (st : t) : t := set_running false st.

(** The loop of [DataLogger::run] against the environment [env]. *)
Fixpoint run_loop (ext : Externals) (env : list tick) : M t unit :=
  match env with
  | [] => ret tt
  | tk :: rest =>
      fun st =>
        let st := if stop_requested tk then stop st else st in
        if running_ st
        then bindM (iteration ext tk) (fun _ => run_loop ext rest) st
        else (Ok tt, st)
  end.

(** [DataLogger::run]. *)
Definition run (ext : Externals) (env : list tick) : M t unit :=
  (modify (set_running true) ;; run_loop ext env)%stage.

End DataLogger.

(* ===================================================================== *)
(** ** src/common/message.cpp (namespace voyis) *)
(* ===================================================================== *)

(** [int] and [int64_t], as the values they hold. *)
Record int32_t : Type := I32 { i32 : Z }.
Record int64_t : Type := I64 { i64 : Z }.

#[export] Instance Pod_int32 : Pod int32_t := {|
  sizeof := 4;
  to_bytes := fun v => le_split 4 (i32 v);
  of_bytes := fun bs => I32 (signed32 (le_combine (firstn 4 bs)))
|}.

#[export] Instance Pod_int64 : Pod int64_t := {|
  sizeof := 8;
  to_bytes := fun v => le_split 8 (i64 v);
  of_bytes := fun bs => I64 (signed64 (le_combine (firstn 8 bs)))
|}.

Module message.

(** [struct Point2f] and [struct KeyPoint] of message.h; [size_] is the
    member [size]. *)
Record Point2f : Type := { x : float; y : float }.

Record KeyPoint : Type := {
  pt : Point2f;
  size_ : float;
  angle : float;
  response : float;
  octave : Z
}.

(** What the functions of this file let escape: the [std::runtime_error]
    they throw, and the [std::bad_alloc] of a [reserve] that the allocator
    refuses. *)
Inductive exception : Type :=
| runtime_error (what_arg : string)
| bad_alloc.

(** The two reference parameters of the read helpers: the read pointer, as
    an offset into the buffer it points into, and the byte count
    [remaining]. *)
Record cursor : Type := { ptr : Z; remaining : Z }.

(** Outcome of a read helper: the value returned and the advanced cursor,
    an exception, or a read outside the buffer. *)
Inductive outcome (A : Type) : Type :=
| Returns (a : A) (c : cursor)
| Throws (e : exception)
| Overrun.
Arguments Returns {A} a c.
Arguments Throws {A} e.
Arguments Overrun {A}.

(** A function that reads from a buffer through a cursor. *)
Definition Reader (A : Type) : Type := list byte -> cursor -> outcome A.

Definition ret {A : Type} (a : A) : Reader A := fun _ c => Returns a c.

Definition bind {A B : Type} (r : Reader A) (k : A -> Reader B) : Reader B :=
  fun buffer c =>
    match r buffer c with
    | Returns a c' => k a buffer c'
    | Throws e => Throws e
    | Overrun => Overrun
    end.

Definition throw {A : Type} (e : exception) : Reader A :=
  fun _ _ => Throws e.

Declare Scope reader_scope.
Delimit Scope reader_scope with reader.
Notation "v <- r ;; k" := (bind r (fun v => k))
  (at level 61, r at next level, right associativity) : reader_scope.
Notation "r ;; k" := (bind r (fun _ => k))
  (at level 61, right associativity) : reader_scope.

(** What each read helper does once it knows how many bytes it wants:
    [if (remaining < n) throw std::runtime_error(what_arg);], then the [n]
    bytes at the read pointer, as a [memcpy] or a range constructor reads
    them, then [data += n; remaining -= n;]. *)
Definition checked_read (n : Z) (what_arg : string) : Reader (list byte) :=
  fun buffer c =>
    if remaining c <? n then Throws (runtime_error what_arg)
    else
      match bytes_at buffer (ptr c) n with
      | Ok bs =>
          Returns bs {| ptr := ptr c + n; remaining := remaining c - n |}
      | _ => Overrun
      end.

(** [v.reserve(n)] on an empty vector whose elements take [element_size]
    bytes.  These are the requests whose size comes off the wire and is
    compared with nothing; [alloc] tells whether the allocator grants a
    request of that many bytes.  (The other allocations of this file are no
    larger than the buffer being decoded, or repeat a request already
    granted, and are taken to succeed.) *)
Definition reserve (alloc : Z -> bool) (n element_size : Z) : Reader unit :=
  if n =? 0 then ret tt
  else if alloc (n * element_size) then ret tt
  else throw bad_alloc.

(** [writeValue<T>]. *)
Definition writeValue {T : Type} `{Pod T} (buffer : list byte) (value : T)
  : list byte :=
  buffer ++ to_bytes value.

(** [writeString]. *)
Definition writeString (buffer : list byte) (str : string) : list byte :=
  let length := wrap32 (string_size str) in
  let buffer := writeValue buffer (U32 length) in
  buffer ++ list_byte_of_string str.

(** [writeBytes]. *)
Definition writeBytes (buffer : list byte) (bytes : list byte) : list byte :=
  let length := wrap32 (size bytes) in
  let buffer := writeValue buffer (U32 length) in
  buffer ++ bytes.

(** [readValue<T>]. *)
Definition readValue {T : Type} `{Pod T} : Reader T :=
  (bs <- checked_read (Z.of_nat sizeof) "Insufficient data to read value" ;;
   ret (of_bytes bs))%reader.

(** [readString]. *)
Definition readString : Reader string :=
  (length <- readValue ;;
   bs <- checked_read (u32 length) "Insufficient data to read string" ;;
   ret (string_of_list_byte bs))%reader.

(** [readBytes]. *)
Definition readBytes : Reader (list byte) :=
  (length <- readValue ;;
   checked_read (u32 length) "Insufficient data to read bytes")%reader.

(** [sizeof(KeyPoint)] and [sizeof(std::vector<float>)]. *)
Definition sizeof_KeyPoint : Z := 24.
Definition sizeof_vector : Z := 24.

Module ImageMessage.

Record t : Type := {
  image_id : string;
  image_data : list byte;
  format : string;
  width : Z;
  height : Z;
  timestamp : Z
}.

(** [ImageMessage::serialize]. *)
Definition serialize (m : t) : list byte :=
  let buffer : list byte := [] in
  let buffer := writeString buffer (image_id m) in
  let buffer := writeBytes buffer (image_data m) in
  let buffer := writeString buffer (format m) in
  let buffer := writeValue buffer (I32 (width m)) in
  let buffer := writeValue buffer (I32 (height m)) in
  let buffer := writeValue buffer (I64 (timestamp m)) in
  buffer.

(** The body of [ImageMessage::deserialize], from the cursor on. *)
Definition read : Reader t :=
  (image_id <- readString ;;
   image_data <- readBytes ;;
   format <- readString ;;
   width <- readValue ;;
   height <- readValue ;;
   timestamp <- readValue ;;
   ret {| image_id := image_id;
          image_data := image_data;
          format := format;
          width := i32 width;
          height := i32 height;
          timestamp := i64 timestamp |})%reader.

(** [ImageMessage::deserialize]: the message, and where decoding stopped. *)
Definition deserialize (data : list byte) : outcome t :=
  read data {| ptr := 0; remaining := size data |}.

End ImageMessage.

Module ProcessedImageMessage.

Record t : Type := {
  image_id : string;
  image_data : list byte;
  format : string;
  width : Z;
  height : Z;
  timestamp : Z;
  processed_timestamp : Z;
  keypoints : list KeyPoint;
  descriptors : list (list float)
}.

(** The body of the loop over [keypoints] in [serialize]. *)
Definition write_keypoint (buffer : list byte) (kp : KeyPoint) : list byte :=
  let buffer := writeValue buffer (x (pt kp)) in
  let buffer := writeValue buffer (y (pt kp)) in
  let buffer := writeValue buffer (size_ kp) in
  let buffer := writeValue buffer (angle kp) in
  let buffer := writeValue buffer (response kp) in
  let buffer := writeValue buffer (I32 (octave kp)) in
  buffer.

(** The body of the loop over [descriptors] in [serialize]. *)
Definition write_descriptor (buffer : list byte) (desc : list float)
  : list byte :=
  let desc_size := wrap32 (size desc) in
  let buffer := writeValue buffer (U32 desc_size) in
  fold_left (fun buffer val => writeValue buffer val) desc buffer.

(** [ProcessedImageMessage::serialize]. *)
Definition serialize (m : t) : list byte :=
  let buffer : list byte := [] in
  let buffer := writeString buffer (image_id m) in
  let buffer := writeBytes buffer (image_data m) in
  let buffer := writeString buffer (format m) in
  let buffer := writeValue buffer (I32 (width m)) in
  let buffer := writeValue buffer (I32 (height m)) in
  let buffer := writeValue buffer (I64 (timestamp m)) in
  let buffer := writeValue buffer (I64 (processed_timestamp m)) in
  let num_keypoints := wrap32 (size (keypoints m)) in
  let buffer := writeValue buffer (U32 num_keypoints) in
  let buffer := fold_left write_keypoint (keypoints m) buffer in
  let num_descriptors := wrap32 (size (descriptors m)) in
  let buffer := writeValue buffer (U32 num_descriptors) in
  let buffer := fold_left write_descriptor (descriptors m) buffer in
  buffer.

(** [for (uint32_t i = 0; i < num_keypoints; ++i)], with [n] iterations
    left and the keypoints pushed so far. *)
Fixpoint read_keypoints (n : nat) (keypoints : list KeyPoint)
  : Reader (list KeyPoint) :=
  match n with
  | O => ret keypoints
  | S n' =>
      (pt_x <- readValue ;;
       pt_y <- readValue ;;
       size <- readValue ;;
       angle <- readValue ;;
       response <- readValue ;;
       octave <- readValue ;;
       let kp := {| pt := {| x := pt_x; y := pt_y |};
                    size_ := size;
                    angle := angle;
                    response := response;
                    octave := i32 octave |} in
       read_keypoints n' (keypoints ++ [kp]))%reader
  end.

(** [for (uint32_t j = 0; j < desc_size; ++j)]. *)
Fixpoint read_values (n : nat) (desc : list float) : Reader (list float) :=
  match n with
  | O => ret desc
  | S n' =>
      (val <- readValue ;;
       read_values n' (desc ++ [val]))%reader
  end.

(** [for (uint32_t i = 0; i < num_descriptors; ++i)]. *)
Fixpoint read_descriptors (alloc : Z -> bool) (n : nat)
    (descriptors : list (list float)) : Reader (list (list float)) :=
  match n with
  | O => ret descriptors
  | S n' =>
      (desc_size <- readValue ;;
       reserve alloc (u32 desc_size) 4 ;;
       desc <- read_values (Z.to_nat (u32 desc_size)) [] ;;
       read_descriptors alloc n' (descriptors ++ [desc]))%reader
  end.

(** The body of [ProcessedImageMessage::deserialize], from the cursor on. *)
Definition read (alloc : Z -> bool) : Reader t :=
  (image_id <- readString ;;
   image_data <- readBytes ;;
   format <- readString ;;
   width <- readValue ;;
   height <- readValue ;;
   timestamp <- readValue ;;
   processed_timestamp <- readValue ;;
   num_keypoints <- readValue ;;
   reserve alloc (u32 num_keypoints) sizeof_KeyPoint ;;
   keypoints <- read_keypoints (Z.to_nat (u32 num_keypoints)) [] ;;
   num_descriptors <- readValue ;;
   reserve alloc (u32 num_descriptors) sizeof_vector ;;
   descriptors <-
     read_descriptors alloc (Z.to_nat (u32 num_descriptors)) [] ;;
   ret {| image_id := image_id;
          image_data := image_data;
          format := format;
          width := i32 width;
          height := i32 height;
          timestamp := i64 timestamp;
          processed_timestamp := i64 processed_timestamp;
          keypoints := keypoints;
          descriptors := descriptors |})%reader.

(** [ProcessedImageMessage::deserialize]: the message, and where decoding
    stopped. *)
Definition deserialize (alloc : Z -> bool) (data : list byte) : outcome t :=
  read alloc data {| ptr := 0; remaining := size data |}.

End ProcessedImageMessage.

End message.

(* ===================================================================== *)
(** ** image_generator.cpp *)
(* ===================================================================== *)

(** What the file system and the clock give one call of
    [load_image_file]: the file cannot be opened, it cannot be read, or it
    holds [bytes] and the clock shows [now] milliseconds. *)
Inductive disk : Type :=
| cannot_open
| cannot_read
| holds (bytes : list byte) (now : Z).

(** Library functions on [std::filesystem::path] the source calls:
    [filename()], and the text [operator<<] writes for a path. *)
Record Paths : Type := {
  path_filename : string -> string;
  path_quoted : string -> string
}.

Module ImageGenerator.

Record t : Type := {
  image_paths_ : list string;
  running_ : bool;
  images_sent_ : Z;
  publisher_ : list (list byte);    (* what was handed to the socket *)
  cerr : list string
}.

Definition set_running (b : bool) (st : t) : t := {|
  image_paths_ := image_paths_ st;
  running_ := b;
  images_sent_ := images_sent_ st;
  publisher_ := publisher_ st;
  cerr := cerr st
|}.

Definition set_publisher (q : list (list byte)) (st : t) : t := {|
  image_paths_ := image_paths_ st;
  running_ := running_ st;
  images_sent_ := images_sent_ st;
  publisher_ := q;
  cerr := cerr st
|}.

(** [images_sent_++]. *)
Definition incr_images_sent (st : t) : t := {|
  image_paths_ := image_paths_ st;
  running_ := running_ st;
  images_sent_ := wrap64 (images_sent_ st + 1);
  publisher_ := publisher_ st;
  cerr := cerr st
|}.

(** [std::cerr << line << std::endl]. *)
Definition log_error (line : string) (st : t) : t := {|
  image_paths_ := image_paths_ st;
  running_ := running_ st;
  images_sent_ := images_sent_ st;
  publisher_ := publisher_ st;
  cerr := cerr st ++ [line]
|}.

(** [ImageGenerator::load_image_file]. *)
Definition load_image_file (fs : Paths) (d : disk) (image_path : string)
  : result ImageData :=
  match d with
  | cannot_open =>
      Throw (RuntimeError
               ("Failed to open image file: " ++ image_path)%string)
  | cannot_read =>
      Throw (RuntimeError
               ("Failed to read image file: " ++ image_path)%string)
  | holds bytes now =>
      Ok {| filename := path_filename fs image_path;
            data := bytes;
            img_timestamp := wrap64 now;
            img_width := 0;
            img_height := 0;
            img_channels := 0 |}
  end.

(** [ImageGenerator::publish_image]. *)
Definition publish_image (ext : Externals) (fs : Paths) (tk : tick)
    (d : disk) (image_path : string) : M t unit :=
  try_catch
    (image <- lift (load_image_file fs d image_path) ;;
     zoom publisher_ set_publisher (Publisher.send_image ext tk image) ;;
     modify incr_images_sent)%stage
    (fun e =>
       modify (log_error ("Error publishing image " ++
                          path_quoted fs image_path ++ ": " ++
                          what e)%string)).

(** [ImageGenerator::stop]. *)
Definition stop (st : t) : t := set_running false st.

(** The loop of [ImageGenerator::run] from [image_index], against the
    environment [env], one entry per iteration; it returns the index it
    stopped at.  Indexing [image_paths_] past its end, and the remainder by
    an empty vector's size, are outside the language. *)
Fixpoint run_loop (ext : Externals) (fs : Paths) (env : list (tick * disk))
    (image_index : Z) : M t Z :=
  match env with
  | [] => ret image_index
  | (tk, d) :: rest =>
      fun st =>
        let st := if stop_requested tk then stop st else st in
        if running_ st
        then
          match nth_error (image_paths_ st) (Z.to_nat image_index) with
          | None => (OutOfBounds, st)
          | Some image_path =>
              bindM (publish_image ext fs tk d image_path)
                (fun _ s =>
                   if size (image_paths_ s) =? 0 then (OutOfBounds, s)
                   else
                     run_loop ext fs rest
                       (wrap64 (image_index + 1) mod size (image_paths_ s))
                       s)
                st
          end
        else (Ok image_index, st)
  end.

(** [ImageGenerator::run]. *)
Definition run (ext : Externals) (fs : Paths) (env : list (tick * disk))
  : M t Z :=
  (modify (set_running true) ;; run_loop ext fs env 0)%stage.

End ImageGenerator.

(* ===================================================================== *)
(** ** The command lines of the three stages *)
(* ===================================================================== *)

(** What the argument loop of a [main] has written, one entry per
    [<< std::endl]. *)
Record streams : Type := { cout : list string; cerr : list string }.

(** How the argument loop of a [main] ends: [main] returns [code], or goes
    on to construct the stage with the parameters [o]. *)
Inductive parsed (options : Type) : Type :=
| Return (code : Z) (out : streams)
| Proceed (o : options).
Arguments Return {options} code out.
Arguments Proceed {options} o.

(** A line break inside a string literal. *)
Definition nl : string := String (Ascii.ascii_of_nat 10) EmptyString.

(** [std::cerr << line << std::endl; return 1;] *)
Definition error_exit {options : Type} (line : string) : parsed options :=
  Return 1 {| cout := []; cerr := [line] |}.

(** apps/data_logger/main.cpp.  [stoi] is [std::stoi], [None] when it
    throws. *)
Module data_logger_main.

Record options : Type := {
  endpoint : string;
  database_path : string;
  timeout_ms : Z
}.

Definition defaults : options := {|
  endpoint := "tcp://localhost:5556";
  database_path := "./imaging_data.db";
  timeout_ms := 5000
|}.

Definition print_usage (program_name : string) : list string :=
  [ ("Usage: " ++ program_name ++ " [options]")%string;
    (nl ++ "Options:")%string;
    ("  --endpoint <endpoint>   Subscriber endpoint " ++
     "(default: tcp://localhost:5556)")%string;
    ("  --database <path>       Database file path " ++
     "(default: ./imaging_data.db)")%string;
    ("  --timeout <ms>          Receive timeout in milliseconds " ++
     "(default: 5000)")%string;
    "  --help                  Show this help message"%string;
    (nl ++ "Example:")%string;
    ("  " ++ program_name ++
     " --endpoint tcp://localhost:5556 --database ./data.db")%string ].

(** The [for] loop over [argv[1]] to [argv[argc - 1]], with the arguments
    not consumed yet. *)
Fixpoint parse (stoi : string -> option Z) (program_name : string)
    (args : list string) (o : options) : parsed options :=
  match args with
  | [] => Proceed o
  | arg :: rest =>
      if (arg =? "--help")%string || (arg =? "-h")%string
      then Return 0 {| cout := print_usage program_name; cerr := [] |}
      else if (arg =? "--endpoint")%string then
        match rest with
        | value :: rest =>
            parse stoi program_name rest
              {| endpoint := value;
                 database_path := database_path o;
                 timeout_ms := timeout_ms o |}
        | [] => error_exit "Error: --endpoint requires a value"
        end
      else if (arg =? "--database")%string then
        match rest with
        | value :: rest =>
            parse stoi program_name rest
              {| endpoint := endpoint o;
                 database_path := value;
                 timeout_ms := timeout_ms o |}
        | [] => error_exit "Error: --database requires a value"
        end
      else if (arg =? "--timeout")%string then
        match rest with
        | value :: rest =>
            match stoi value with
            | Some timeout_ms =>
                if timeout_ms <=? 0
                then error_exit "Error: timeout must be positive"
                else
                  parse stoi program_name rest
                    {| endpoint := endpoint o;
                       database_path := database_path o;
                       timeout_ms := timeout_ms |}
            | None => error_exit "Error: invalid timeout value"
            end
        | [] => error_exit "Error: --timeout requires a value"
        end
      else
        Return 1 {| cout := print_usage program_name;
                    cerr := [("Error: unknown argument: " ++ arg)%string] |}
  end.

(** The argument handling of [main], for [argv[0]] and the arguments after
    it. *)
Definition parse_arguments (stoi : string -> option Z)
    (program_name : string) (args : list string) : parsed options :=
  parse stoi program_name args defaults.

End data_logger_main.

(** apps/feature_extractor/main.cpp. *)
Module feature_extractor_main.

Record options : Type := {
  sub_endpoint : string;
  pub_endpoint : string;
  timeout_ms : Z
}.

Definition defaults : options := {|
  sub_endpoint := "tcp://localhost:5555";
  pub_endpoint := "tcp://*:5556";
  timeout_ms := 5000
|}.

Definition print_usage (program_name : string) : list string :=
  [ ("Usage: " ++ program_name ++ " [options]")%string;
    (nl ++ "Options:")%string;
    ("  --sub-endpoint <endpoint>   Subscriber endpoint " ++
     "(default: tcp://localhost:5555)")%string;
    ("  --pub-endpoint <endpoint>   Publisher endpoint " ++
     "(default: tcp://*:5556)")%string;
    ("  --timeout <ms>              Receive timeout in milliseconds " ++
     "(default: 5000)")%string;
    "  --help                      Show this help message"%string;
    (nl ++ "Example:")%string;
    ("  " ++ program_name ++
     " --sub-endpoint tcp://localhost:5555 --pub-endpoint tcp://*:5556")%string
  ].

Fixpoint parse (stoi : string -> option Z) (program_name : string)
    (args : list string) (o : options) : parsed options :=
  match args with
  | [] => Proceed o
  | arg :: rest =>
      if (arg =? "--help")%string || (arg =? "-h")%string
      then Return 0 {| cout := print_usage program_name; cerr := [] |}
      else if (arg =? "--sub-endpoint")%string then
        match rest with
        | value :: rest =>
            parse stoi program_name rest
              {| sub_endpoint := value;
                 pub_endpoint := pub_endpoint o;
                 timeout_ms := timeout_ms o |}
        | [] => error_exit "Error: --sub-endpoint requires a value"
        end
      else if (arg =? "--pub-endpoint")%string then
        match rest with
        | value :: rest =>
            parse stoi program_name rest
              {| sub_endpoint := sub_endpoint o;
                 pub_endpoint := value;
                 timeout_ms := timeout_ms o |}
        | [] => error_exit "Error: --pub-endpoint requires a value"
        end
      else if (arg =? "--timeout")%string then
        match rest with
        | value :: rest =>
            match stoi value with
            | Some timeout_ms =>
                if timeout_ms <=? 0
                then error_exit "Error: timeout must be positive"
                else
                  parse stoi program_name rest
                    {| sub_endpoint := sub_endpoint o;
                       pub_endpoint := pub_endpoint o;
                       timeout_ms := timeout_ms |}
            | None => error_exit "Error: invalid timeout value"
            end
        | [] => error_exit "Error: --timeout requires a value"
        end
      else
        Return 1 {| cout := print_usage program_name;
                    cerr := [("Error: unknown argument: " ++ arg)%string] |}
  end.

Definition parse_arguments (stoi : string -> option Z)
    (program_name : string) (args : list string) : parsed options :=
  parse stoi program_name args defaults.

End feature_extractor_main.

(** apps/image_generator/main.cpp. *)
Module image_generator_main.

Record options : Type := {
  image_folder : string;
  endpoint : string;
  delay_ms : Z
}.

Definition print_usage (program_name : string) : list string :=
  [ ("Usage: " ++ program_name ++ " <image_folder> [options]")%string;
    (nl ++ "Options:")%string;
    ("  --endpoint <endpoint>  Publisher endpoint " ++
     "(default: tcp://*:5555)")%string;
    ("  --delay <ms>           Delay between images in milliseconds " ++
     "(default: 100)")%string;
    "  --help                 Show this help message"%string;
    (nl ++ "Example:")%string;
    ("  " ++ program_name ++
     " /path/to/images --endpoint tcp://*:5555 --delay 200")%string ].

(** The [for] loop over [argv[2]] to [argv[argc - 1]]. *)
Fixpoint parse (stoi : string -> option Z) (program_name : string)
    (args : list string) (o : options) : parsed options :=
  match args with
  | [] => Proceed o
  | arg :: rest =>
      if (arg =? "--help")%string || (arg =? "-h")%string
      then Return 0 {| cout := print_usage program_name; cerr := [] |}
      else if (arg =? "--endpoint")%string then
        match rest with
        | value :: rest =>
            parse stoi program_name rest
              {| image_folder := image_folder o;
                 endpoint := value;
                 delay_ms := delay_ms o |}
        | [] => error_exit "Error: --endpoint requires a value"
        end
      else if (arg =? "--delay")%string then
        match rest with
        | value :: rest =>
            match stoi value with
            | Some delay_ms =>
                if delay_ms <? 0
                then error_exit "Error: delay must be non-negative"
                else
                  parse stoi program_name rest
                    {| image_folder := image_folder o;
                       endpoint := endpoint o;
                       delay_ms := delay_ms |}
            | None => error_exit "Error: invalid delay value"
            end
        | [] => error_exit "Error: --delay requires a value"
        end
      else
        Return 1 {| cout := print_usage program_name;
                    cerr := [("Error: unknown argument: " ++ arg)%string] |}
  end.

(** The argument handling of [main]: the image folder is required and comes
    first. *)
Definition parse_arguments (stoi : string -> option Z)
    (program_name : string) (args : list string) : parsed options :=
  match args with
  | [] =>
      Return 1 {| cout := print_usage program_name;
                  cerr := ["Error: Image folder path is required"%string] |}
  | folder :: rest =>
      parse stoi program_name rest
        {| image_folder := folder;
           endpoint := "tcp://*:5555";
           delay_ms := 100 |}
  end.

End image_generator_main.

(* ===================================================================== *)
(** ** src/common/ipc.cpp (namespace voyis): the publisher *)
(* ===================================================================== *)

Module ipc.

Record Publisher : Type := {
  connected_ : bool;
  socket_ : list (list byte);       (* what was handed to the socket *)
  cerr : list string
}.

(** [bool Publisher::publish(const std::vector<uint8_t>& data)]: the return
    value and the publisher afterwards.  Nothing in the function throws. *)
Definition publish (ext : Externals) (t : tick) (data : list byte)
    (pub : Publisher) : bool * Publisher :=
  if negb (connected_ pub) then (false, pub)
  else
    match send_errno t with
    | Some errno =>
        if errno =? zmq.EAGAIN
        then (false, pub)           (* Would block, queue is full *)
        else (false,
              {| connected_ := connected_ pub;
                 socket_ := socket_ pub;
                 cerr := cerr pub ++
                   [("Error publishing message: " ++
                     zmq_strerror ext errno)%string] |})
    | None =>
        (true,
         {| connected_ := connected_ pub;
            socket_ := socket_ pub ++ [data];
            cerr := cerr pub |})
    end.

End ipc.

(* ===================================================================== *)
(** ** image_generator.cpp: construction *)
(* ===================================================================== *)

(** What the constructor of [Publisher::Impl] meets in ZeroMQ. *)
Inductive zmq_setup : Type :=
| no_context                       (* [zmq_ctx_new] returns null *)
| no_socket                        (* [zmq_socket] returns null *)
| bind_fails (errno : Z)           (* [zmq_bind] returns non-zero *)
| bound.

(** [Publisher::Impl::Impl]: the outbound queue of the new socket. *)
Definition Publisher_Impl (ext : Externals) (zmq : zmq_setup)
    (endpoint : string) : result (list (list byte)) :=
  match zmq with
  | no_context => Throw (IPCError "Failed to create ZeroMQ context")
  | no_socket => Throw (IPCError "Failed to create publisher socket")
  | bind_fails errno =>
      Throw (IPCError ("Failed to bind publisher to " ++ endpoint ++ ": " ++
                       zmq_strerror ext errno)%string)
  | bound => Ok []
  end.

(** One entry of a [fs::directory_iterator]. *)
Record directory_entry : Type := {
  entry_path : string;
  is_regular_file : bool
}.

(** What the file system shows at [image_folder_]: nothing, something that
    is not a directory, or a directory with its entries; [failure] is the
    text of the [fs::filesystem_error] that interrupts the iteration, if one
    does. *)
Inductive folder : Type :=
| absent
| not_a_directory
| directory (entries : list directory_entry) (failure : option string).

(** Library functions the scan of the folder calls: [fs::path::extension]
    as a string, [::tolower] on one character, and [std::sort] on a vector
    of paths. *)
Record Library : Type := {
  path_extension : string -> string;
  tolower : Ascii.ascii -> Ascii.ascii;
  sort : list string -> list string
}.

(** [std::transform(s.begin(), s.end(), s.begin(), f)]. *)
Fixpoint transform (f : Ascii.ascii -> Ascii.ascii) (s : string) : string :=
  match s with
  | EmptyString => EmptyString
  | String c rest => String (f c) (transform f rest)
  end.

Module ImageGeneratorSetup.

(** Supported image extensions. *)
Definition extensions : list string :=
  [".jpg"; ".jpeg"; ".png"; ".bmp"; ".tiff"; ".tif"]%string.

(** The test of one directory entry in [load_image_paths]. *)
Definition is_image (lib : Library) (entry : directory_entry) : bool :=
  if is_regular_file entry
  then
    let ext := path_extension lib (entry_path entry) in
    let ext := transform (tolower lib) ext in
    existsb (String.eqb ext) extensions
  else false.

(** The loop of [load_image_paths]: [image_paths_] after the entries. *)
Fixpoint scan (lib : Library) (entries : list directory_entry)
    (image_paths_ : list string) : list string :=
  match entries with
  | [] => image_paths_
  | entry :: rest =>
      scan lib rest
        (if is_image lib entry
         then image_paths_ ++ [entry_path entry]
         else image_paths_)
  end.

(** [ImageGenerator::load_image_paths]: the new [image_paths_]. *)
Definition load_image_paths (lib : Library) (entries : list directory_entry)
    (failure : option string) : result (list string) :=
  match failure with
  | Some what_arg =>
      Throw (RuntimeError ("Error reading directory: " ++ what_arg)%string)
  | None => Ok (sort lib (scan lib entries []))
  end.

(** [ImageGenerator::ImageGenerator]. *)
Definition ImageGenerator (ext : Externals) (lib : Library)
    (status : folder) (zmq : zmq_setup)
    (image_folder publish_endpoint : string) : result ImageGenerator.t :=
  match status with
  | absent =>
      Throw (RuntimeError
               ("Image folder does not exist: " ++ image_folder)%string)
  | not_a_directory =>
      Throw (RuntimeError
               ("Path is not a directory: " ++ image_folder)%string)
  | directory entries failure =>
      match load_image_paths lib entries failure with
      | Ok [] =>
          Throw (RuntimeError
                   ("No images found in folder: " ++ image_folder)%string)
      | Ok image_paths =>
          match Publisher_Impl ext zmq publish_endpoint with
          | Ok publisher =>
              Ok {| ImageGenerator.image_paths_ := image_paths;
                    ImageGenerator.running_ := false;
                    ImageGenerator.images_sent_ := 0;
                    ImageGenerator.publisher_ := publisher;
                    ImageGenerator.cerr := [] |}
          | Throw e => Throw e
          | OutOfBounds => OutOfBounds
          end
      | Throw e => Throw e
      | OutOfBounds => OutOfBounds
      end
  end.

End ImageGeneratorSetup.

(* ===================================================================== *)
(** ** Notions used to state the properties *)
(* ===================================================================== *)

(** Values an [ImageData] can hold: each field fits its C++ type, the
    filename length fits the header's 32-bit field and the encoded message
    fits a [size_t]. *)
Definition valid_image (image : ImageData) : Prop :=
  0 <= img_width image < 2 ^ 32 /\
  0 <= img_height image < 2 ^ 32 /\
  0 <= img_channels image < 2 ^ 32 /\
  0 <= img_timestamp image < 2 ^ 64 /\
  string_size (filename image) < 2 ^ 32 /\
  64 + string_size (filename image) + size (data image) < 2 ^ 64.

(** The 64 bytes at the front of [bytes] are the members of [h], in
    declaration order, at offsets 0, 4, 8, 16, 24, 28, 32, 36 and 40. *)
Definition header_layout (bytes : list byte) (h : MessageHeader) : Prop :=
  member bytes 0 4 = le_split 4 (magic h) /\
  member bytes 4 4 = le_split 4 (type h) /\
  member bytes 8 8 = le_split 8 (payload_size h) /\
  member bytes 16 8 = le_split 8 (timestamp h) /\
  member bytes 24 4 = le_split 4 (width h) /\
  member bytes 28 4 = le_split 4 (height h) /\
  member bytes 32 4 = le_split 4 (channels h) /\
  member bytes 36 4 = le_split 4 (filename_length h) /\
  member bytes 40 24 = reserved h.

(** The structural violations of an encoded [ImageData]. *)
Definition frame_violation (data : list byte) : Prop :=
  let header := header_of_bytes (firstn 64 data) in
  size data < 64 \/
  magic header <> MESSAGE_MAGIC \/
  type header <> MessageType_value IMAGE \/
  payload_size header <> size data - 64 \/
  size data < 64 + filename_length header \/
  size data < 64 + filename_length header +
              wrap64 (payload_size header - filename_length header).

(** A decode result that is a value or a [SerializationError]. *)
Definition decoded_or_rejected {A : Type} (r : result A) : Prop :=
  (exists v, r = Ok v) \/ (exists msg, r = Throw (SerializationError msg)).

(** The outcomes of a member function from the states [P]: when it returns
    [a] in state [s], [Q a s]; when it throws [e] in state [s], [E e s]; and
    it does not read out of bounds. *)
Definition outcomes {S A : Type} (P : S -> Prop) (m : M S A)
    (Q : A -> S -> Prop) (E : exn -> S -> Prop) : Prop :=
  forall s, P s ->
    match m s with
    | (Ok a, s') => Q a s'
    | (Throw e, s') => E e s'
    | (OutOfBounds, _) => False
    end.

(** The statements [store_image_with_features] executes for [data] once the
    parent row has received the identifier [image_id]: the parent row, one
    row per keypoint, and the descriptor block when there is one. *)
Definition store_statements (image_id : Z) (data : ImageWithFeatures)
  : list sqlite.statement :=
  DataLogger.insert_image_stmt (image data) ::
  map (DataLogger.insert_keypoint_stmt image_id) (keypoints data) ++
  match descriptors data with
  | [] => []
  | ds => [DataLogger.insert_descriptors_stmt image_id ds]
  end.

Definition apply_statements (l : list sqlite.statement) (tb : sqlite.Tables)
  : sqlite.Tables :=
  fold_left (fun tb s => fst (sqlite.insert s tb)) l tb.

(** The tables [tb] with every row derived from [data] added. *)
Definition stored (data : ImageWithFeatures) (tb : sqlite.Tables)
  : sqlite.Tables :=
  apply_statements (store_statements (sqlite.images_seq tb + 1) data) tb.


(** [e] is a [DatabaseError]. *)
Definition is_DatabaseError (e : exn) : Prop :=
  exists msg, e = DatabaseError msg.

(** Since [st0], nothing of the logger has changed except the connection, and
    the committed tables are those of [st0]. *)
Definition nothing_committed (st0 st : DataLogger.t) : Prop :=
  DataLogger.running_ st = DataLogger.running_ st0 /\
  DataLogger.images_logged_ st = DataLogger.images_logged_ st0 /\
  DataLogger.keypoints_logged_ st = DataLogger.keypoints_logged_ st0 /\
  DataLogger.cerr st = DataLogger.cerr st0 /\
  sqlite.committed (DataLogger.db_ st) = sqlite.committed (DataLogger.db_ st0).

(** As [nothing_committed], inside an open transaction whose working copy
    is [w]. *)
Definition in_transaction (st0 : DataLogger.t) (w : sqlite.Tables)
    (st : DataLogger.t) : Prop :=
  nothing_committed st0 st /\ sqlite.txn (DataLogger.db_ st) = Some w.

(** Since [st0], every row derived from [data] has been committed and both
    counters have been advanced. *)
Definition all_committed (data : ImageWithFeatures) (st0 st : DataLogger.t)
  : Prop :=
  DataLogger.running_ st = DataLogger.running_ st0 /\
  DataLogger.cerr st = DataLogger.cerr st0 /\
  sqlite.committed (DataLogger.db_ st) =
    stored data (sqlite.committed (DataLogger.db_ st0)) /\
  sqlite.txn (DataLogger.db_ st) = None /\
  DataLogger.images_logged_ st =
    wrap64 (DataLogger.images_logged_ st0 + 1) /\
  DataLogger.keypoints_logged_ st =
    wrap64 (DataLogger.keypoints_logged_ st0 + size (keypoints data)).

(** The working copy of the transaction after each phase of
    [store_image_with_features], starting from the committed tables [c0]. *)
Definition with_image (data : ImageWithFeatures) (c0 : sqlite.Tables)
  : sqlite.Tables :=
  fst (sqlite.insert (DataLogger.insert_image_stmt (image data)) c0).

Definition with_keypoints (data : ImageWithFeatures) (c0 : sqlite.Tables)
  : sqlite.Tables :=
  apply_statements
    (map (DataLogger.insert_keypoint_stmt (sqlite.images_seq c0 + 1))
         (keypoints data))
    (with_image data c0).

Definition with_descriptors (data : ImageWithFeatures) (c0 : sqlite.Tables)
  : sqlite.Tables :=
  apply_statements
    (match descriptors data with
     | [] => []
     | ds => [DataLogger.insert_descriptors_stmt (sqlite.images_seq c0 + 1) ds]
     end)
    (with_keypoints data c0).

(** A failed store: a [DatabaseError], and nothing committed since [st0]. *)
Definition store_failed (st0 : DataLogger.t) (e : exn) (s : DataLogger.t)
  : Prop :=
  is_DatabaseError e /\ nothing_committed st0 s.

(** Since [st0], the transaction has been committed with the tables [w] and
    the counters have not been advanced yet. *)
Definition commit_done (st0 : DataLogger.t) (w : sqlite.Tables)
    (s : DataLogger.t) : Prop :=
  DataLogger.running_ s = DataLogger.running_ st0 /\
  DataLogger.images_logged_ s = DataLogger.images_logged_ st0 /\
  DataLogger.keypoints_logged_ s = DataLogger.keypoints_logged_ st0 /\
  DataLogger.cerr s = DataLogger.cerr st0 /\
  sqlite.committed (DataLogger.db_ s) = w /\
  sqlite.txn (DataLogger.db_ s) = None.

(** [c1] is [c0] with exactly the rows of [x] appended: one parent row
    carrying a fresh identifier, one keypoint row per keypoint and, when
    [x] has descriptors, one descriptor row, every child row referencing
    the parent's identifier. *)
Definition rows_added (x : ImageWithFeatures) (c0 c1 : sqlite.Tables)
  : Prop :=
  exists parent new_keypoints new_descriptors,
    sqlite.images c1 = sqlite.images c0 ++ [parent] /\
    sqlite.image_rowid parent = sqlite.images_seq c0 + 1 /\
    sqlite.row_image_data parent = data (image x) /\
    sqlite.keypoints c1 = sqlite.keypoints c0 ++ new_keypoints /\
    length new_keypoints = length (keypoints x) /\
    Forall (fun r => sqlite.kp_image_id r = sqlite.image_rowid parent)
           new_keypoints /\
    sqlite.descriptors c1 = sqlite.descriptors c0 ++ new_descriptors /\
    length new_descriptors =
      match descriptors x with [] => 0%nat | _ => 1%nat end /\
    Forall (fun r => sqlite.desc_image_id r = sqlite.image_rowid parent)
           new_descriptors.

(** Rows of the parent and keypoint tables that are committed. *)
Definition images_committed (st : DataLogger.t) : Z :=
  size (sqlite.images (sqlite.committed (DataLogger.db_ st))).

Definition keypoints_committed (st : DataLogger.t) : Z :=
  size (sqlite.keypoints (sqlite.committed (DataLogger.db_ st))).

(** Tables as SQLite keeps them: no table holds more rows than its sequence
    has handed out rowids, and no sequence has passed the largest rowid. *)
Definition well_formed (tb : sqlite.Tables) : Prop :=
  size (sqlite.images tb) <= sqlite.images_seq tb <= sqlite.MAX_ROWID /\
  size (sqlite.keypoints tb) <= sqlite.keypoints_seq tb <= sqlite.MAX_ROWID /\
  size (sqlite.descriptors tb) <= sqlite.descriptors_seq tb
    <= sqlite.MAX_ROWID.

(** A connection whose committed tables, and working copy if a transaction
    is open, are well formed. *)
Definition connection_ok (db : sqlite.sqlite3) : Prop :=
  well_formed (sqlite.committed db) /\
  match sqlite.txn db with
  | Some w => well_formed w
  | None => True
  end.

(** A member function that keeps a property of the state, whether it
    returns or throws. *)
Definition preserves {S A : Type} (P : S -> Prop) (m : M S A) : Prop :=
  outcomes P m (fun _ => P) (fun _ => P).

(** The state of a data logger between two iterations of its loop, for a
    database that held [i0] parent rows and [k0] keypoint rows when the
    logger was constructed: no transaction is open, and each counter is the
    number of rows committed to its table since then. *)
Definition logger_invariant (i0 k0 : Z) (st : DataLogger.t) : Prop :=
  sqlite.txn (DataLogger.db_ st) = None /\
  connection_ok (DataLogger.db_ st) /\
  0 <= i0 <= images_committed st /\
  0 <= k0 <= keypoints_committed st /\
  DataLogger.images_logged_ st = images_committed st - i0 /\
  DataLogger.keypoints_logged_ st = keypoints_committed st - k0.

(** Values a [float] and a [Keypoint] can hold. *)
Definition valid_float (f : float) : Prop := 0 <= float_bits f < 2 ^ 32.

Definition valid_keypoint (kp : Keypoint) : Prop :=
  valid_float (kp_x kp) /\ valid_float (kp_y kp) /\
  valid_float (kp_size kp) /\ valid_float (kp_angle kp) /\
  valid_float (kp_response kp) /\
  - 2 ^ 31 <= kp_octave kp < 2 ^ 31 /\
  - 2 ^ 31 <= kp_class_id kp < 2 ^ 31.

(** Values an [ImageWithFeatures] can hold, with counts that fit the 32-bit
    counts of the wire format. *)
Definition valid_image_with_features (x : ImageWithFeatures) : Prop :=
  valid_image (image x) /\
  size (keypoints x) < 2 ^ 32 /\
  size (descriptors x) < 2 ^ 32 /\
  Forall valid_keypoint (keypoints x) /\
  Forall valid_float (descriptors x).

(** The payload is raw pixels: its length is the product of the dimensions,
    computed as the decoder does in [uint32_t]. *)
Definition payload_is_raw_pixels (x : ImageWithFeatures) : Prop :=
  size (data (image x)) =
  wrap32 (wrap32 (img_width (image x) * img_height (image x)) *
          img_channels (image x)).

(* ===================================================================== *)
(** ** Sample values *)
(* ===================================================================== *)

(** A frame the image generator could publish. *)
Definition sample_image : ImageData := {|
  filename := "a.png";
  img_width := 0;
  img_height := 0;
  img_channels := 0;
  img_timestamp := 12345;
  data := [Byte.x89; Byte.x50; Byte.x4e; Byte.x47;
           Byte.x0d; Byte.x0a; Byte.x1a; Byte.x0a]
|}.

(** An id of [n] bytes. *)
Fixpoint id_of_length (n : nat) : string :=
  match n with
  | O => EmptyString
  | S n' => String (Ascii.ascii_of_nat 97) (id_of_length n')
  end.

(** A frame whose id is [2 ^ 32] bytes long, one more than the header's
    32-bit [filename_length] can say. *)
Definition oversized_image : ImageData := {|
  filename := id_of_length (Z.to_nat (2 ^ 32));
  img_width := 0;
  img_height := 0;
  img_channels := 0;
  img_timestamp := 12345;
  data := []
|}.

(** Collaborators for the examples: every image decodes to 640 x 480 x 3 and
    has no features. *)
Definition sample_ext : Externals := {|
  zmq_strerror := fun _ => "Resource temporarily unavailable"%string;
  imdecode := fun _ => {| rows := 480; cols := 640; mat_channels := 3 |};
  detectAndCompute := fun _ => inr ([], []);
  sqlite3_errmsg := fun _ => "error"%string
|}.

(** What the feature extractor publishes for [sample_image]: the encoded
    file bytes, with the dimensions of the decoded image. *)
Definition sample_enriched : ImageWithFeatures := {|
  image := {| filename := "a.png";
              img_width := 640;
              img_height := 480;
              img_channels := 3;
              img_timestamp := 12345;
              data := [Byte.x89; Byte.x50; Byte.x4e; Byte.x47;
                       Byte.x0d; Byte.x0a; Byte.x1a; Byte.x0a] |};
  keypoints := [];
  descriptors := []
|}.

(** An enriched frame whose payload is raw pixels, [width * height *
    channels] bytes, with one keypoint and two descriptor values. *)
Definition raw_enriched : ImageWithFeatures := {|
  image := {| filename := "b.raw";
              img_width := 2;
              img_height := 1;
              img_channels := 3;
              img_timestamp := 777;
              data := [Byte.x01; Byte.x02; Byte.x03;
                       Byte.x04; Byte.x05; Byte.x06] |};
  keypoints := [{| kp_x := F32 0x41200000; kp_y := F32 0x41a00000;
                   kp_size := F32 0x40a00000; kp_angle := F32 0;
                   kp_response := F32 0x3f800000;
                   kp_octave := 3; kp_class_id := -1 |}];
  descriptors := [F32 0x3f000000; F32 0x3e800000]
|}.

(** A header of the enriched kind that declares 100 payload bytes, followed
    by only the two zero counts. *)
Definition mismatched_header (kind : MessageType) : MessageHeader := {|
  magic := MESSAGE_MAGIC;
  type := MessageType_value kind;
  payload_size := 100;
  timestamp := 0;
  width := 0;
  height := 0;
  channels := 0;
  filename_length := 0;
  reserved := repeat Byte.x00 24
|}.

Definition mismatched_bytes (kind : MessageType) : list byte :=
  header_bytes (mismatched_header kind) ++ repeat Byte.x00 8.

(** Ticks: a receive timeout, a datagram that is not a message, an encoded
    frame and an encoded enriched frame. *)
Definition timeout_tick : tick := {|
  stop_requested := false; msg_init_rc := 0;
  recv := zmq.timeout; send_errno := None
|}.

Definition garbage_tick : tick := {|
  stop_requested := false; msg_init_rc := 0;
  recv := zmq.Message [Byte.x01; Byte.x02; Byte.x03]; send_errno := None
|}.

Definition frame_tick : tick := {|
  stop_requested := false; msg_init_rc := 0;
  recv := zmq.Message (Serializer.serialize_image sample_image);
  send_errno := None
|}.

Definition enriched_tick : tick := {|
  stop_requested := false; msg_init_rc := 0;
  recv := zmq.Message (Serializer.serialize_image_with_features raw_enriched);
  send_errno := None
|}.

Definition empty_tables : sqlite.Tables := {|
  sqlite.images := []; sqlite.keypoints := []; sqlite.descriptors := [];
  sqlite.images_seq := 0; sqlite.keypoints_seq := 0;
  sqlite.descriptors_seq := 0
|}.

(** A running data logger on an empty database, with the faults SQLite will
    report on its next fallible calls. *)
Definition sample_logger (faults : list sqlite.fault) : DataLogger.t := {|
  DataLogger.running_ := true;
  DataLogger.images_logged_ := 0;
  DataLogger.keypoints_logged_ := 0;
  DataLogger.db_ := {| sqlite.committed := empty_tables;
                       sqlite.txn := None;
                       sqlite.last_rowid := 0;
                       sqlite.faults := faults |};
  DataLogger.cerr := []
|}.

Definition sample_extractor : FeatureExtractor.t :=
  FeatureExtractor.set_running true FeatureExtractor.init.

(* ===================================================================== *)
(** ** Notions and sample values for the further properties *)
(* ===================================================================== *)

(** The structural violations of an encoded [ImageWithFeatures], as the
    decoder finds them: the offsets are those the decoder computes, from the
    header's filename length and dimensions and from the two counts it reads
    on the way.  The header's [payload_size] takes no part. *)
Definition enriched_violation (data : list byte) : Prop :=
  let header := header_of_bytes (firstn 64 data) in
  let o1 := 64 + filename_length header in
  let o2 :=
    o1 + wrap32 (wrap32 (width header * height header) * channels header) in
  let keypoint_count := le_combine (firstn 4 (skipn (Z.to_nat o2) data)) in
  let o3 := o2 + 4 + keypoint_count * 28 in
  let descriptor_count := le_combine (firstn 4 (skipn (Z.to_nat o3) data)) in
  size data < 64 \/
  magic header <> MESSAGE_MAGIC \/
  type header <> MessageType_value IMAGE_WITH_FEATURES \/
  size data < o2 + 4 \/
  size data < o3 + 4 + descriptor_count * 4.

(** [data] with the eight bytes of the header's [payload_size] member
    replaced by the representation of [p]. *)
Definition with_payload_size (p : Z) (data : list byte) : list byte :=
  firstn 8 data ++ le_split 8 p ++ skipn 16 data.

(** [data] with its first four bytes, the header's [magic] member, replaced
    by [m]. *)
Definition with_magic (m : list byte) (data : list byte) : list byte :=
  m ++ skipn 4 data.

(** An enriched frame that carries features and no payload bytes, and the
    tick that delivers it. *)
Definition features_only : ImageWithFeatures := {|
  image := {| filename := "c.raw";
              img_width := 0;
              img_height := 0;
              img_channels := 0;
              img_timestamp := 778;
              data := [] |};
  keypoints := keypoints raw_enriched;
  descriptors := descriptors raw_enriched
|}.

Definition features_only_tick : tick := {|
  stop_requested := false; msg_init_rc := 0;
  recv := zmq.Message (Serializer.serialize_image_with_features features_only);
  send_errno := None
|}.

(** *** What a store writes *)

(** The rows written for the keypoints [kps] of the image [image_id], in
    order, the first with the rowid [next]. *)
Fixpoint keypoint_rows (image_id next : Z) (kps : list Keypoint)
  : list sqlite.KeypointRow :=
  match kps with
  | [] => []
  | kp :: rest =>
      {| sqlite.keypoint_rowid := next;
         sqlite.kp_image_id := image_id;
         sqlite.row_x := kp_x kp;
         sqlite.row_y := kp_y kp;
         sqlite.row_size := kp_size kp;
         sqlite.row_angle := kp_angle kp;
         sqlite.row_response := kp_response kp;
         sqlite.row_octave := kp_octave kp;
         sqlite.row_class_id := kp_class_id kp |}
      :: keypoint_rows image_id (next + 1) rest
  end.

(** No NUL character in [s]. *)
Definition NUL_free (s : string) : Prop :=
  Forall (fun c => c <> Ascii.zero) (list_ascii_of_string s).

(** An image whose fields fit the signed types they are bound as: [int]
    for the dimensions and the payload size, [sqlite3_int64] for the
    timestamp, a C string for the filename. *)
Definition fits_columns (image : ImageData) : Prop :=
  NUL_free (filename image) /\
  0 <= img_timestamp image < 2 ^ 63 /\
  0 <= img_width image < 2 ^ 31 /\
  0 <= img_height image < 2 ^ 31 /\
  0 <= img_channels image < 2 ^ 31 /\
  size (data image) < 2 ^ 31.

(** *** Notions used to state the properties of message.cpp *)

(** Values an [ImageMessage] can hold, with lengths that fit the 32-bit
    length prefixes of the wire format. *)
Definition valid_ImageMessage (m : message.ImageMessage.t) : Prop :=
  string_size (message.ImageMessage.image_id m) < 2 ^ 32 /\
  size (message.ImageMessage.image_data m) < 2 ^ 32 /\
  string_size (message.ImageMessage.format m) < 2 ^ 32 /\
  - 2 ^ 31 <= message.ImageMessage.width m < 2 ^ 31 /\
  - 2 ^ 31 <= message.ImageMessage.height m < 2 ^ 31 /\
  - 2 ^ 63 <= message.ImageMessage.timestamp m < 2 ^ 63.

Definition valid_KeyPoint (kp : message.KeyPoint) : Prop :=
  valid_float (message.x (message.pt kp)) /\
  valid_float (message.y (message.pt kp)) /\
  valid_float (message.size_ kp) /\
  valid_float (message.angle kp) /\
  valid_float (message.response kp) /\
  - 2 ^ 31 <= message.octave kp < 2 ^ 31.

(** The image part of a processed message. *)
Definition as_ImageMessage (m : message.ProcessedImageMessage.t)
  : message.ImageMessage.t := {|
  message.ImageMessage.image_id := message.ProcessedImageMessage.image_id m;
  message.ImageMessage.image_data :=
    message.ProcessedImageMessage.image_data m;
  message.ImageMessage.format := message.ProcessedImageMessage.format m;
  message.ImageMessage.width := message.ProcessedImageMessage.width m;
  message.ImageMessage.height := message.ProcessedImageMessage.height m;
  message.ImageMessage.timestamp := message.ProcessedImageMessage.timestamp m
|}.

Definition valid_ProcessedImageMessage (m : message.ProcessedImageMessage.t)
  : Prop :=
  valid_ImageMessage (as_ImageMessage m) /\
  - 2 ^ 63 <= message.ProcessedImageMessage.processed_timestamp m < 2 ^ 63 /\
  size (message.ProcessedImageMessage.keypoints m) < 2 ^ 32 /\
  Forall valid_KeyPoint (message.ProcessedImageMessage.keypoints m) /\
  size (message.ProcessedImageMessage.descriptors m) < 2 ^ 32 /\
  Forall (fun desc => size desc < 2 ^ 32 /\ Forall valid_float desc)
         (message.ProcessedImageMessage.descriptors m).

(** The sizes, in bytes, of the [reserve] requests that decoding the
    encoding of [m] makes. *)
Definition requests (m : message.ProcessedImageMessage.t) : list Z :=
  size (message.ProcessedImageMessage.keypoints m) * message.sizeof_KeyPoint
  :: size (message.ProcessedImageMessage.descriptors m) *
     message.sizeof_vector
  :: map (fun desc : list float => size desc * 4)
         (message.ProcessedImageMessage.descriptors m).

(** The cursor of a decoder that has read [before] and has [rest] ahead. *)
Definition cursor_at (before rest : list byte) : message.cursor :=
  {| message.ptr := size before; message.remaining := size rest |}.

(** [r] decodes [enc] to [v], wherever [enc] stands in a buffer: started at
    [enc], it returns [v] and stops right after [enc]. *)
Definition decodes {A : Type} (r : message.Reader A) (enc : list byte)
    (v : A) : Prop :=
  forall before after,
    r (before ++ enc ++ after) (cursor_at before (enc ++ after)) =
    message.Returns v (cursor_at (before ++ enc) after).

(** A cursor that lies within [buffer]: the read pointer is [remaining]
    bytes from the end. *)
Definition within (buffer : list byte) (c : message.cursor) : Prop :=
  0 <= message.ptr c /\ 0 <= message.remaining c /\
  message.ptr c + message.remaining c = size buffer.

(** The cursor [c] when [n] more bytes follow the buffer. *)
Definition extended (n : Z) (c : message.cursor) : message.cursor :=
  {| message.ptr := message.ptr c;
     message.remaining := message.remaining c + n |}.

(** The allocator refuses a [reserve] whose size was read from [buffer]:
    the request is for as many elements as the 32-bit count that stands at
    [offset] in the buffer says, and the elements are those of one of the
    three vectors the decoder reserves for (keypoints, descriptors, the
    floats of one descriptor). *)
Definition refused (alloc : Z -> bool) (buffer : list byte) : Prop :=
  exists (offset : nat) (element_size : Z),
    (offset + 4 <= length buffer)%nat /\
    In element_size [message.sizeof_KeyPoint; message.sizeof_vector; 4] /\
    let count := le_combine (member buffer offset 4) in
    count <> 0 /\ alloc (count * element_size) = false.

(** [r] reads safely: from a cursor within the buffer it never reads outside
    the buffer; when it returns, the cursor has moved forward within the
    buffer and the same value is returned when more bytes follow the
    buffer; and it throws [bad_alloc] only if [alloc] refuses a [reserve]
    whose size was read from the buffer. *)
Definition reads_safely {A : Type} (alloc : Z -> bool)
    (r : message.Reader A) : Prop :=
  forall buffer c,
    within buffer c ->
    match r buffer c with
    | message.Returns a c' =>
        within buffer c' /\ message.ptr c <= message.ptr c' /\
        forall extra,
          r (buffer ++ extra) (extended (size extra) c) =
          message.Returns a (extended (size extra) c')
    | message.Throws e => e = message.bad_alloc -> refused alloc buffer
    | message.Overrun => False
    end.

(** *** Sample messages *)

Definition sample_message : message.ImageMessage.t := {|
  message.ImageMessage.image_id := "a.png_0";
  message.ImageMessage.image_data := [Byte.x89; Byte.x50; Byte.x4e; Byte.x47];
  message.ImageMessage.format := "png";
  message.ImageMessage.width := 0;
  message.ImageMessage.height := 0;
  message.ImageMessage.timestamp := 1700000000000
|}.

Definition sample_processed : message.ProcessedImageMessage.t := {|
  message.ProcessedImageMessage.image_id := "a.png_0";
  message.ProcessedImageMessage.image_data :=
    [Byte.x89; Byte.x50; Byte.x4e; Byte.x47];
  message.ProcessedImageMessage.format := "png";
  message.ProcessedImageMessage.width := 640;
  message.ProcessedImageMessage.height := 480;
  message.ProcessedImageMessage.timestamp := 1700000000000;
  message.ProcessedImageMessage.processed_timestamp := 1700000000042;
  message.ProcessedImageMessage.keypoints :=
    [{| message.pt := {| message.x := F32 0x41200000;
                         message.y := F32 0x41a00000 |};
        message.size_ := F32 0x40a00000;
        message.angle := F32 0xbf800000;
        message.response := F32 0x3f800000;
        message.octave := -1 |}];
  message.ProcessedImageMessage.descriptors :=
    [[F32 0x3f000000; F32 0x3e800000]; []]
|}.

(** A frame as [load_image_file] builds it: the dimensions are left at
    zero for the feature extractor to fill in. *)
Definition unmeasured (image : ImageData) : Prop :=
  img_width image = 0 /\ img_height image = 0 /\ img_channels image = 0.

(** Sample collaborators and a generator over two files. *)
Definition sample_paths : Paths := {|
  path_filename := fun p => p;
  path_quoted := fun p => p
|}.

Definition sample_generator : ImageGenerator.t := {|
  ImageGenerator.image_paths_ := ["a.png"; "b.png"]%string;
  ImageGenerator.running_ := true;
  ImageGenerator.images_sent_ := 0;
  ImageGenerator.publisher_ := [];
  ImageGenerator.cerr := []
|}.

(** Three iterations of the generator's loop: a file, a file that cannot be
    opened, a file. *)
Definition sample_disk : list (tick * disk) :=
  [ (timeout_tick, holds [Byte.x89; Byte.x50] 1700000000000);
    (timeout_tick, cannot_open);
    (timeout_tick, holds [Byte.x4e; Byte.x47] 1700000000100) ].

(** A [std::stoi] for the examples: it knows two strings. *)
Definition sample_stoi (s : string) : option Z :=
  if (s =? "250")%string then Some 250
  else if (s =? "-5")%string then Some (-5)
  else None.

(** A [main] that returns from its argument loop returns 0 after printing
    the usage text for a help flag it met, or 1 after an error line. *)
Definition help_or_error (usage : list string) (args : list string)
    (code : Z) (out : streams) : Prop :=
  (code = 0 /\ cout out = usage /\ cerr out = [] /\
   (In "--help"%string args \/ In "-h"%string args)) \/
  (code = 1 /\ exists line, cerr out = [line]).

(** A connected publisher and a connected subscriber of the older
    transport, and the tick that delivers the encoding of [sample_message]. *)
Definition sample_publisher : ipc.Publisher := {|
  ipc.connected_ := true; ipc.socket_ := []; ipc.cerr := []
|}.

Definition sample_subscriber : voyis.Subscriber := {|
  voyis.connected_ := true; voyis.cerr := []
|}.

Definition message_tick : tick := {|
  stop_requested := false; msg_init_rc := 0;
  recv := zmq.Message (message.ImageMessage.serialize sample_message);
  send_errno := None
|}.

(** [std::sort] keeps the elements of the vector it sorts. *)
Definition keeps_elements (sort : list string -> list string) : Prop :=
  forall l p, In p (sort l) <-> In p l.

(** The entries of a folder whose paths the generator takes up. *)
Definition taken_up (lib : Library) (entries : list directory_entry)
    (image_path : string) : Prop :=
  exists entry,
    In entry entries /\ entry_path entry = image_path /\
    is_regular_file entry = true /\
    In (transform (tolower lib) (path_extension lib image_path))
       ImageGeneratorSetup.extensions.

(** A library for the samples: ASCII [tolower], the extension from the last
    dot on, and a sort that finds the vector in order. *)
Definition ascii_tolower (c : Ascii.ascii) : Ascii.ascii :=
  let n := Ascii.nat_of_ascii c in
  if ((65 <=? n) && (n <=? 90))%nat then Ascii.ascii_of_nat (n + 32) else c.

Fixpoint from_last_dot (s : string) (found : string) : string :=
  match s with
  | EmptyString => found
  | String c rest =>
      from_last_dot rest
        (if Ascii.eqb c (Ascii.ascii_of_nat 46) then s else found)
  end.

Definition sample_library : Library := {|
  path_extension := fun p => from_last_dot p EmptyString;
  tolower := ascii_tolower;
  sort := fun l => l
|}.

Definition sample_folder : folder :=
  directory
    [ {| entry_path := "images/a.PNG"; is_regular_file := true |};
      {| entry_path := "images/notes.txt"; is_regular_file := true |};
      {| entry_path := "images/old.jpg"; is_regular_file := false |};
      {| entry_path := "images/b.jpeg"; is_regular_file := true |} ]
    None.

(** The inputs a running loop gets to: those before the first stop
    request. *)
Fixpoint before_stop (env : list tick) : list tick :=
  match env with
  | [] => []
  | tk :: rest => if stop_requested tk then [] else tk :: before_stop rest
  end.

(** The enriched frame the feature extractor makes of the input [tk]: none
    on a timeout, on a message that does not decode, on an empty payload and
    on an image that cannot be decoded or analysed. *)
Definition transformed (ext : Externals) (tk : tick)
  : option ImageWithFeatures :=
  match Subscriber.receive_image ext tk with
  | Ok image =>
      if empty image then None
      else
        match FeatureExtractor.process_image ext image with
        | Ok result => Some result
        | _ => None
        end
  | _ => None
  end.

(** The enriched frames made of the inputs [env], in order, and the
    encodings of those whose send succeeds. *)
Definition processed (ext : Externals) (env : list tick)
  : list ImageWithFeatures :=
  flat_map (fun tk => match transformed ext tk with
                      | Some result => [result]
                      | None => []
                      end) env.

Definition published (ext : Externals) (env : list tick)
  : list (list byte) :=
  flat_map (fun tk => match transformed ext tk, send_errno tk with
                      | Some result, None =>
                          [Serializer.serialize_image_with_features result]
                      | _, _ => []
                      end) env.

(* ===================================================================== *)
(** * Properties *)
(* ===================================================================== *)

(** ** Arithmetic and buffers *)

Lemma wrap32_small z : 0 <= z < 2 ^ 32 -> wrap32 z = z.
Proof. intros H. unfold wrap32. apply Z.mod_small. exact H. Qed.

Lemma wrap64_small z : 0 <= z < 2 ^ 64 -> wrap64 z = z.
Proof. intros H. unfold wrap64. apply Z.mod_small. exact H. Qed.

Lemma wrap32_range z : 0 <= wrap32 z < 2 ^ 32.
Proof. unfold wrap32. apply Z.mod_pos_bound. lia. Qed.

Lemma wrap64_range z : 0 <= wrap64 z < 2 ^ 64.
Proof. unfold wrap64. apply Z.mod_pos_bound. lia. Qed.

Lemma size_nonneg {A : Type} (v : list A) : 0 <= size v.
Proof. unfold size. lia. Qed.

Lemma size_app {A : Type} (u v : list A) : size (u ++ v) = size u + size v.
Proof. unfold size. rewrite length_app. lia. Qed.

Lemma size_nil {A : Type} : size (@nil A) = 0.
Proof. reflexivity. Qed.

Lemma gtb_false_le a b : (a >? b) = false -> a <= b.
Proof. rewrite Z.gtb_ltb. intros H. apply Z.ltb_ge in H. exact H. Qed.

Lemma gtb_true_gt a b : (a >? b) = true -> b < a.
Proof. rewrite Z.gtb_ltb. intros H. apply Z.ltb_lt in H. exact H. Qed.

Lemma bytes_at_in_bounds buffer offset n :
  0 <= offset -> 0 <= n -> offset + n <= size buffer ->
  bytes_at buffer offset n =
  Ok (firstn (Z.to_nat n) (skipn (Z.to_nat offset) buffer)).
Proof.
  intros Ho Hn Hs. unfold bytes_at.
  apply Z.leb_le in Ho, Hn, Hs. rewrite Ho, Hn, Hs. reflexivity.
Qed.

Lemma bytes_at_out_of_bounds buffer offset n :
  size buffer < offset + n -> bytes_at buffer offset n = OutOfBounds.
Proof.
  intros H. unfold bytes_at.
  apply Z.leb_gt in H. rewrite H, andb_false_r. reflexivity.
Qed.

Lemma length_member_le bs off n : (length (member bs off n) <= n)%nat.
Proof. unfold member. rewrite length_firstn. lia. Qed.

Lemma le_combine_range (l : list byte) (n : nat) :
  (length l <= n)%nat -> 0 <= le_combine l < 2 ^ (8 * Z.of_nat n).
Proof.
  intros H. pose proof (le_combine_bound l) as [H0 H1]. split; [exact H0|].
  eapply Z.lt_le_trans; [exact H1|].
  apply Z.pow_le_mono_r; lia.
Qed.

Lemma member_range bs off n :
  0 <= le_combine (member bs off n) < 2 ^ (8 * Z.of_nat n).
Proof. apply le_combine_range, length_member_le. Qed.

(** Every field of a header copied out of a buffer fits its C++ type. *)
Lemma header_of_bytes_range bs :
  let h := header_of_bytes bs in
  0 <= magic h < 2 ^ 32 /\ 0 <= type h < 2 ^ 32 /\
  0 <= payload_size h < 2 ^ 64 /\ 0 <= timestamp h < 2 ^ 64 /\
  0 <= width h < 2 ^ 32 /\ 0 <= height h < 2 ^ 32 /\
  0 <= channels h < 2 ^ 32 /\ 0 <= filename_length h < 2 ^ 32.
Proof.
  cbn [header_of_bytes magic type payload_size timestamp width height
       channels filename_length].
  repeat split;
    try apply (member_range bs _ 4); try apply (member_range bs _ 8).
Qed.

Lemma length_header_bytes h : length (header_bytes h) = 64%nat.
Proof.
  unfold header_bytes.
  rewrite !length_app, !length_le_split, length_firstn, length_app,
    repeat_length.
  lia.
Qed.

Lemma size_header_bytes h : size (header_bytes h) = 64.
Proof. unfold size. rewrite length_header_bytes. reflexivity. Qed.

Lemma length_list_byte_of_string s :
  length (list_byte_of_string s) = String.length s.
Proof.
  induction s as [|c s IH]; [reflexivity|].
  cbn [list_byte_of_string String.length length].
  change (list_byte_of_string (String c s))
    with (Ascii.byte_of_ascii c :: list_byte_of_string s).
  cbn [length]. rewrite IH. reflexivity.
Qed.

Lemma size_list_byte_of_string s :
  size (list_byte_of_string s) = string_size s.
Proof.
  unfold size, string_size. rewrite length_list_byte_of_string. reflexivity.
Qed.

Lemma wrap64_header_plus z :
  0 <= z < 2 ^ 32 -> wrap64 (sizeof_MessageHeader + z) = 64 + z.
Proof. intros H. unfold sizeof_MessageHeader. apply wrap64_small. lia. Qed.

(** When the declared total matches the buffer, the sum did not wrap. *)
Lemma expected_size_exact n ps :
  64 <= n -> 0 <= ps < 2 ^ 64 -> n = wrap64 (64 + ps) -> n = 64 + ps.
Proof.
  intros Hn Hps ->. unfold wrap64 in *.
  destruct (Z_lt_ge_dec (64 + ps) (2 ^ 64)) as [Hlt|Hge].
  - rewrite Z.mod_small by lia. reflexivity.
  - exfalso. revert Hn.
    replace (64 + ps) with ((64 + ps - 2 ^ 64) + 1 * 2 ^ 64) by ring.
    rewrite Z.mod_add by lia. rewrite Z.mod_small by lia. lia.
Qed.

Lemma firstn_skipn_all {A : Type} (l : list A) (off : Z) :
  0 <= off <= size l ->
  firstn (Z.to_nat (size l - off)) (skipn (Z.to_nat off) l) =
  skipn (Z.to_nat off) l.
Proof.
  intros H. apply firstn_all2. rewrite length_skipn. unfold size in *. lia.
Qed.

(** [deserialize_image] on a buffer that holds a header, with the bounds
    checks of its reads discharged. *)
Lemma deserialize_image_unfold data :
  64 <= size data ->
  let header := header_of_bytes (firstn 64 data) in
  Serializer.deserialize_image data =
  if negb (magic header =? MESSAGE_MAGIC)
  then Throw (SerializationError "Invalid magic number in header")
  else if negb (type header =? MessageType_value IMAGE)
  then Throw (SerializationError "Expected IMAGE message type")
  else if negb (size data =? wrap64 (64 + payload_size header))
  then Throw (SerializationError "Data size mismatch")
  else if 64 + filename_length header >? size data
  then Throw (SerializationError "Invalid filename length")
  else Ok {| filename :=
               string_of_list_byte
                 (firstn (Z.to_nat (filename_length header)) (skipn 64 data));
             img_width := width header;
             img_height := height header;
             img_channels := channels header;
             img_timestamp := timestamp header;
             data := skipn (Z.to_nat (64 + filename_length header)) data |}.
Proof.
  intros Hsz header.
  pose proof (header_of_bytes_range (firstn 64 data)) as R.
  cbv zeta in R. fold header in R.
  destruct R as (_ & _ & Rps & _ & _ & _ & _ & Rfl).
  unfold Serializer.deserialize_image.
  replace (size data <? sizeof_MessageHeader) with false
    by (symmetry; apply Z.ltb_ge; exact Hsz).
  rewrite bytes_at_in_bounds by (unfold sizeof_MessageHeader; lia).
  cbn [bind]. change (Z.to_nat sizeof_MessageHeader) with 64%nat.
  change (Z.to_nat 0) with 0%nat. rewrite skipn_O. fold header.
  destruct (negb (magic header =? MESSAGE_MAGIC)); [reflexivity|].
  destruct (negb (type header =? MessageType_value IMAGE)); [reflexivity|].
  change (sizeof_MessageHeader + payload_size header)
    with (64 + payload_size header).
  destruct (size data =? wrap64 (64 + payload_size header)) eqn:Eexp;
    [|reflexivity].
  cbn [negb]. apply Z.eqb_eq in Eexp.
  assert (Hlt : size data < 2 ^ 64)
    by (rewrite Eexp; apply wrap64_range).
  apply expected_size_exact in Eexp; [|lia|lia].
  rewrite wrap64_header_plus by exact Rfl.
  destruct (64 + filename_length header >? size data) eqn:Efl; [reflexivity|].
  apply gtb_false_le in Efl.
  rewrite bytes_at_in_bounds by (unfold sizeof_MessageHeader; lia).
  cbn [bind].
  replace (wrap64 (payload_size header - filename_length header))
    with (payload_size header - filename_length header)
    by (symmetry; apply wrap64_small; lia).
  replace (64 + filename_length header +
           (payload_size header - filename_length header))
    with (64 + payload_size header) by ring.
  rewrite <- Eexp. rewrite wrap64_small by lia.
  rewrite Z.eqb_refl. cbn [negb].
  rewrite bytes_at_in_bounds by lia. cbn [bind].
  rewrite firstn_skipn_all by lia.
  reflexivity.
Qed.

Lemma read_from_buffer_checked {T : Type} `{Pod T} buffer offset :
  0 <= offset -> offset + Z.of_nat sizeof < 2 ^ 64 ->
  Serializer.read_from_buffer buffer offset =
  if offset + Z.of_nat sizeof >? size buffer
  then Throw (SerializationError "Buffer underflow: not enough data to read")
  else Ok (of_bytes (firstn sizeof (skipn (Z.to_nat offset) buffer)),
           offset + Z.of_nat sizeof).
Proof.
  intros Ho Hlt. unfold Serializer.read_from_buffer.
  rewrite wrap64_small by lia.
  destruct (offset + Z.of_nat sizeof >? size buffer) eqn:E; [reflexivity|].
  apply gtb_false_le in E.
  rewrite bytes_at_in_bounds by lia. cbn [bind].
  rewrite Nat2Z.id. reflexivity.
Qed.

Lemma read_vector_from_buffer_checked {T : Type} `{Pod T} buffer offset count :
  0 <= offset -> 0 <= count ->
  offset + count * Z.of_nat sizeof < 2 ^ 64 ->
  Serializer.read_vector_from_buffer buffer offset count =
  if offset + count * Z.of_nat sizeof >? size buffer
  then Throw (SerializationError
                "Buffer underflow: not enough data for vector")
  else Ok (objects_of_bytes (Z.to_nat count)
             (firstn (Z.to_nat (count * Z.of_nat sizeof))
                     (skipn (Z.to_nat offset) buffer)),
           offset + count * Z.of_nat sizeof).
Proof.
  intros Ho Hc Hlt. unfold Serializer.read_vector_from_buffer.
  cbv zeta.
  assert (Hn : 0 <= count * Z.of_nat sizeof)
    by (apply Z.mul_nonneg_nonneg; lia).
  rewrite (wrap64_small (count * Z.of_nat sizeof)) by lia.
  rewrite wrap64_small by lia.
  destruct (offset + count * Z.of_nat sizeof >? size buffer) eqn:E;
    [reflexivity|].
  apply gtb_false_le in E.
  rewrite bytes_at_in_bounds by lia. reflexivity.
Qed.

(** [deserialize_image_with_features] on a buffer that holds a header, with
    the bounds checks of its reads discharged: the offsets stay far below
    [2 ^ 64], so none of the sums wraps. *)
Lemma deserialize_image_with_features_unfold data :
  64 <= size data ->
  let header := header_of_bytes (firstn 64 data) in
  let o1 := 64 + filename_length header in
  let image_data_size :=
    wrap32 (wrap32 (width header * height header) * channels header) in
  let o2 := o1 + image_data_size in
  let keypoint_count := le_combine (firstn 4 (skipn (Z.to_nat o2) data)) in
  let o3 := o2 + 4 + keypoint_count * 28 in
  let descriptor_count := le_combine (firstn 4 (skipn (Z.to_nat o3) data)) in
  Serializer.deserialize_image_with_features data =
  if negb (magic header =? MESSAGE_MAGIC)
  then Throw (SerializationError "Invalid magic number in header")
  else if negb (type header =? MessageType_value IMAGE_WITH_FEATURES)
  then Throw (SerializationError "Expected IMAGE_WITH_FEATURES message type")
  else if o1 >? size data
  then Throw (SerializationError "Invalid filename length")
  else if o2 >? size data
  then Throw (SerializationError "Invalid image data size")
  else if o2 + 4 >? size data
  then Throw (SerializationError "Buffer underflow: not enough data to read")
  else if o3 >? size data
  then Throw (SerializationError
                "Buffer underflow: not enough data for vector")
  else if o3 + 4 >? size data
  then Throw (SerializationError "Buffer underflow: not enough data to read")
  else if o3 + 4 + descriptor_count * 4 >? size data
  then Throw (SerializationError
                "Buffer underflow: not enough data for vector")
  else Ok {| image :=
               {| filename :=
                    string_of_list_byte
                      (firstn (Z.to_nat (filename_length header))
                              (skipn 64 data));
                  img_width := width header;
                  img_height := height header;
                  img_channels := channels header;
                  img_timestamp := timestamp header;
                  data := firstn (Z.to_nat image_data_size)
                                 (skipn (Z.to_nat o1) data) |};
             keypoints :=
               objects_of_bytes (Z.to_nat keypoint_count)
                 (firstn (Z.to_nat (keypoint_count * 28))
                         (skipn (Z.to_nat (o2 + 4)) data));
             descriptors :=
               objects_of_bytes (Z.to_nat descriptor_count)
                 (firstn (Z.to_nat (descriptor_count * 4))
                         (skipn (Z.to_nat (o3 + 4)) data)) |}.
Proof.
  intros Hsz header o1 ids o2 kc o3 dc.
  pose proof (header_of_bytes_range (firstn 64 data)) as R.
  cbv zeta in R. fold header in R.
  destruct R as (_ & _ & _ & _ & _ & _ & _ & Rfl).
  pose proof (wrap32_range (wrap32 (width header * height header) *
                            channels header)) as Rids. fold ids in Rids.
  assert (Rkc : 0 <= kc < 2 ^ 32)
    by (apply (le_combine_range _ 4); rewrite length_firstn; lia).
  assert (Rdc : 0 <= dc < 2 ^ 32)
    by (apply (le_combine_range _ 4); rewrite length_firstn; lia).
  unfold Serializer.deserialize_image_with_features.
  replace (size data <? sizeof_MessageHeader) with false
    by (symmetry; apply Z.ltb_ge; exact Hsz).
  rewrite bytes_at_in_bounds by (unfold sizeof_MessageHeader; lia).
  cbn [bind]. change (Z.to_nat sizeof_MessageHeader) with 64%nat.
  change (Z.to_nat 0) with 0%nat. rewrite skipn_O. fold header.
  destruct (negb (magic header =? MESSAGE_MAGIC)); [reflexivity|].
  destruct (negb (type header =? MessageType_value IMAGE_WITH_FEATURES));
    [reflexivity|].
  rewrite wrap64_header_plus by exact Rfl. fold o1.
  destruct (o1 >? size data) eqn:E1; [reflexivity|].
  apply gtb_false_le in E1.
  rewrite bytes_at_in_bounds by (unfold sizeof_MessageHeader, o1 in *; lia).
  cbn [bind]. fold ids.
  rewrite (wrap64_small (o1 + ids)) by (unfold o1; lia). fold o2.
  destruct (o2 >? size data) eqn:E2; [reflexivity|].
  apply gtb_false_le in E2.
  rewrite bytes_at_in_bounds by (unfold o2, o1 in *; lia).
  cbn [bind].
  rewrite read_from_buffer_checked
    by (cbn [sizeof Pod_uint32]; unfold o2, o1; lia).
  cbn [sizeof Pod_uint32 of_bytes]. change (Z.of_nat 4) with 4.
  destruct (o2 + 4 >? size data) eqn:E3; [reflexivity|].
  apply gtb_false_le in E3.
  cbn [bind u32]. rewrite firstn_firstn. change (Init.Nat.min 4 4) with 4%nat.
  fold kc.
  assert (Eo3 : (if kc >? 0
                 then (Serializer.read_vector_from_buffer data (o2 + 4) kc
                       : result (list Keypoint * Z))
                 else Ok ([], o2 + 4)) =
                if o3 >? size data
                then Throw (SerializationError
                              "Buffer underflow: not enough data for vector")
                else Ok (objects_of_bytes (Z.to_nat kc)
                           (firstn (Z.to_nat (kc * 28))
                                   (skipn (Z.to_nat (o2 + 4)) data)), o3)).
  { destruct (kc >? 0) eqn:Ek.
    - rewrite read_vector_from_buffer_checked
        by (cbn [sizeof Pod_Keypoint]; unfold o2, o1; lia).
      cbn [sizeof Pod_Keypoint]. change (Z.of_nat 28) with 28. reflexivity.
    - apply gtb_false_le in Ek. assert (kc = 0) as Hk0 by lia.
      unfold o3. rewrite Hk0. cbn [Z.mul]. rewrite Z.add_0_r.
      replace (o2 + 4 >? size data) with false
        by (symmetry; rewrite Z.gtb_ltb; apply Z.ltb_ge; lia).
      reflexivity. }
  rewrite Eo3. clear Eo3.
  destruct (o3 >? size data) eqn:E4; [reflexivity|].
  apply gtb_false_le in E4. cbn [bind].
  rewrite read_from_buffer_checked
    by (cbn [sizeof Pod_uint32]; unfold o3, o2, o1; lia).
  cbn [sizeof Pod_uint32 of_bytes]. change (Z.of_nat 4) with 4.
  destruct (o3 + 4 >? size data) eqn:E5; [reflexivity|].
  apply gtb_false_le in E5.
  cbn [bind u32]. rewrite firstn_firstn. change (Init.Nat.min 4 4) with 4%nat.
  fold dc.
  destruct (dc >? 0) eqn:Ed.
  - rewrite read_vector_from_buffer_checked
      by (cbn [sizeof Pod_float]; unfold o3, o2, o1; lia).
    cbn [sizeof Pod_float]. change (Z.of_nat 4) with 4.
    destruct (o3 + 4 + dc * 4 >? size data); reflexivity.
  - apply gtb_false_le in Ed. assert (dc = 0) as Hd0 by lia.
    rewrite Hd0. cbn [Z.mul]. rewrite Z.add_0_r.
    replace (o3 + 4 >? size data) with false
      by (symmetry; rewrite Z.gtb_ltb; apply Z.ltb_ge; lia).
    reflexivity.
Qed.

Lemma member_app_r (a b : list byte) off n :
  (length a <= off)%nat ->
  member (a ++ b) off n = member b (off - length a) n.
Proof.
  intros H. unfold member. rewrite skipn_app.
  rewrite (skipn_all2 a) by exact H. reflexivity.
Qed.

Lemma member_app_l (a b : list byte) n :
  length a = n -> member (a ++ b) 0 n = a.
Proof.
  intros <-. unfold member. rewrite skipn_O.
  rewrite firstn_app, Nat.sub_diag, firstn_O, app_nil_r.
  apply firstn_all.
Qed.

Lemma member_app_inside (a b : list byte) off n :
  (off + n <= length a)%nat -> member (a ++ b) off n = member a off n.
Proof.
  intros H. unfold member. rewrite skipn_app, firstn_app.
  rewrite length_skipn.
  replace (n - (length a - off))%nat with 0%nat by lia.
  rewrite firstn_O, app_nil_r. reflexivity.
Qed.

Lemma le_combine_split4 z : le_combine (le_split 4 z) = wrap32 z.
Proof. rewrite le_combine_split. reflexivity. Qed.

Lemma le_combine_split8 z : le_combine (le_split 8 z) = wrap64 z.
Proof. rewrite le_combine_split. reflexivity. Qed.

(** Peel the members in front of the one at the wanted offset. *)
Ltac member_of_header :=
  unfold header_bytes;
  repeat (rewrite member_app_r by (rewrite length_le_split; lia);
          rewrite length_le_split; cbn [Nat.sub]);
  try (rewrite member_app_l by apply length_le_split).

Section HeaderLayout.
Variable h : MessageHeader.

Lemma member_magic : member (header_bytes h) 0 4 = le_split 4 (magic h).
Proof. member_of_header. reflexivity. Qed.

Lemma member_type : member (header_bytes h) 4 4 = le_split 4 (type h).
Proof. member_of_header. reflexivity. Qed.

Lemma member_payload_size :
  member (header_bytes h) 8 8 = le_split 8 (payload_size h).
Proof. member_of_header. reflexivity. Qed.

Lemma member_timestamp :
  member (header_bytes h) 16 8 = le_split 8 (timestamp h).
Proof. member_of_header. reflexivity. Qed.

Lemma member_width : member (header_bytes h) 24 4 = le_split 4 (width h).
Proof. member_of_header. reflexivity. Qed.

Lemma member_height : member (header_bytes h) 28 4 = le_split 4 (height h).
Proof. member_of_header. reflexivity. Qed.

Lemma member_channels :
  member (header_bytes h) 32 4 = le_split 4 (channels h).
Proof. member_of_header. reflexivity. Qed.

Lemma member_filename_length :
  member (header_bytes h) 36 4 = le_split 4 (filename_length h).
Proof. member_of_header. reflexivity. Qed.

Lemma member_reserved :
  member (header_bytes h) 40 24 =
  firstn 24 (reserved h ++ repeat Byte.x00 24).
Proof.
  member_of_header. unfold member. rewrite skipn_O, firstn_firstn.
  reflexivity.
Qed.

(** Copying a header out of what the encoder wrote gives each field back,
    cut to the width of its member. *)
Lemma header_of_bytes_header_bytes :
  header_of_bytes (header_bytes h) =
  {| magic := wrap32 (magic h);
     type := wrap32 (type h);
     payload_size := wrap64 (payload_size h);
     timestamp := wrap64 (timestamp h);
     width := wrap32 (width h);
     height := wrap32 (height h);
     channels := wrap32 (channels h);
     filename_length := wrap32 (filename_length h);
     reserved := firstn 24 (reserved h ++ repeat Byte.x00 24) |}.
Proof.
  unfold header_of_bytes.
  rewrite member_magic, member_type, member_payload_size, member_timestamp,
    member_width, member_height, member_channels, member_filename_length,
    member_reserved.
  rewrite !le_combine_split4, !le_combine_split8. reflexivity.
Qed.

Lemma firstn_header_bytes rest :
  firstn 64 (header_bytes h ++ rest) = header_bytes h.
Proof.
  rewrite firstn_app, length_header_bytes, Nat.sub_diag, firstn_O, app_nil_r.
  apply firstn_all2. rewrite length_header_bytes. lia.
Qed.

Lemma skipn_header_bytes rest :
  skipn 64 (header_bytes h ++ rest) = rest.
Proof.
  rewrite skipn_app, length_header_bytes, Nat.sub_diag, skipn_O.
  rewrite skipn_all2 by (rewrite length_header_bytes; lia). reflexivity.
Qed.
End HeaderLayout.

(** ** The encoder *)

Lemma serialize_image_eq image :
  Serializer.serialize_image image =
  header_bytes
    {| magic := MESSAGE_MAGIC;
       type := MessageType_value IMAGE;
       payload_size :=
         wrap64 (wrap32 (string_size (filename image)) + size (data image));
       timestamp := img_timestamp image;
       width := img_width image;
       height := img_height image;
       channels := img_channels image;
       filename_length := wrap32 (string_size (filename image));
       reserved := repeat Byte.x00 24 |} ++
  list_byte_of_string (filename image) ++ data image.
Proof.
  unfold Serializer.serialize_image. cbv zeta.
  rewrite app_nil_l, <- app_assoc. reflexivity.
Qed.

Lemma serialize_image_with_features_eq x :
  let kc := wrap32 (size (keypoints x)) in
  let dc := wrap32 (size (descriptors x)) in
  Serializer.serialize_image_with_features x =
  header_bytes
    {| magic := MESSAGE_MAGIC;
       type := MessageType_value IMAGE_WITH_FEATURES;
       payload_size :=
         wrap64 (string_size (filename (image x)) + size (data (image x)) +
                 4 + wrap64 (size (keypoints x) * 28) +
                 4 + wrap64 (size (descriptors x) * 4));
       timestamp := img_timestamp (image x);
       width := img_width (image x);
       height := img_height (image x);
       channels := img_channels (image x);
       filename_length := wrap32 (string_size (filename (image x)));
       reserved := repeat Byte.x00 24 |} ++
  list_byte_of_string (filename (image x)) ++ data (image x) ++
  le_split 4 kc ++
  (if kc >? 0 then flat_map to_bytes (keypoints x) else []) ++
  le_split 4 dc ++
  (if dc >? 0 then flat_map to_bytes (descriptors x) else []).
Proof.
  intros kc dc.
  unfold Serializer.serialize_image_with_features,
    Serializer.write_to_buffer, Serializer.write_vector_to_buffer.
  cbv zeta. fold kc dc. cbn [to_bytes Pod_uint32 u32].
  destruct (kc >? 0), (dc >? 0);
    rewrite ?app_nil_l, ?app_nil_r, <- ?app_assoc; reflexivity.
Qed.

Lemma header_layout_app h rest :
  length (reserved h) = 24%nat ->
  header_layout (header_bytes h ++ rest) h.
Proof.
  intros Hr. unfold header_layout.
  rewrite !member_app_inside by (rewrite length_header_bytes; lia).
  rewrite member_magic, member_type, member_payload_size, member_timestamp,
    member_width, member_height, member_channels, member_filename_length,
    member_reserved.
  repeat split.
  rewrite firstn_app, Hr, Nat.sub_diag, firstn_O, app_nil_r.
  apply firstn_all2. lia.
Qed.

Lemma string_size_id_of_length n : string_size (id_of_length n) = Z.of_nat n.
Proof.
  unfold string_size. f_equal.
  induction n as [|n IH]; [reflexivity|].
  cbn [id_of_length String.length]. rewrite IH. reflexivity.
Qed.

(** The two size members of the header as [serialize] encodes them: the
    id length cut to 32 bits, and the payload size computed from the cut
    length. *)
Lemma serialize_image_sizes image :
  le_combine (member (Serializer.serialize_image image) 36 4) =
    wrap32 (string_size (filename image)) /\
  le_combine (member (Serializer.serialize_image image) 8 8) =
    wrap64 (wrap32 (string_size (filename image)) + size (data image)).
Proof.
  rewrite (serialize_image_eq image).
  rewrite !member_app_inside by (rewrite length_header_bytes; lia).
  rewrite member_filename_length, member_payload_size.
  cbn [filename_length payload_size].
  rewrite le_combine_split4, le_combine_split8.
  split; [unfold wrap32 | unfold wrap64]; apply Z.mod_mod; lia.
Qed.

(** C7, as amended.  For a frame whose id is shorter than [2 ^ 32] bytes
    (its length travels in the header's 32-bit [filename_length]) and whose
    id and payload together stay below [2 ^ 64] bytes, the encoder of an
    [ImageData] writes the header, then the id (filename) bytes, then the
    payload bytes, in that order.  Every member of the header is fixed by
    the frame: the magic number, the kind, the frame's timestamp and
    dimensions, the id length, 24 zero bytes, and a [payload_size] that is
    the length of the id plus the length of the payload, in the struct and
    as encoded at offset 8.  So the bytes are a function of the frame's six
    fields and of nothing else: frames that agree on them encode to
    identical bytes. *)
Theorem serialize_image_layout (image : ImageData) :
  string_size (filename image) < 2 ^ 32 ->
  string_size (filename image) + size (data image) < 2 ^ 64 ->
  let header := {|
    magic := MESSAGE_MAGIC;
    type := MessageType_value IMAGE;
    payload_size := string_size (filename image) + size (data image);
    timestamp := img_timestamp image;
    width := img_width image;
    height := img_height image;
    channels := img_channels image;
    filename_length := string_size (filename image);
    reserved := repeat Byte.x00 24 |} in
  Serializer.serialize_image image =
    header_bytes header ++
    list_byte_of_string (filename image) ++ data image /\
  length (header_bytes header) = 64%nat /\
  le_combine (member (Serializer.serialize_image image) 8 8) =
    string_size (filename image) + size (data image) /\
  (forall image' : ImageData,
      filename image' = filename image ->
      data image' = data image ->
      img_timestamp image' = img_timestamp image ->
      img_width image' = img_width image ->
      img_height image' = img_height image ->
      img_channels image' = img_channels image ->
      Serializer.serialize_image image' = Serializer.serialize_image image).
Proof.
  intros Hfn Hsum header.
  assert (Hfn0 : 0 <= string_size (filename image))
    by (unfold string_size; lia).
  pose proof (size_nonneg (data image)) as Hd0.
  pose proof (serialize_image_eq image) as E.
  rewrite (wrap32_small (string_size (filename image))) in E by lia.
  rewrite wrap64_small in E by lia.
  split; [exact E|].
  split; [apply length_header_bytes|]. split.
  - destruct (serialize_image_sizes image) as [_ ->].
    rewrite wrap32_small by lia. apply wrap64_small. lia.
  - intros image' Hf Hd Ht Hw Hh Hc.
    rewrite (serialize_image_eq image'), (serialize_image_eq image).
    rewrite Hf, Hd, Ht, Hw, Hh, Hc. reflexivity.
Qed.

Lemma serialize_image_layout_witness :
  let header := {|
    magic := MESSAGE_MAGIC;
    type := MessageType_value IMAGE;
    payload_size := 13;
    timestamp := 12345;
    width := 0;
    height := 0;
    channels := 0;
    filename_length := 5;
    reserved := repeat Byte.x00 24 |} in
  Serializer.serialize_image sample_image =
    header_bytes header ++
    list_byte_of_string (filename sample_image) ++ data sample_image /\
  length (header_bytes header) = 64%nat /\
  le_combine (member (Serializer.serialize_image sample_image) 8 8) = 13 /\
  (forall image' : ImageData,
      filename image' = filename sample_image ->
      data image' = data sample_image ->
      img_timestamp image' = img_timestamp sample_image ->
      img_width image' = img_width sample_image ->
      img_height image' = img_height sample_image ->
      img_channels image' = img_channels sample_image ->
      Serializer.serialize_image image' =
      Serializer.serialize_image sample_image).
Proof.
  apply (serialize_image_layout sample_image); vm_compute; reflexivity.
Defined.

(** C7 as first stated, for every frame, fails at [oversized_image].  Its
    id is [2 ^ 32] bytes long and its payload is empty, so the id and the
    payload make [2 ^ 32] bytes, all of which the encoder writes after the
    header; but the id length is cut to 32 bits before it is used, and the
    header says [filename_length = 0] and [payload_size = 0]. *)
Lemma serialize_image_layout_counterexample :
  string_size (filename oversized_image) + size (data oversized_image) =
    2 ^ 32 /\
  size (Serializer.serialize_image oversized_image) = 64 + 2 ^ 32 /\
  le_combine (member (Serializer.serialize_image oversized_image) 36 4) = 0 /\
  le_combine (member (Serializer.serialize_image oversized_image) 8 8) = 0 /\
  le_combine (member (Serializer.serialize_image oversized_image) 8 8) <>
    string_size (filename oversized_image) + size (data oversized_image).
Proof.
  assert (Hid : string_size (filename oversized_image) = 2 ^ 32).
  { change (filename oversized_image)
      with (id_of_length (Z.to_nat (2 ^ 32))).
    rewrite string_size_id_of_length. apply Z2Nat.id.
    apply Z.pow_nonneg. discriminate. }
  assert (Hdata : size (data oversized_image) = 0) by reflexivity.
  destruct (serialize_image_sizes oversized_image) as [Hlen Hpay].
  rewrite Hid in Hlen. rewrite Hid, Hdata in Hpay.
  change (wrap32 (2 ^ 32)) with 0 in Hlen, Hpay.
  change (wrap64 (0 + 0)) with 0 in Hpay.
  rewrite Hid, Hdata, Hlen, Hpay.
  split; [reflexivity|]. split.
  - rewrite (serialize_image_eq oversized_image), !size_app,
      size_header_bytes, size_list_byte_of_string, Hid, Hdata.
    reflexivity.
  - split; [reflexivity|]. split; [reflexivity|]. discriminate.
Qed.

(** C8.  Every encoded message of either kind starts with a header of
    exactly 64 bytes, whatever the payload: magic (4 bytes), kind (4),
    payload_size (8), timestamp (8), width (4), height (4), channels (4),
    filename length (4) and 24 reserved zero bytes, back to back with no
    padding, and the id bytes start right after at offset 64. *)
Theorem header_is_64_bytes :
  (forall image : ImageData,
      exists header rest,
        Serializer.serialize_image image = header_bytes header ++ rest /\
        length (header_bytes header) = 64%nat /\
        skipn 64 (Serializer.serialize_image image) =
          list_byte_of_string (filename image) ++ data image /\
        header_layout (Serializer.serialize_image image) header /\
        magic header = MESSAGE_MAGIC /\
        type header = MessageType_value IMAGE /\
        timestamp header = img_timestamp image /\
        width header = img_width image /\
        height header = img_height image /\
        channels header = img_channels image /\
        filename_length header = wrap32 (string_size (filename image)) /\
        reserved header = repeat Byte.x00 24) /\
  (forall x : ImageWithFeatures,
      exists header rest,
        Serializer.serialize_image_with_features x =
          header_bytes header ++ rest /\
        length (header_bytes header) = 64%nat /\
        firstn (String.length (filename (image x)) + length (data (image x)))
               (skipn 64 (Serializer.serialize_image_with_features x)) =
          list_byte_of_string (filename (image x)) ++ data (image x) /\
        header_layout (Serializer.serialize_image_with_features x) header /\
        magic header = MESSAGE_MAGIC /\
        type header = MessageType_value IMAGE_WITH_FEATURES /\
        timestamp header = img_timestamp (image x) /\
        width header = img_width (image x) /\
        height header = img_height (image x) /\
        channels header = img_channels (image x) /\
        filename_length header = wrap32 (string_size (filename (image x))) /\
        reserved header = repeat Byte.x00 24).
Proof.
  split.
  - intros image. rewrite serialize_image_eq.
    eexists. eexists. split; [reflexivity|].
    split; [apply length_header_bytes|].
    split; [apply skipn_header_bytes|].
    split; [apply header_layout_app; reflexivity|].
    repeat split.
  - intros x. rewrite serialize_image_with_features_eq.
    eexists. eexists. split; [reflexivity|].
    split; [apply length_header_bytes|].
    split.
    { rewrite skipn_header_bytes.
      rewrite <- length_list_byte_of_string, <- length_app.
      rewrite (app_assoc (list_byte_of_string _) (data _)).
      rewrite firstn_app, Nat.sub_diag, firstn_O, app_nil_r.
      apply firstn_all. }
    split; [apply header_layout_app; reflexivity|].
    repeat split.
Qed.

(** ** The decoders *)

Lemma deserialize_image_too_small data :
  size data < 64 ->
  Serializer.deserialize_image data =
  Throw (SerializationError "Data too small to contain header").
Proof.
  intros H. unfold Serializer.deserialize_image.
  replace (size data <? sizeof_MessageHeader) with true
    by (symmetry; apply Z.ltb_lt; exact H).
  reflexivity.
Qed.

Lemma deserialize_image_with_features_too_small data :
  size data < 64 ->
  Serializer.deserialize_image_with_features data =
  Throw (SerializationError "Data too small to contain header").
Proof.
  intros H. unfold Serializer.deserialize_image_with_features.
  replace (size data <? sizeof_MessageHeader) with true
    by (symmetry; apply Z.ltb_lt; exact H).
  reflexivity.
Qed.

Lemma deserialize_image_decoded_or_rejected data :
  decoded_or_rejected (Serializer.deserialize_image data).
Proof.
  destruct (Z_lt_ge_dec (size data) 64) as [Hlt|Hge].
  - rewrite deserialize_image_too_small by exact Hlt. right. eauto.
  - rewrite deserialize_image_unfold by lia. cbv zeta.
    repeat match goal with
           | |- decoded_or_rejected (if ?c then _ else _) => destruct c
           end; (right; eexists; reflexivity) || (left; eexists; reflexivity).
Qed.

Lemma deserialize_image_with_features_decoded_or_rejected data :
  decoded_or_rejected (Serializer.deserialize_image_with_features data).
Proof.
  destruct (Z_lt_ge_dec (size data) 64) as [Hlt|Hge].
  - rewrite deserialize_image_with_features_too_small by exact Hlt.
    right. eauto.
  - rewrite deserialize_image_with_features_unfold by lia. cbv zeta.
    repeat match goal with
           | |- decoded_or_rejected (if ?c then _ else _) => destruct c
           end; (right; eexists; reflexivity) || (left; eexists; reflexivity).
Qed.

(** C9.  Decoding is total and memory-safe on arbitrary input: for every
    byte string, each decoder returns a value or throws a
    [SerializationError]; it never reads outside the buffer, because every
    read is preceded by a check of its range against the buffer size. *)
Theorem decode_never_reads_out_of_bounds (data : list byte) :
  ((exists image, Serializer.deserialize_image data = Ok image) \/
   (exists msg,
       Serializer.deserialize_image data = Throw (SerializationError msg))) /\
  ((exists x, Serializer.deserialize_image_with_features data = Ok x) \/
   (exists msg,
       Serializer.deserialize_image_with_features data =
       Throw (SerializationError msg))) /\
  Serializer.deserialize_image data <> OutOfBounds /\
  Serializer.deserialize_image_with_features data <> OutOfBounds.
Proof.
  pose proof (deserialize_image_decoded_or_rejected data) as H1.
  pose proof (deserialize_image_with_features_decoded_or_rejected data) as H2.
  split; [exact H1|]. split; [exact H2|].
  split.
  - destruct H1 as [[v ->]|[m ->]]; discriminate.
  - destruct H2 as [[v ->]|[m ->]]; discriminate.
Qed.

(** The four directions of a rejected input: the decoder threw, and a
    violation is among the hypotheses. *)
Ltac rejected_input :=
  split; split;
  [ intros _; tauto
  | intros _; eexists; reflexivity
  | intros [? H]; discriminate H
  | intros H; exfalso; apply H; tauto ].

(** C3.  Decoding a frame fails, with a [SerializationError], exactly when
    the input has a structural violation: fewer than 64 bytes, a wrong magic
    constant, a kind tag other than IMAGE, a declared payload size different
    from the total length minus 64, or an id or payload slice that would run
    past the end of the buffer.  In every other case it returns a frame,
    whatever the width, height, channels and timestamp fields hold. *)
Theorem deserialize_image_fails_iff_violation (data : list byte) :
  size data < 2 ^ 64 ->
  ((exists msg,
       Serializer.deserialize_image data = Throw (SerializationError msg))
   <-> frame_violation data) /\
  ((exists image, Serializer.deserialize_image data = Ok image)
   <-> ~ frame_violation data).
Proof.
  intros Hsz. unfold frame_violation. cbv zeta.
  destruct (Z_lt_ge_dec (size data) 64) as [Hlt|Hge].
  { rewrite deserialize_image_too_small by exact Hlt. rejected_input. }
  rewrite deserialize_image_unfold by lia. cbv zeta.
  pose proof (header_of_bytes_range (firstn 64 data)) as R.
  cbv zeta in R.
  set (header := header_of_bytes (firstn 64 data)) in *.
  destruct R as (_ & _ & Rps & _ & _ & _ & _ & Rfl).
  destruct (magic header =? MESSAGE_MAGIC) eqn:Em; cbn [negb];
    [apply Z.eqb_eq in Em | apply Z.eqb_neq in Em; rejected_input].
  destruct (type header =? MessageType_value IMAGE) eqn:Et; cbn [negb];
    [apply Z.eqb_eq in Et | apply Z.eqb_neq in Et; rejected_input].
  destruct (size data =? wrap64 (64 + payload_size header)) eqn:Es;
    cbn [negb]; [apply Z.eqb_eq in Es | apply Z.eqb_neq in Es].
  2:{ assert (Hps : payload_size header <> size data - 64).
      { intros Hps. apply Es. rewrite Hps.
        replace (64 + (size data - 64)) with (size data) by ring.
        symmetry. apply wrap64_small. lia. }
      rejected_input. }
  apply expected_size_exact in Es; [|lia|lia].
  destruct (64 + filename_length header >? size data) eqn:Ef;
    [apply gtb_true_gt in Ef; rejected_input | apply gtb_false_le in Ef].
  assert (Hw : wrap64 (payload_size header - filename_length header) =
               payload_size header - filename_length header)
    by (apply wrap64_small; lia).
  rewrite Hw.
  split; split.
  - intros [? H]; discriminate.
  - intros [H|[H|[H|[H|[H|H]]]]]; exfalso; lia.
  - intros _ [H|[H|[H|[H|[H|H]]]]]; lia.
  - intros _. eexists; reflexivity.
Qed.

Lemma deserialize_image_fails_iff_violation_witness :
  size (Serializer.serialize_image sample_image) < 2 ^ 64 /\
  ((exists image,
       Serializer.deserialize_image (Serializer.serialize_image sample_image)
       = Ok image)
   <-> ~ frame_violation (Serializer.serialize_image sample_image)).
Proof.
  split; [vm_compute; reflexivity|].
  apply (deserialize_image_fails_iff_violation
           (Serializer.serialize_image sample_image)).
  vm_compute. reflexivity.
Defined.

(** ** Round trip *)

(** Decoding what the encoder wrote for a frame gives the frame back. *)
Lemma deserialize_serialize_image (image : ImageData) :
  valid_image image ->
  Serializer.deserialize_image (Serializer.serialize_image image) = Ok image.
Proof.
  intros (Hw & Hh & Hc & Hts & Hfn & Htot).
  assert (Hfn0 : 0 <= string_size (filename image))
    by (unfold string_size; lia).
  pose proof (size_nonneg (data image)) as Hd0.
  rewrite serialize_image_eq.
  rewrite (wrap32_small (string_size (filename image))) by lia.
  rewrite (wrap64_small (string_size (filename image) + size (data image)))
    by lia.
  match goal with
  | |- Serializer.deserialize_image (header_bytes ?h ++ ?r) = _ =>
      set (hdr := h); set (rest := r)
  end.
  assert (Hsize : size (header_bytes hdr ++ rest) =
                  64 + string_size (filename image) + size (data image)).
  { unfold rest. rewrite !size_app, size_header_bytes,
      size_list_byte_of_string. ring. }
  rewrite deserialize_image_unfold by lia. cbv zeta.
  rewrite firstn_header_bytes, header_of_bytes_header_bytes.
  subst hdr.
  cbn [magic type payload_size timestamp width height channels
       filename_length].
  rewrite (wrap32_small MESSAGE_MAGIC) by (unfold MESSAGE_MAGIC; lia).
  rewrite (wrap32_small (MessageType_value IMAGE)) by (cbn; lia).
  rewrite (wrap32_small (string_size (filename image))) by lia.
  rewrite (wrap64_small (string_size (filename image) + size (data image)))
    by lia.
  rewrite !Z.eqb_refl. cbn [negb].
  rewrite Hsize.
  replace (64 + (string_size (filename image) + size (data image)))
    with (64 + string_size (filename image) + size (data image)) by ring.
  rewrite wrap64_small by lia. rewrite Z.eqb_refl. cbn [negb].
  replace (64 + string_size (filename image) >?
           64 + string_size (filename image) + size (data image))
    with false by (symmetry; rewrite Z.gtb_ltb; apply Z.ltb_ge; lia).
  rewrite skipn_header_bytes.
  match goal with
  | |- context [skipn ?n (header_bytes ?h ++ rest)] =>
      replace (skipn n (header_bytes h ++ rest)) with (data image)
  end.
  2:{ replace (Z.to_nat (64 + string_size (filename image)))
        with (String.length (filename image) + 64)%nat
        by (unfold string_size; lia).
      rewrite <- skipn_skipn, skipn_header_bytes. unfold rest.
      rewrite skipn_app, length_list_byte_of_string, Nat.sub_diag, skipn_O.
      rewrite skipn_all2 by (rewrite length_list_byte_of_string; lia).
      reflexivity. }
  replace (firstn (Z.to_nat (string_size (filename image))) rest)
    with (list_byte_of_string (filename image)).
  2:{ unfold rest, string_size. rewrite Nat2Z.id.
      rewrite firstn_app, length_list_byte_of_string, Nat.sub_diag,
        firstn_O, app_nil_r.
      symmetry. apply firstn_all2. rewrite length_list_byte_of_string. lia. }
  rewrite string_of_list_byte_of_string.
  rewrite (wrap32_small (img_width image)), (wrap32_small (img_height image)),
    (wrap32_small (img_channels image)), (wrap64_small (img_timestamp image))
    by assumption.
  destruct image; reflexivity.
Qed.

(** ** Reasoning about member functions *)

Section Outcomes.
Context {S : Type}.

Lemma outcomes_ret {A : Type} (P : S -> Prop) (a : A) Q E :
  (forall s, P s -> Q a s) -> outcomes P (ret a) Q E.
Proof. intros H s Hs. cbn. auto. Qed.

Lemma outcomes_throw {A : Type} (P : S -> Prop) (e : exn)
    (Q : A -> S -> Prop) E :
  (forall s, P s -> E e s) -> outcomes P (throw e) Q E.
Proof. intros H s Hs. cbn. auto. Qed.

Lemma outcomes_modify (P : S -> Prop) (f : S -> S) Q E :
  (forall s, P s -> Q tt (f s)) -> outcomes P (modify f) Q E.
Proof. intros H s Hs. cbn. auto. Qed.

Lemma outcomes_bind {A B : Type} (P : S -> Prop) (m : M S A)
    (k : A -> M S B) (R : A -> S -> Prop) Q E :
  outcomes P m R E ->
  (forall a, outcomes (R a) (k a) Q E) ->
  outcomes P (bindM m k) Q E.
Proof.
  intros Hm Hk s Hs. specialize (Hm s Hs). unfold bindM.
  destruct (m s) as [[a|e|] s']; [|exact Hm|exact Hm].
  apply (Hk a s' Hm).
Qed.

Lemma outcomes_try_catch {A : Type} (P : S -> Prop) (body : M S A)
    (handler : exn -> M S A) (E' : exn -> S -> Prop) Q E :
  outcomes P body Q E' ->
  (forall e, outcomes (E' e) (handler e) Q E) ->
  outcomes P (try_catch body handler) Q E.
Proof.
  intros Hb Hh s Hs. specialize (Hb s Hs). unfold try_catch.
  destruct (body s) as [[a|e|] s']; [exact Hb| |exact Hb].
  apply (Hh e s' Hb).
Qed.

Lemma outcomes_weaken {A : Type} (P P' : S -> Prop) (m : M S A)
    (Q Q' : A -> S -> Prop) (E E' : exn -> S -> Prop) :
  outcomes P' m Q' E' ->
  (forall s, P s -> P' s) ->
  (forall a s, Q' a s -> Q a s) ->
  (forall e s, E' e s -> E e s) ->
  outcomes P m Q E.
Proof.
  intros Hm HP HQ HE s Hs. specialize (Hm s (HP s Hs)).
  destruct (m s) as [[a|e|] s']; auto.
Qed.

(** A loop over a list, with an invariant indexed by what is left to do. *)
Lemma outcomes_for_each {A : Type} (Inv : list A -> S -> Prop)
    (body : A -> M S unit) E (l : list A) :
  (forall a rest, outcomes (Inv (a :: rest)) (body a) (fun _ => Inv rest) E) ->
  outcomes (Inv l) (for_each l body) (fun _ => Inv []) E.
Proof.
  intros Hbody. induction l as [|a rest IH].
  - apply outcomes_ret. auto.
  - cbn [for_each]. eapply outcomes_bind; [apply Hbody|].
    intros u. exact IH.
Qed.

End Outcomes.

Lemma outcomes_pure_pre {S A : Type} (phi : Prop) (P : S -> Prop)
    (m : M S A) Q E :
  (phi -> outcomes P m Q E) -> outcomes (fun s => phi /\ P s) m Q E.
Proof. intros H s [Hphi Hs]. exact (H Hphi s Hs). Qed.

(** ** The data logger's calls into SQLite *)

(** [rc = call(...); if (rc != good) throw e;] followed by [k]. *)
Lemma outcomes_checked_call {A : Type}
    (f : sqlite.sqlite3 -> Z * sqlite.sqlite3) (good : Z) (e : Z -> exn)
    (k : M DataLogger.t A) (P Pok : DataLogger.t -> Prop) Q E :
  (forall s, P s ->
     if fst (f (DataLogger.db_ s)) =? good
     then Pok (DataLogger.set_db (snd (f (DataLogger.db_ s))) s)
     else E (e (fst (f (DataLogger.db_ s))))
            (DataLogger.set_db (snd (f (DataLogger.db_ s))) s)) ->
  outcomes Pok k Q E ->
  outcomes P
    (bindM (DataLogger.call f)
           (fun rc => if negb (rc =? good) then throw (e rc) else k)) Q E.
Proof.
  intros Hf Hk s Hs. specialize (Hf s Hs).
  unfold bindM, DataLogger.call.
  destruct (f (DataLogger.db_ s)) as [rc db'] eqn:Ef. cbn [fst snd] in Hf.
  destruct (rc =? good); cbn [negb].
  - apply (Hk _ Hf).
  - cbn. exact Hf.
Qed.

Section Connection.
Variable st0 : DataLogger.t.

(** Preparing a statement inside a transaction. *)
Lemma prepare_in_transaction msg w s :
  in_transaction st0 w s ->
  if fst (sqlite.sqlite3_prepare_v2 (DataLogger.db_ s)) =? sqlite.SQLITE_OK
  then in_transaction st0 w
         (DataLogger.set_db
            (snd (sqlite.sqlite3_prepare_v2 (DataLogger.db_ s))) s)
  else store_failed st0 (DatabaseError msg)
         (DataLogger.set_db
            (snd (sqlite.sqlite3_prepare_v2 (DataLogger.db_ s))) s).
Proof.
  intros [(Hr & Hi & Hk & Hc & Hdb) Ht].
  unfold sqlite.sqlite3_prepare_v2, sqlite.next_fault.
  destruct (sqlite.faults (DataLogger.db_ s)) as [|[| |] rest]; cbn;
    unfold store_failed, is_DatabaseError, in_transaction, nothing_committed;
    cbn; eauto 10.
Qed.

(** Stepping an [INSERT] inside a transaction. *)
Lemma step_in_transaction msg stmt w s :
  in_transaction st0 w s ->
  if fst (sqlite.sqlite3_step stmt (DataLogger.db_ s)) =? sqlite.SQLITE_DONE
  then in_transaction st0 (fst (sqlite.insert stmt w))
         (DataLogger.set_db
            (snd (sqlite.sqlite3_step stmt (DataLogger.db_ s))) s) /\
       sqlite.last_rowid (snd (sqlite.sqlite3_step stmt (DataLogger.db_ s)))
         = snd (sqlite.insert stmt w)
  else store_failed st0 (DatabaseError msg)
         (DataLogger.set_db
            (snd (sqlite.sqlite3_step stmt (DataLogger.db_ s))) s).
Proof.
  intros [(Hr & Hi & Hk & Hc & Hdb) Ht].
  unfold sqlite.sqlite3_step, sqlite.next_fault.
  destruct (sqlite.faults (DataLogger.db_ s)) as [|[| |] rest];
    cbn [fst snd sqlite.txn sqlite.committed sqlite.faults sqlite.last_rowid];
    rewrite ?Ht;
    try (destruct (sqlite.insert stmt w) as [w' id];
         destruct (id >? sqlite.MAX_ROWID));
    cbn; unfold store_failed, is_DatabaseError, in_transaction,
           nothing_committed; cbn; eauto 10.
Qed.

End Connection.

Lemma apply_statements_app l1 l2 tb :
  apply_statements (l1 ++ l2) tb = apply_statements l2 (apply_statements l1 tb).
Proof. unfold apply_statements. apply fold_left_app. Qed.

Lemma stored_phases x c0 : stored x c0 = with_descriptors x c0.
Proof.
  unfold stored, store_statements, with_descriptors, with_keypoints,
    with_image.
  change (?a :: ?l) with ([a] ++ l) at 1.
  rewrite !apply_statements_app. reflexivity.
Qed.

(** The loop over the keypoints: each step adds one row to the working copy
    or fails with nothing committed. *)
Lemma keypoints_loop_outcomes (data : ImageWithFeatures)
    (st0 : DataLogger.t) (c0 : sqlite.Tables) :
  outcomes (in_transaction st0 (with_image data c0))
    (for_each (keypoints data) (fun kp =>
       bindM (DataLogger.call
                (sqlite.sqlite3_step
                   (DataLogger.insert_keypoint_stmt
                      (sqlite.images_seq c0 + 1) kp)))
             (fun rc =>
                if negb (rc =? sqlite.SQLITE_DONE)
                then throw (DatabaseError "Failed to insert keypoint")
                else ret tt)))
    (fun _ s => in_transaction st0 (with_keypoints data c0) s)
    (store_failed st0).
Proof.
  set (id := sqlite.images_seq c0 + 1).
  eapply outcomes_weaken with (E' := store_failed st0).
  - apply (outcomes_for_each
             (fun rest s =>
                exists w, in_transaction st0 w s /\
                  apply_statements
                    (map (DataLogger.insert_keypoint_stmt id) rest) w
                  = with_keypoints data c0)).
    intros kp rest.
    apply (outcomes_checked_call _ _ (fun _ => DatabaseError _) _ _
             (fun s => exists w, in_transaction st0 w s /\
                apply_statements
                  (map (DataLogger.insert_keypoint_stmt id) rest) w
                = with_keypoints data c0)).
    + intros s (w & Hw & Happ).
      pose proof (step_in_transaction st0 "Failed to insert keypoint"
                    (DataLogger.insert_keypoint_stmt id kp) w s Hw) as H.
      destruct (fst (sqlite.sqlite3_step _ (DataLogger.db_ s))
                =? sqlite.SQLITE_DONE).
      * destruct H as [H _]. eexists. split; [exact H|]. exact Happ.
      * exact H.
    + apply outcomes_ret. auto.
  - intros s Hs. exists (with_image data c0). split; [exact Hs | reflexivity].
  - intros _ s (w & Hw & Happ). cbn in Happ. subst w. exact Hw.
  - auto.
Qed.

Section Store.
Variable ext : Externals.
Variable data : ImageWithFeatures.
Variable st0 : DataLogger.t.

(** [BEGIN TRANSACTION] on a connection with no open transaction. *)
Lemma begin_transaction_outcomes :
  sqlite.txn (DataLogger.db_ st0) = None ->
  outcomes (fun s => s = st0) (DataLogger.begin_transaction ext)
    (fun _ s =>
       in_transaction st0 (sqlite.committed (DataLogger.db_ st0)) s)
    (fun e s => store_failed st0 e s /\ sqlite.txn (DataLogger.db_ s) = None).
Proof.
  intros Hnone s ->.
  unfold DataLogger.begin_transaction, DataLogger.execute_sql, bindM,
    DataLogger.call, sqlite.sqlite3_exec, sqlite.next_fault.
  destruct (sqlite.faults (DataLogger.db_ st0)) as [|[| |] rest];
    cbn [sqlite.txn]; rewrite ?Hnone; cbn;
    unfold store_failed, in_transaction, nothing_committed, is_DatabaseError;
    cbn; eauto 10.
Qed.

(** [if (!l.empty()) { m }]. *)
Lemma outcomes_unless_empty {A : Type} (l : list A)
    (m : M DataLogger.t unit) (P : DataLogger.t -> Prop) Q E :
  (l = [] -> forall s, P s -> Q tt s) ->
  (l <> [] -> outcomes P m Q E) ->
  outcomes P (match l with [] => ret tt | _ => m end) Q E.
Proof.
  intros Hnil Hcons. destruct l as [|a l'].
  - apply outcomes_ret. auto.
  - apply Hcons. discriminate.
Qed.

(** [COMMIT] inside a transaction: the working copy becomes the committed
    tables, or the call fails with nothing committed. *)
Lemma commit_in_transaction msg w s :
  in_transaction st0 w s ->
  if fst (sqlite.sqlite3_exec sqlite.COMMIT (DataLogger.db_ s))
     =? sqlite.SQLITE_OK
  then commit_done st0 w
         (DataLogger.set_db
            (snd (sqlite.sqlite3_exec sqlite.COMMIT (DataLogger.db_ s))) s)
  else store_failed st0 (DatabaseError (msg
            (fst (sqlite.sqlite3_exec sqlite.COMMIT (DataLogger.db_ s)))))
         (DataLogger.set_db
            (snd (sqlite.sqlite3_exec sqlite.COMMIT (DataLogger.db_ s))) s).
Proof.
  intros [(Hr & Hi & Hk & Hc & Hdb) Ht].
  unfold sqlite.sqlite3_exec, sqlite.next_fault.
  destruct (sqlite.faults (DataLogger.db_ s)) as [|[| |] rest];
    cbn [fst snd sqlite.txn sqlite.committed sqlite.faults sqlite.last_rowid];
    rewrite ?Ht; cbn; unfold commit_done, store_failed, is_DatabaseError,
                        nothing_committed; cbn; eauto 10.
Qed.

(** [ROLLBACK] after a failure: no transaction is left open, whether SQLite
    had already rolled back by itself or not. *)
Lemma rollback_after_failure e :
  outcomes (store_failed st0 e)
    (bindM (DataLogger.rollback_transaction ext) (fun _ => throw e))
    (fun (_ : unit) s => all_committed data st0 s)
    (fun e' s => store_failed st0 e' s /\
                 sqlite.txn (DataLogger.db_ s) = None).
Proof.
  intros s [He (Hr & Hi & Hk & Hc & Hdb)].
  unfold DataLogger.rollback_transaction, DataLogger.execute_sql, bindM,
    DataLogger.call, sqlite.sqlite3_exec.
  destruct (sqlite.txn (DataLogger.db_ s)) as [w|] eqn:Ht; cbn;
    unfold store_failed, nothing_committed, is_DatabaseError; cbn;
    rewrite ?Ht; eauto 10.
Qed.

(** [store_image_with_features] from a connection with no open transaction:
    either every row derived from [data] is committed and both counters are
    advanced, or a [DatabaseError] is thrown with the committed tables and
    the counters as they were; in both cases no transaction is left open. *)
Lemma store_outcomes :
  sqlite.txn (DataLogger.db_ st0) = None ->
  outcomes (fun s => s = st0) (DataLogger.store_image_with_features ext data)
    (fun _ s => all_committed data st0 s)
    (fun e s => store_failed st0 e s /\
                sqlite.txn (DataLogger.db_ s) = None).
Proof.
  intros Hnone. unfold DataLogger.store_image_with_features.
  set (c0 := sqlite.committed (DataLogger.db_ st0)).
  eapply outcomes_bind; [apply begin_transaction_outcomes; exact Hnone|].
  intros ?u; cbv beta. fold c0.
  eapply outcomes_try_catch with (E' := store_failed st0);
    [|intros e; apply rollback_after_failure].
  (* prepare the image insert *)
  eapply (outcomes_checked_call _ _ (fun _ => DatabaseError _));
    [intros s Hs; apply (prepare_in_transaction st0 _ c0 s Hs)|].
  (* insert the image *)
  eapply (outcomes_checked_call _ _ (fun _ => DatabaseError _) _ _
            (fun s => in_transaction st0 (with_image data c0) s /\
                      sqlite.last_rowid (DataLogger.db_ s)
                      = sqlite.images_seq c0 + 1)).
  { intros s Hs.
    pose proof (step_in_transaction st0 "Failed to insert image"
                  (DataLogger.insert_image_stmt (image data)) c0 s Hs) as H.
    destruct (fst (sqlite.sqlite3_step _ (DataLogger.db_ s))
              =? sqlite.SQLITE_DONE).
    - destruct H as [H1 H2]. split; [exact H1|]. cbn. rewrite H2. reflexivity.
    - exact H. }
  (* the parent's identifier *)
  eapply outcomes_bind with
    (R := fun id s => id = sqlite.images_seq c0 + 1 /\
                      in_transaction st0 (with_image data c0) s).
  { intros s [Hs Hid]. cbn. split; [exact Hid | exact Hs]. }
  intros id. apply outcomes_pure_pre. intros ->.
  (* the keypoints *)
  eapply outcomes_bind with
    (R := fun _ s => in_transaction st0 (with_keypoints data c0) s).
  { apply outcomes_unless_empty.
    - intros Hk s Hs. unfold with_keypoints. rewrite Hk. exact Hs.
    - intros _.
      eapply (outcomes_checked_call _ _ (fun _ => DatabaseError _));
        [intros s Hs; apply (prepare_in_transaction st0 _ _ s Hs)|].
      apply keypoints_loop_outcomes. }
  intros ?u; cbv beta.
  (* the descriptors *)
  eapply outcomes_bind with
    (R := fun _ s => in_transaction st0 (with_descriptors data c0) s).
  { apply outcomes_unless_empty.
    - intros Hd s Hs. unfold with_descriptors. rewrite Hd. exact Hs.
    - intros Hd.
      eapply (outcomes_checked_call _ _ (fun _ => DatabaseError _));
        [intros s Hs; apply (prepare_in_transaction st0 _ _ s Hs)|].
      eapply (outcomes_checked_call _ _ (fun _ => DatabaseError _));
        [|apply outcomes_ret; intros s Hs; exact Hs].
      intros s Hs.
      pose proof (step_in_transaction st0 "Failed to insert descriptors"
                    (DataLogger.insert_descriptors_stmt
                       (sqlite.images_seq c0 + 1) (descriptors data))
                    _ s Hs) as H.
      destruct (fst (sqlite.sqlite3_step _ (DataLogger.db_ s))
                =? sqlite.SQLITE_DONE).
      + destruct H as [H _]. unfold with_descriptors.
        destruct (descriptors data) as [|d ds]; [congruence|]. exact H.
      + exact H. }
  intros ?u; cbv beta.
  (* commit, then count *)
  eapply outcomes_bind with
    (R := fun _ => commit_done st0 (with_descriptors data c0)).
  { unfold DataLogger.commit_transaction, DataLogger.execute_sql.
    apply (outcomes_checked_call _ _
             (fun rc => DatabaseError
                ("SQL execution failed: " ++ sqlite3_errmsg ext rc)%string)
             _ _ (commit_done st0 (with_descriptors data c0)));
      [|apply outcomes_ret; intros s Hs; exact Hs].
    intros s Hs.
    apply (commit_in_transaction
             (fun rc => ("SQL execution failed: " ++
                         sqlite3_errmsg ext rc)%string) _ s Hs). }
  intros ?u; cbv beta.
  intros s (Hr & Hi & Hk & Hc & Hdb & Ht).
  subst c0. unfold all_committed. rewrite stored_phases.
  cbn [bindM modify DataLogger.incr_images_logged
       DataLogger.add_keypoints_logged DataLogger.running_ DataLogger.cerr
       DataLogger.db_ DataLogger.images_logged_ DataLogger.keypoints_logged_].
  rewrite Hi, Hk. auto 10.
Qed.

End Store.

(** ** The rows a store adds *)

Lemma apply_statements_cons s l tb :
  apply_statements (s :: l) tb = apply_statements l (fst (sqlite.insert s tb)).
Proof. reflexivity. Qed.

Lemma apply_keypoint_statements image_id kps tb :
  exists new_keypoints,
    sqlite.keypoints
      (apply_statements
         (map (DataLogger.insert_keypoint_stmt image_id) kps) tb)
    = sqlite.keypoints tb ++ new_keypoints /\
    length new_keypoints = length kps /\
    Forall (fun r => sqlite.kp_image_id r = image_id) new_keypoints /\
    sqlite.images
      (apply_statements
         (map (DataLogger.insert_keypoint_stmt image_id) kps) tb)
    = sqlite.images tb /\
    sqlite.descriptors
      (apply_statements
         (map (DataLogger.insert_keypoint_stmt image_id) kps) tb)
    = sqlite.descriptors tb.
Proof.
  revert tb. induction kps as [|kp kps IH]; intros tb.
  - exists []. cbn. rewrite app_nil_r. auto.
  - cbn [map]. rewrite apply_statements_cons.
    destruct (IH (fst (sqlite.insert
                         (DataLogger.insert_keypoint_stmt image_id kp) tb)))
      as (new & Hk & Hlen & Hall & Hi & Hd).
    rewrite Hk, Hi, Hd.
    cbn [DataLogger.insert_keypoint_stmt sqlite.insert fst
         sqlite.keypoints sqlite.images sqlite.descriptors].
    eexists (_ :: new). rewrite <- app_assoc. cbn [app].
    split; [reflexivity|]. split; [cbn; lia|].
    split; [constructor; [reflexivity | exact Hall]|]. auto.
Qed.

Lemma stored_rows_added x c0 : rows_added x c0 (stored x c0).
Proof.
  rewrite stored_phases. unfold with_descriptors, with_keypoints.
  set (id := sqlite.images_seq c0 + 1).
  destruct (apply_keypoint_statements id (keypoints x) (with_image x c0))
    as (new & Hk & Hlen & Hall & Hi & Hd).
  set (w2 := apply_statements
               (map (DataLogger.insert_keypoint_stmt id) (keypoints x))
               (with_image x c0)) in *.
  unfold rows_added.
  destruct (descriptors x) as [|d ds];
    cbn [apply_statements fold_left DataLogger.insert_descriptors_stmt
         sqlite.insert fst sqlite.images sqlite.keypoints sqlite.descriptors];
    rewrite ?Hk, ?Hi, ?Hd;
    unfold with_image;
    cbn [DataLogger.insert_image_stmt sqlite.insert fst sqlite.images
         sqlite.keypoints sqlite.descriptors];
    do 3 eexists;
    (split; [reflexivity|]); (split; [reflexivity|]);
    (split; [reflexivity|]); (split; [reflexivity|]);
    (split; [exact Hlen|]); (split; [exact Hall|]);
    [ split; [symmetry; apply app_nil_r|]; split; [reflexivity|constructor]
    | split; [reflexivity|]; split; [reflexivity|];
      constructor; [reflexivity|constructor] ].
Qed.

Lemma deserialize_image_in_bounds data :
  Serializer.deserialize_image data <> OutOfBounds.
Proof.
  destruct (deserialize_image_decoded_or_rejected data) as [[v ->]|[m ->]];
    discriminate.
Qed.

Lemma deserialize_image_with_features_in_bounds data :
  Serializer.deserialize_image_with_features data <> OutOfBounds.
Proof.
  destruct (deserialize_image_with_features_decoded_or_rejected data)
    as [[v ->]|[m ->]]; discriminate.
Qed.

(** ** The transport *)

Lemma receive_returns_or_throws ext tk :
  (exists data, Subscriber.receive ext tk = Ok data) \/
  (exists msg, Subscriber.receive ext tk = Throw (IPCError msg)).
Proof.
  unfold Subscriber.receive.
  destruct (negb (msg_init_rc tk =? 0)); [right; eauto|].
  destruct (recv tk) as [msg|err]; [left; eauto|].
  destruct (err =? zmq.EAGAIN); [left|right]; eauto.
Qed.

Lemma receive_image_in_bounds ext tk :
  Subscriber.receive_image ext tk <> OutOfBounds.
Proof.
  unfold Subscriber.receive_image.
  destruct (receive_returns_or_throws ext tk) as [[d ->]|[m ->]];
    cbn [bind]; [|discriminate].
  destruct d as [|b d]; [discriminate|].
  apply deserialize_image_in_bounds.
Qed.

Lemma receive_image_with_features_in_bounds ext tk :
  Subscriber.receive_image_with_features ext tk <> OutOfBounds.
Proof.
  unfold Subscriber.receive_image_with_features.
  destruct (receive_returns_or_throws ext tk) as [[d ->]|[m ->]];
    cbn [bind]; [|discriminate].
  destruct d as [|b d]; [discriminate|].
  apply deserialize_image_with_features_in_bounds.
Qed.

(** ** The feature extractor's loop *)

Lemma process_image_in_bounds ext image :
  FeatureExtractor.process_image ext image <> OutOfBounds.
Proof.
  unfold FeatureExtractor.process_image, FeatureExtractor.decode_image,
    FeatureExtractor.extract_sift_features.
  destruct (empty image); cbn [bind]; [discriminate|].
  destruct (Mat_empty (imdecode ext (data image))) eqn:Em; cbn [bind];
    [discriminate|]. rewrite Em.
  destruct (detectAndCompute ext (imdecode ext (data image))) as [e|[kps ds]];
    cbn [bind]; discriminate.
Qed.



(** ** The data logger's loop *)

(** One iteration of the data logger on a connection with no open
    transaction: the body always completes without touching [running_] and
    leaves no transaction open; a decode error or a failed store becomes one
    line on the error stream; and either nothing was committed and the
    counters are as before, or every row of the received message was
    committed and counted. *)
Lemma DataLogger_iteration ext tk st :
  sqlite.txn (DataLogger.db_ st) = None ->
  exists st',
    DataLogger.iteration ext tk st = (Ok tt, st') /\
    DataLogger.running_ st' = DataLogger.running_ st /\
    sqlite.txn (DataLogger.db_ st') = None /\
    (forall e,
        Subscriber.receive_image_with_features ext tk = Throw e ->
        st' = DataLogger.log_error
                ("Error logging data: " ++ what e)%string st) /\
    (forall x e s1,
        Subscriber.receive_image_with_features ext tk = Ok x ->
        empty (image x) = false ->
        DataLogger.store_image_with_features ext x st = (Throw e, s1) ->
        st' = DataLogger.log_error
                ("Error logging data: " ++ what e)%string s1) /\
    ((sqlite.committed (DataLogger.db_ st') =
        sqlite.committed (DataLogger.db_ st) /\
      DataLogger.images_logged_ st' = DataLogger.images_logged_ st /\
      DataLogger.keypoints_logged_ st' = DataLogger.keypoints_logged_ st) \/
     (exists x,
         Subscriber.receive_image_with_features ext tk = Ok x /\
         empty (image x) = false /\
         sqlite.committed (DataLogger.db_ st') =
           stored x (sqlite.committed (DataLogger.db_ st)) /\
         DataLogger.images_logged_ st' =
           wrap64 (DataLogger.images_logged_ st + 1) /\
         DataLogger.keypoints_logged_ st' =
           wrap64 (DataLogger.keypoints_logged_ st + size (keypoints x)))).
Proof.
  intros Hnone.
  unfold DataLogger.iteration, try_catch, bindM, lift.
  pose proof (receive_image_with_features_in_bounds ext tk) as Hr.
  destruct (Subscriber.receive_image_with_features ext tk) as [x|e|];
    [| |congruence].
  - destruct (empty (image x)) eqn:Ee.
    + exists st. split; [reflexivity|]. split; [reflexivity|].
      split; [exact Hnone|]. split; [discriminate|].
      split; [intros x' e s1 H; injection H as <-; congruence|].
      left. auto.
    + pose proof (store_outcomes ext x st Hnone st eq_refl) as Hs.
      destruct (DataLogger.store_image_with_features ext x st)
        as [[[]|e|] s1] eqn:Es; [| |contradiction].
      * destruct Hs as (Hrun & Hcerr & Hcom & Htxn & Hi & Hk).
        exists s1. split; [reflexivity|]. split; [exact Hrun|].
        split; [exact Htxn|]. split; [discriminate|].
        split; [intros x' e s1' H; injection H as <-; intros _ H;
                rewrite Es in H; discriminate H|].
        right. exists x. auto 10.
      * destruct Hs as [[_ (Hrun & Hi & Hk & Hcerr & Hcom)] Htxn].
        eexists. split; [reflexivity|]. cbn.
        split; [exact Hrun|]. split; [exact Htxn|]. split; [discriminate|].
        split; [intros x' e' s1' H; injection H as <-; intros _ H;
                rewrite Es in H; injection H as <- <-; reflexivity|].
        left. auto.
  - eexists. split; [reflexivity|]. cbn. split; [reflexivity|].
    split; [exact Hnone|].
    split; [intros e' H; injection H as <-; reflexivity|].
    split; [discriminate|]. left. auto.
Qed.


(** ** Well-formed tables *)

Lemma insert_well_formed s tb :
  well_formed tb ->
  snd (sqlite.insert s tb) <= sqlite.MAX_ROWID ->
  well_formed (fst (sqlite.insert s tb)).
Proof.
  intros (Hi & Hk & Hd) Hmax. unfold well_formed.
  destruct s as [fn ts w h c blob n | id x y sz a r o c | id blob];
    cbn [sqlite.insert fst snd sqlite.images sqlite.keypoints
                   sqlite.descriptors sqlite.images_seq sqlite.keypoints_seq
                   sqlite.descriptors_seq] in *;
    rewrite ?size_app; change (size [_]) with 1; lia.
Qed.

Lemma next_fault_ok db :
  connection_ok db -> connection_ok (snd (sqlite.next_fault db)).
Proof.
  unfold sqlite.next_fault. destruct (sqlite.faults db); intros H; exact H.
Qed.

Lemma set_txn_None_ok db :
  connection_ok db -> connection_ok (sqlite.set_txn None db).
Proof. intros [H _]. split; [exact H | exact I]. Qed.

Lemma sqlite3_exec_ok q db :
  connection_ok db -> connection_ok (snd (sqlite.sqlite3_exec q db)).
Proof.
  intros H. unfold sqlite.sqlite3_exec.
  destruct q.
  - pose proof (next_fault_ok db H) as H'.
    destruct (sqlite.next_fault db) as [f db']. cbn [snd] in H'.
    destruct f, (sqlite.txn db') eqn:Et; cbn [snd];
      try exact H'; try (apply set_txn_None_ok; exact H').
    destruct H' as [Hc _]. split; [exact Hc|]. cbn. exact Hc.
  - pose proof (next_fault_ok db H) as H'.
    destruct (sqlite.next_fault db) as [f db']. cbn [snd] in H'.
    destruct f, (sqlite.txn db') eqn:Et; cbn [snd];
      try exact H'; try (apply set_txn_None_ok; exact H').
    destruct H' as [_ Hw]. rewrite Et in Hw. split; [exact Hw | exact I].
  - destruct (sqlite.txn db); cbn [snd];
      [apply set_txn_None_ok|]; exact H.
Qed.

Lemma sqlite3_prepare_v2_ok db :
  connection_ok db -> connection_ok (snd (sqlite.sqlite3_prepare_v2 db)).
Proof.
  intros H. unfold sqlite.sqlite3_prepare_v2.
  pose proof (next_fault_ok db H) as H'.
  destruct (sqlite.next_fault db) as [f db']. cbn [snd] in H'.
  destruct f; cbn [snd]; try exact H'. apply set_txn_None_ok. exact H'.
Qed.

Lemma sqlite3_step_ok s db :
  connection_ok db -> connection_ok (snd (sqlite.sqlite3_step s db)).
Proof.
  intros H. unfold sqlite.sqlite3_step.
  pose proof (next_fault_ok db H) as H'.
  destruct (sqlite.next_fault db) as [f db']. cbn [snd] in H'.
  destruct f; cbn [snd]; try exact H'; [|apply set_txn_None_ok; exact H'].
  destruct H' as [Hc Hw].
  destruct (sqlite.txn db') as [w|] eqn:Et.
  - pose proof (insert_well_formed s w Hw) as Hi.
    destruct (sqlite.insert s w) as [w' id]. cbn [fst snd] in Hi.
    destruct (id >? sqlite.MAX_ROWID) eqn:Eid; cbn [snd].
    + split; [exact Hc|]. rewrite Et. exact Hw.
    + apply gtb_false_le in Eid. split; [exact Hc|]. cbn. auto.
  - pose proof (insert_well_formed s (sqlite.committed db') Hc) as Hi.
    destruct (sqlite.insert s (sqlite.committed db')) as [c' id].
    cbn [fst snd] in Hi.
    destruct (id >? sqlite.MAX_ROWID) eqn:Eid; cbn [snd].
    + split; [exact Hc|]. rewrite Et. exact I.
    + apply gtb_false_le in Eid. split; [cbn; auto | exact I].
Qed.

(** ** Member functions that keep a property *)

Section Preserves.
Context {S : Type} (P : S -> Prop).

Lemma preserves_ret {A : Type} (a : A) : preserves P (ret a).
Proof. apply outcomes_ret. auto. Qed.

Lemma preserves_throw {A : Type} (e : exn) : preserves P (@throw S A e).
Proof. apply outcomes_throw. auto. Qed.

Lemma preserves_bind {A B : Type} (m : M S A) (k : A -> M S B) :
  preserves P m -> (forall a, preserves P (k a)) -> preserves P (bindM m k).
Proof.
  intros Hm Hk. eapply outcomes_bind; [exact Hm|]. intros a. apply Hk.
Qed.

Lemma preserves_try_catch {A : Type} (body : M S A) (handler : exn -> M S A) :
  preserves P body -> (forall e, preserves P (handler e)) ->
  preserves P (try_catch body handler).
Proof.
  intros Hb Hh. eapply outcomes_try_catch; [exact Hb|]. intros e. apply Hh.
Qed.

Lemma preserves_for_each {A : Type} (l : list A) (body : A -> M S unit) :
  (forall a, preserves P (body a)) -> preserves P (for_each l body).
Proof.
  intros Hb. apply (outcomes_for_each (fun _ => P)). intros a rest. apply Hb.
Qed.

Lemma preserves_modify (f : S -> S) :
  (forall s, P s -> P (f s)) -> preserves P (modify f).
Proof. intros H. apply outcomes_modify. exact H. Qed.

End Preserves.

Lemma preserves_call {A : Type} (f : sqlite.sqlite3 -> A * sqlite.sqlite3) :
  (forall db, connection_ok db -> connection_ok (snd (f db))) ->
  preserves (fun s => connection_ok (DataLogger.db_ s)) (DataLogger.call f).
Proof.
  intros Hf s Hs. unfold DataLogger.call.
  specialize (Hf _ Hs). destruct (f (DataLogger.db_ s)) as [a db'].
  exact Hf.
Qed.

(** Whatever happens inside the transaction, the connection stays well
    formed. *)
Lemma store_keeps_connection_ok ext x :
  preserves (fun s => connection_ok (DataLogger.db_ s))
            (DataLogger.store_image_with_features ext x).
Proof.
  unfold DataLogger.store_image_with_features, DataLogger.begin_transaction,
    DataLogger.commit_transaction, DataLogger.rollback_transaction,
    DataLogger.execute_sql.
  repeat match goal with
         | |- forall _, _ => intro
         | |- preserves _ (ret _) => apply preserves_ret
         | |- preserves _ (throw _) => apply preserves_throw
         | |- preserves _ (modify _) =>
             apply preserves_modify; intros s Hs; exact Hs
         | |- preserves _ (DataLogger.call (sqlite.sqlite3_exec _)) =>
             apply preserves_call; apply sqlite3_exec_ok
         | |- preserves _ (DataLogger.call sqlite.sqlite3_prepare_v2) =>
             apply preserves_call; apply sqlite3_prepare_v2_ok
         | |- preserves _ (DataLogger.call (sqlite.sqlite3_step _)) =>
             apply preserves_call; apply sqlite3_step_ok
         | |- preserves _ (DataLogger.call sqlite.sqlite3_last_insert_rowid) =>
             apply preserves_call; intros db Hdb; exact Hdb
         | |- preserves _ (try_catch _ _) => apply preserves_try_catch
         | |- preserves _ (for_each _ _) => apply preserves_for_each
         | |- preserves _ (bindM _ _) => apply preserves_bind
         | |- preserves _ (if ?c then _ else _) => destruct c
         | |- preserves _ (match ?l with [] => _ | _ => _ end) => destruct l
         end.
Qed.

(** ** The counters *)

Lemma stored_counts x c0 :
  size (sqlite.images (stored x c0)) = size (sqlite.images c0) + 1 /\
  size (sqlite.keypoints (stored x c0)) =
    size (sqlite.keypoints c0) + size (keypoints x).
Proof.
  destruct (stored_rows_added x c0)
    as (p & nk & nd & Hi & _ & _ & Hk & Hlen & _).
  rewrite Hi, Hk, !size_app. unfold size. rewrite Hlen.
  cbn [length]. split; reflexivity.
Qed.

Lemma DataLogger_iteration_connection ext tk st :
  connection_ok (DataLogger.db_ st) ->
  forall r st', DataLogger.iteration ext tk st = (r, st') ->
                connection_ok (DataLogger.db_ st').
Proof.
  intros Hok r st'.
  unfold DataLogger.iteration, try_catch, bindM, lift.
  destruct (Subscriber.receive_image_with_features ext tk) as [x|e|].
  - destruct (empty (image x)).
    + intros H. injection H as _ <-. exact Hok.
    + pose proof (store_keeps_connection_ok ext x st Hok) as Hs.
      destruct (DataLogger.store_image_with_features ext x st)
        as [[[]|e|] s1]; [| |contradiction].
      * intros H. injection H as _ <-. exact Hs.
      * intros H. injection H as _ <-. exact Hs.
  - intros H. injection H as _ <-. exact Hok.
  - intros H. injection H as _ <-. exact Hok.
Qed.

Lemma well_formed_counts_bounded db :
  connection_ok db ->
  size (sqlite.images (sqlite.committed db)) <= sqlite.MAX_ROWID /\
  size (sqlite.keypoints (sqlite.committed db)) <= sqlite.MAX_ROWID.
Proof. intros [(Hi & Hk & _) _]. split; lia. Qed.

(** One iteration keeps the invariant: the counters follow the commit
    exactly, without wrapping, and never go down. *)
Lemma DataLogger_iteration_invariant ext tk i0 k0 st :
  logger_invariant i0 k0 st ->
  exists st',
    DataLogger.iteration ext tk st = (Ok tt, st') /\
    DataLogger.running_ st' = DataLogger.running_ st /\
    logger_invariant i0 k0 st' /\
    DataLogger.images_logged_ st <= DataLogger.images_logged_ st' /\
    DataLogger.keypoints_logged_ st <= DataLogger.keypoints_logged_ st'.
Proof.
  intros (Hnone & Hok & Hi0 & Hk0 & Hi & Hk).
  destruct (DataLogger_iteration ext tk st Hnone)
    as (st' & E & Hrun & Hnone' & _ & _ & Hcases).
  pose proof (DataLogger_iteration_connection ext tk st Hok _ _ E) as Hok'.
  exists st'. split; [exact E|]. split; [exact Hrun|].
  destruct Hcases as [(Hc & Ei & Ek)|(x & _ & _ & Hc & Ei & Ek)].
  - assert (Hsame : images_committed st' = images_committed st /\
                    keypoints_committed st' = keypoints_committed st)
      by (unfold images_committed, keypoints_committed; rewrite Hc; auto).
    destruct Hsame as [Si Sk].
    unfold logger_invariant. rewrite Si, Sk, Ei, Ek.
    split; [|lia]. split; [exact Hnone'|]. split; [exact Hok'|]. lia.
  - pose proof (stored_counts x (sqlite.committed (DataLogger.db_ st)))
      as [Si Sk].
    rewrite <- Hc in Si, Sk.
    fold (images_committed st') (images_committed st) in Si.
    fold (keypoints_committed st') (keypoints_committed st) in Sk.
    pose proof (well_formed_counts_bounded _ Hok') as [Bi Bk].
    fold (images_committed st') in Bi. fold (keypoints_committed st') in Bk.
    pose proof (size_nonneg (keypoints x)) as Hn.
    assert (Hmax : sqlite.MAX_ROWID < 2 ^ 64)
      by (unfold sqlite.MAX_ROWID; lia).
    rewrite wrap64_small in Ei by lia.
    rewrite wrap64_small in Ek by lia.
    unfold logger_invariant. rewrite Ei, Ek, Si, Sk.
    split; [|lia]. split; [exact Hnone'|]. split; [exact Hok'|]. lia.
Qed.

(** Over any run of the loop the invariant holds at the end, and hence
    after every iteration; the counters never go down. *)
Lemma DataLogger_run_loop_invariant ext env i0 k0 :
  forall st,
    logger_invariant i0 k0 st ->
    exists st',
      DataLogger.run_loop ext env st = (Ok tt, st') /\
      logger_invariant i0 k0 st' /\
      DataLogger.images_logged_ st <= DataLogger.images_logged_ st' /\
      DataLogger.keypoints_logged_ st <= DataLogger.keypoints_logged_ st'.
Proof.
  induction env as [|tk rest IH]; intros st Hinv.
  - exists st. split; [reflexivity|]. split; [exact Hinv|]. lia.
  - cbn [DataLogger.run_loop].
    set (st1 := if stop_requested tk then DataLogger.stop st else st).
    assert (H1 : logger_invariant i0 k0 st1 /\
                 DataLogger.images_logged_ st1 = DataLogger.images_logged_ st /\
                 DataLogger.keypoints_logged_ st1 =
                   DataLogger.keypoints_logged_ st).
    { unfold st1. destruct (stop_requested tk); auto. }
    destruct H1 as (Hinv1 & Ei1 & Ek1).
    destruct (DataLogger.running_ st1).
    + unfold bindM.
      destruct (DataLogger_iteration_invariant ext tk i0 k0 st1 Hinv1)
        as (st2 & -> & _ & Hinv2 & Li & Lk).
      destruct (IH st2 Hinv2) as (st' & -> & Hinv' & Li' & Lk').
      exists st'. split; [reflexivity|]. split; [exact Hinv'|]. lia.
    + exists st1. split; [reflexivity|]. split; [exact Hinv1|]. lia.
Qed.

(** A store from a state between two iterations: the counters move with the
    commit, exactly, and the invariant holds afterwards. *)
Lemma store_invariant ext x i0 k0 st :
  logger_invariant i0 k0 st ->
  match DataLogger.store_image_with_features ext x st with
  | (Ok _, st') =>
      sqlite.committed (DataLogger.db_ st') =
        stored x (sqlite.committed (DataLogger.db_ st)) /\
      DataLogger.images_logged_ st' = DataLogger.images_logged_ st + 1 /\
      DataLogger.keypoints_logged_ st' =
        DataLogger.keypoints_logged_ st + size (keypoints x) /\
      logger_invariant i0 k0 st'
  | (Throw e, st') =>
      sqlite.committed (DataLogger.db_ st') =
        sqlite.committed (DataLogger.db_ st) /\
      DataLogger.images_logged_ st' = DataLogger.images_logged_ st /\
      DataLogger.keypoints_logged_ st' = DataLogger.keypoints_logged_ st /\
      logger_invariant i0 k0 st'
  | (OutOfBounds, _) => False
  end.
Proof.
  intros (Hnone & Hok & Hi0 & Hk0 & Hi & Hk).
  pose proof (store_outcomes ext x st Hnone st eq_refl) as H.
  pose proof (store_keeps_connection_ok ext x st Hok) as Hok'.
  destruct (DataLogger.store_image_with_features ext x st)
    as [[[]|e|] st']; [| |exact H].
  - destruct H as (_ & _ & Hc & Hnone' & Ei & Ek).
    pose proof (stored_counts x (sqlite.committed (DataLogger.db_ st)))
      as [Si Sk].
    rewrite <- Hc in Si, Sk.
    fold (images_committed st') (images_committed st) in Si.
    fold (keypoints_committed st') (keypoints_committed st) in Sk.
    pose proof (well_formed_counts_bounded _ Hok') as [Bi Bk].
    fold (images_committed st') in Bi. fold (keypoints_committed st') in Bk.
    pose proof (size_nonneg (keypoints x)) as Hn.
    assert (Hmax : sqlite.MAX_ROWID < 2 ^ 64)
      by (unfold sqlite.MAX_ROWID; lia).
    rewrite wrap64_small in Ei by lia.
    rewrite wrap64_small in Ek by lia.
    split; [exact Hc|]. split; [exact Ei|]. split; [exact Ek|].
    unfold logger_invariant. rewrite Ei, Ek, Si, Sk.
    split; [exact Hnone'|]. split; [exact Hok'|]. lia.
  - destruct H as [[_ (_ & Ei & Ek & _ & Hc)] Hnone'].
    assert (Hsame : images_committed st' = images_committed st /\
                    keypoints_committed st' = keypoints_committed st)
      by (unfold images_committed, keypoints_committed; rewrite Hc; auto).
    destruct Hsame as [Si Sk].
    split; [exact Hc|]. split; [exact Ei|]. split; [exact Ek|].
    unfold logger_invariant. rewrite Si, Sk, Ei, Ek.
    split; [exact Hnone'|]. split; [exact Hok'|]. lia.
Qed.

(** ** Object representations *)

Lemma firstn_app_exact {A : Type} (a b : list A) n :
  length a = n -> firstn n (a ++ b) = a.
Proof.
  intros <-. rewrite firstn_app, Nat.sub_diag, firstn_O, app_nil_r.
  apply firstn_all.
Qed.

Lemma skipn_app_exact {A : Type} (a b : list A) n :
  length a = n -> skipn n (a ++ b) = b.
Proof.
  intros <-. rewrite skipn_app, Nat.sub_diag, skipn_O, skipn_all.
  reflexivity.
Qed.

Lemma signed32_wrap z : - 2 ^ 31 <= z < 2 ^ 31 -> signed32 (wrap32 z) = z.
Proof.
  intros H. unfold signed32, wrap32. rewrite Z.mod_mod by lia.
  destruct (Z_lt_ge_dec z 0) as [Hneg|Hpos].
  - replace (z mod 2 ^ 32) with (z + 2 ^ 32).
    + replace (z + 2 ^ 32 <? 2 ^ 31) with false
        by (symmetry; apply Z.ltb_ge; lia).
      ring.
    + symmetry. replace z with ((z + 2 ^ 32) + (-1) * 2 ^ 32) at 1 by ring.
      rewrite Z.mod_add by lia. apply Z.mod_small. lia.
  - rewrite Z.mod_small by lia.
    replace (z <? 2 ^ 31) with true by (symmetry; apply Z.ltb_lt; lia).
    reflexivity.
Qed.

Lemma length_to_bytes_float (f : float) : length (to_bytes f) = 4%nat.
Proof. apply length_le_split. Qed.

Lemma of_to_bytes_float (f : float) :
  valid_float f -> of_bytes (to_bytes f) = f.
Proof.
  intros H. destruct f as [z]. unfold valid_float in H.
  cbn [of_bytes to_bytes Pod_float float_bits] in *.
  rewrite firstn_all2 by (rewrite length_le_split; lia).
  rewrite le_combine_split4, wrap32_small by exact H. reflexivity.
Qed.

Lemma length_to_bytes_Keypoint (kp : Keypoint) : length (to_bytes kp) = 28%nat.
Proof.
  cbn [to_bytes Pod_Keypoint Pod_float].
  rewrite !length_app, !length_le_split. reflexivity.
Qed.

Ltac member_of_keypoint :=
  repeat (rewrite member_app_r by (rewrite length_le_split; lia);
          rewrite length_le_split; cbn [Nat.sub]);
  first [ rewrite member_app_l by apply length_le_split
        | unfold member; rewrite skipn_O, firstn_all2
            by (rewrite length_le_split; lia) ].

Lemma of_to_bytes_Keypoint (kp : Keypoint) :
  valid_keypoint kp -> of_bytes (to_bytes kp) = kp.
Proof.
  intros (Hx & Hy & Hs & Ha & Hr & Ho & Hc).
  destruct kp as [[x] [y] [s] [a] [r] o c].
  unfold valid_float in *. cbn [float_bits kp_x kp_y kp_size kp_angle
    kp_response kp_octave kp_class_id] in *.
  cbn [to_bytes of_bytes Pod_Keypoint Pod_float float_bits kp_x kp_y kp_size
       kp_angle kp_response kp_octave kp_class_id].
  f_equal.
  1-5: member_of_keypoint;
       rewrite firstn_all2 by (rewrite length_le_split; lia);
       rewrite le_combine_split4, wrap32_small by assumption; reflexivity.
  1-2: member_of_keypoint; rewrite le_combine_split4;
       apply signed32_wrap; assumption.
Qed.

(** Reading back [count] objects written back to back. *)
Lemma objects_of_bytes_flat_map {T : Type} `{Pod T} (valid : T -> Prop)
    (l : list T) (rest : list byte) :
  (forall v, length (to_bytes v) = sizeof) ->
  (forall v, valid v -> of_bytes (to_bytes v) = v) ->
  Forall valid l ->
  objects_of_bytes (length l) (flat_map to_bytes l ++ rest) = l.
Proof.
  intros Hlen Hinv Hall. induction Hall as [|v l Hv Hl IH]; [reflexivity|].
  cbn [length flat_map objects_of_bytes]. rewrite <- app_assoc.
  rewrite firstn_app_exact, skipn_app_exact by apply Hlen.
  rewrite Hinv by exact Hv. rewrite IH. reflexivity.
Qed.

Lemma length_flat_map_to_bytes {T : Type} `{Pod T} (l : list T) :
  (forall v, length (to_bytes v) = sizeof) ->
  length (flat_map to_bytes l) = (length l * sizeof)%nat.
Proof.
  intros Hlen. induction l as [|v l IH]; [reflexivity|].
  cbn [flat_map length]. rewrite length_app, Hlen, IH. lia.
Qed.

Lemma segment {A : Type} (pre seg post : list A) k n :
  k = length pre -> n = length seg ->
  firstn n (skipn k (pre ++ seg ++ post)) = seg.
Proof.
  intros -> ->. rewrite skipn_app_exact by reflexivity.
  apply firstn_app_exact. reflexivity.
Qed.

Lemma flat_map_unless_empty {T : Type} (f : T -> list byte) (l : list T) :
  (if size l >? 0 then flat_map f l else []) = flat_map f l.
Proof. destruct l; [reflexivity|]. unfold size. cbn [length].
  replace (Z.of_nat (S (length l)) >? 0) with true
    by (symmetry; rewrite Z.gtb_ltb; apply Z.ltb_lt; lia).
  reflexivity.
Qed.

(** Decoding what the encoder wrote for an enriched frame gives the value
    back when the payload is raw pixels, which is the one case where the
    length the decoder computes is the length the encoder wrote. *)
Lemma deserialize_serialize_image_with_features (x : ImageWithFeatures) :
  valid_image_with_features x ->
  payload_is_raw_pixels x ->
  Serializer.deserialize_image_with_features
    (Serializer.serialize_image_with_features x) = Ok x.
Proof.
  intros ((Hw & Hh & Hc & Hts & Hfn & Htot) & Hnk & Hnd & Hkps & Hds) Hraw.
  unfold payload_is_raw_pixels in Hraw.
  pose proof (size_nonneg (data (image x))) as Hd0.
  pose proof (size_nonneg (keypoints x)) as Hk0.
  pose proof (size_nonneg (descriptors x)) as Hs0.
  assert (Hfn0 : 0 <= string_size (filename (image x)))
    by (unfold string_size; lia).
  rewrite serialize_image_with_features_eq. cbv zeta.
  rewrite (wrap32_small (size (keypoints x))),
    (wrap32_small (size (descriptors x))),
    (wrap32_small (string_size (filename (image x)))) by lia.
  rewrite !flat_map_unless_empty.
  set (F := list_byte_of_string (filename (image x))).
  set (D := data (image x)) in *.
  set (K4 := le_split 4 (size (keypoints x))).
  set (KP := flat_map to_bytes (keypoints x)).
  set (D4 := le_split 4 (size (descriptors x))).
  set (DS := flat_map to_bytes (descriptors x)).
  match goal with
  | |- Serializer.deserialize_image_with_features (header_bytes ?h ++ _) = _ =>
      set (hdr := h)
  end.
  set (H := header_bytes hdr).
  assert (LH : length H = 64%nat) by apply length_header_bytes.
  assert (LF : length F = String.length (filename (image x)))
    by apply length_list_byte_of_string.
  assert (LK4 : length K4 = 4%nat) by apply length_le_split.
  assert (LD4 : length D4 = 4%nat) by apply length_le_split.
  assert (LKP : length KP = (length (keypoints x) * 28)%nat)
    by (unfold KP; rewrite length_flat_map_to_bytes
          by exact length_to_bytes_Keypoint; reflexivity).
  assert (LDS : length DS = (length (descriptors x) * 4)%nat)
    by (unfold DS; rewrite length_flat_map_to_bytes
          by exact length_to_bytes_float; reflexivity).
  set (bytes := H ++ F ++ D ++ K4 ++ KP ++ D4 ++ DS).
  assert (Hsize : size bytes =
                  64 + string_size (filename (image x)) + size D + 4 +
                  size (keypoints x) * 28 + 4 + size (descriptors x) * 4).
  { unfold bytes, size, string_size.
    rewrite !length_app, LH, LF, LK4, LD4, LKP, LDS. lia. }
  rewrite deserialize_image_with_features_unfold by lia. cbv zeta.
  assert (Hhdr : header_of_bytes (firstn 64 bytes) =
                 {| magic := MESSAGE_MAGIC;
                    type := MessageType_value IMAGE_WITH_FEATURES;
                    payload_size := payload_size hdr;
                    timestamp := img_timestamp (image x);
                    width := img_width (image x);
                    height := img_height (image x);
                    channels := img_channels (image x);
                    filename_length := string_size (filename (image x));
                    reserved := repeat Byte.x00 24 |}).
  { unfold bytes, H. rewrite firstn_header_bytes, header_of_bytes_header_bytes.
    unfold hdr.
    cbn [magic type payload_size timestamp width height channels
         filename_length reserved].
    rewrite (wrap32_small MESSAGE_MAGIC) by (unfold MESSAGE_MAGIC; lia).
    rewrite (wrap32_small (MessageType_value IMAGE_WITH_FEATURES))
      by (cbn; lia).
    rewrite (wrap32_small (img_width _)), (wrap32_small (img_height _)),
      (wrap32_small (img_channels _)), (wrap64_small (img_timestamp _)),
      (wrap32_small (string_size _)) by lia.
    f_equal. apply wrap64_small. apply wrap64_range. }
  rewrite Hhdr.
  cbn [magic type payload_size timestamp width height channels
       filename_length].
  rewrite <- Hraw. rewrite !Z.eqb_refl. cbn [negb].
  (* the two counts, read back *)
  assert (Hkc : le_combine
                  (firstn 4 (skipn (Z.to_nat (64 + string_size
                                      (filename (image x)) + size D)) bytes))
                = size (keypoints x)).
  { replace bytes with ((H ++ F ++ D) ++ K4 ++ KP ++ D4 ++ DS)
      by (unfold bytes; rewrite <- !app_assoc; reflexivity).
    rewrite segment;
      [|unfold size, string_size; rewrite !length_app, LH, LF; lia
       |rewrite LK4; reflexivity].
    unfold K4. rewrite le_combine_split4. apply wrap32_small. lia. }
  rewrite Hkc.
  assert (Hdc : le_combine
                  (firstn 4 (skipn (Z.to_nat (64 + string_size
                                      (filename (image x)) + size D + 4 +
                                      size (keypoints x) * 28)) bytes))
                = size (descriptors x)).
  { replace bytes with ((H ++ F ++ D ++ K4 ++ KP) ++ D4 ++ DS ++ [])
      by (unfold bytes; rewrite <- !app_assoc, app_nil_r; reflexivity).
    rewrite segment;
      [|unfold size, string_size;
        rewrite !length_app, LH, LF, LK4, LKP; lia
       |rewrite LD4; reflexivity].
    unfold D4. rewrite le_combine_split4. apply wrap32_small. lia. }
  rewrite Hdc.
  (* every bounds check passes *)
  repeat match goal with
         | |- context [?a >? size bytes] =>
             replace (a >? size bytes) with false
               by (symmetry; rewrite Z.gtb_ltb; apply Z.ltb_ge; lia)
         end.
  (* the four slices *)
  assert (SF : firstn (Z.to_nat (string_size (filename (image x))))
                      (skipn 64 bytes) = F).
  { replace bytes with (H ++ F ++ D ++ K4 ++ KP ++ D4 ++ DS) by reflexivity.
    apply segment; [rewrite LH; reflexivity|].
    unfold string_size. rewrite LF. lia. }
  assert (SD : firstn (Z.to_nat (size D))
                 (skipn (Z.to_nat (64 + string_size (filename (image x))))
                        bytes) = D).
  { replace bytes with ((H ++ F) ++ D ++ K4 ++ KP ++ D4 ++ DS)
      by (unfold bytes; rewrite <- !app_assoc; reflexivity).
    apply segment;
      [unfold string_size; rewrite length_app, LH, LF; lia
      |unfold size; lia]. }
  assert (SK : firstn (Z.to_nat (size (keypoints x) * 28))
                 (skipn (Z.to_nat (64 + string_size (filename (image x)) +
                                   size D + 4)) bytes) = KP).
  { replace bytes with ((H ++ F ++ D ++ K4) ++ KP ++ D4 ++ DS)
      by (unfold bytes; rewrite <- !app_assoc; reflexivity).
    apply segment;
      [unfold size, string_size; rewrite !length_app, LH, LF, LK4; lia
      |unfold size; rewrite LKP; lia]. }
  assert (SS : firstn (Z.to_nat (size (descriptors x) * 4))
                 (skipn (Z.to_nat (64 + string_size (filename (image x)) +
                                   size D + 4 + size (keypoints x) * 28 + 4))
                        bytes) = DS).
  { replace bytes with ((H ++ F ++ D ++ K4 ++ KP ++ D4) ++ DS ++ [])
      by (unfold bytes; rewrite <- !app_assoc, app_nil_r; reflexivity).
    apply segment;
      [unfold size, string_size;
       rewrite !length_app, LH, LF, LK4, LKP, LD4; lia
      |unfold size; rewrite LDS; lia]. }
  rewrite SF, SD, SK, SS.
  unfold F. rewrite string_of_list_byte_of_string.
  replace (Z.to_nat (size (keypoints x))) with (length (keypoints x))
    by (unfold size; lia).
  replace (Z.to_nat (size (descriptors x))) with (length (descriptors x))
    by (unfold size; lia).
  rewrite <- (app_nil_r KP), <- (app_nil_r DS). unfold KP, DS.
  rewrite (objects_of_bytes_flat_map valid_keypoint)
    by (try exact length_to_bytes_Keypoint; try exact of_to_bytes_Keypoint;
        assumption).
  rewrite (objects_of_bytes_flat_map valid_float)
    by (try exact length_to_bytes_float; try exact of_to_bytes_float;
        assumption).
  destruct x as [[fn w h c ts d] kps ds]. reflexivity.
Qed.

(** ** Claims about the transport and the stages *)

(** C6.  When the receive timeout elapses with nothing available
    ([zmq_msg_recv] fails with [EAGAIN]), [receive] returns the empty byte
    vector, [receive_image] and [receive_image_with_features] return the
    empty value, and the older [voyis] receive returns [false] leaving the
    caller's buffer alone; none of them throws, and a stage iteration on a
    timeout changes nothing and writes nothing to the error stream. *)
Theorem receive_timeout_is_empty (ext : Externals) (tk : tick) :
  msg_init_rc tk = 0 ->
  recv tk = zmq.timeout ->
  Subscriber.receive ext tk = Ok [] /\
  Subscriber.receive_image ext tk = Ok ImageData_default /\
  empty ImageData_default = true /\
  Subscriber.receive_image_with_features ext tk =
    Ok ImageWithFeatures_default /\
  empty (image ImageWithFeatures_default) = true /\
  (forall sub data, voyis.receive ext tk sub data = (false, data, sub)) /\
  (forall st, FeatureExtractor.iteration ext tk st = (Ok tt, st)) /\
  (forall st, DataLogger.iteration ext tk st = (Ok tt, st)).
Proof.
  intros Hinit Hrecv.
  assert (Hr : Subscriber.receive ext tk = Ok []).
  { unfold Subscriber.receive. rewrite Hinit, Hrecv. reflexivity. }
  assert (Hi : Subscriber.receive_image ext tk = Ok ImageData_default).
  { unfold Subscriber.receive_image. rewrite Hr. reflexivity. }
  assert (Hf : Subscriber.receive_image_with_features ext tk =
               Ok ImageWithFeatures_default).
  { unfold Subscriber.receive_image_with_features. rewrite Hr. reflexivity. }
  repeat split; try assumption.
  - intros sub data. unfold voyis.receive.
    rewrite Hinit, Hrecv. destruct (voyis.connected_ sub); reflexivity.
  - intros st. unfold FeatureExtractor.iteration, try_catch, bindM, lift.
    rewrite Hi. reflexivity.
  - intros st. unfold DataLogger.iteration, try_catch, bindM, lift.
    rewrite Hf. reflexivity.
Qed.

Lemma receive_timeout_is_empty_witness :
  Subscriber.receive sample_ext timeout_tick = Ok [] /\
  Subscriber.receive_image sample_ext timeout_tick = Ok ImageData_default /\
  empty ImageData_default = true /\
  Subscriber.receive_image_with_features sample_ext timeout_tick =
    Ok ImageWithFeatures_default /\
  empty (image ImageWithFeatures_default) = true /\
  (forall sub data,
      voyis.receive sample_ext timeout_tick sub data = (false, data, sub)) /\
  (forall st,
      FeatureExtractor.iteration sample_ext timeout_tick st = (Ok tt, st)) /\
  (forall st, DataLogger.iteration sample_ext timeout_tick st = (Ok tt, st)).
Proof.
  apply (receive_timeout_is_empty sample_ext timeout_tick); reflexivity.
Defined.





(** ** Claims about the persistence gateway *)



(** C10.  The counters follow the commits.  Between two iterations of the
    loop, [images_logged_] and [keypoints_logged_] are the numbers of parent
    rows and of keypoint rows committed since the logger was constructed
    ([logger_invariant]).  From such a state, a store that returns has
    committed its rows and advanced [images_logged_] by exactly one and
    [keypoints_logged_] by exactly the message's keypoint count; a store that
    throws has committed nothing and leaves both counters alone; either way
    the counters still equal the committed rows.  So the same holds after any
    run of the loop, and the counters never decrease.  (They cannot wrap: a
    table holds fewer than [2 ^ 63] rows.) *)
Theorem counters_follow_commits (ext : Externals) (env : list tick)
    (i0 k0 : Z) (st : DataLogger.t) :
  logger_invariant i0 k0 st ->
  (forall x,
      match DataLogger.store_image_with_features ext x st with
      | (Ok _, st') =>
          sqlite.committed (DataLogger.db_ st') =
            stored x (sqlite.committed (DataLogger.db_ st)) /\
          DataLogger.images_logged_ st' = DataLogger.images_logged_ st + 1 /\
          DataLogger.keypoints_logged_ st' =
            DataLogger.keypoints_logged_ st + size (keypoints x) /\
          logger_invariant i0 k0 st'
      | (Throw e, st') =>
          sqlite.committed (DataLogger.db_ st') =
            sqlite.committed (DataLogger.db_ st) /\
          DataLogger.images_logged_ st' = DataLogger.images_logged_ st /\
          DataLogger.keypoints_logged_ st' = DataLogger.keypoints_logged_ st /\
          logger_invariant i0 k0 st'
      | (OutOfBounds, _) => False
      end) /\
  exists st',
    DataLogger.run_loop ext env st = (Ok tt, st') /\
    logger_invariant i0 k0 st' /\
    DataLogger.images_logged_ st' = images_committed st' - i0 /\
    DataLogger.keypoints_logged_ st' = keypoints_committed st' - k0 /\
    DataLogger.images_logged_ st <= DataLogger.images_logged_ st' /\
    DataLogger.keypoints_logged_ st <= DataLogger.keypoints_logged_ st'.
Proof.
  intros Hinv. split.
  - intros x. apply store_invariant. exact Hinv.
  - destruct (DataLogger_run_loop_invariant ext env i0 k0 st Hinv)
      as (st' & E & Hinv' & Li & Lk).
    exists st'. split; [exact E|]. split; [exact Hinv'|].
    destruct Hinv' as (_ & _ & _ & _ & Hi & Hk). auto.
Qed.

(** A run over garbage, a message that stores, and a timeout, on an empty
    database: one parent row and one keypoint row committed, and counted. *)
Lemma counters_follow_commits_witness :
  logger_invariant 0 0 (sample_logger []) /\
  exists st',
    DataLogger.run_loop sample_ext
      [garbage_tick; enriched_tick; timeout_tick] (sample_logger [])
    = (Ok tt, st') /\
    logger_invariant 0 0 st' /\
    DataLogger.images_logged_ st' = 1 /\
    DataLogger.keypoints_logged_ st' = 1.
Proof.
  assert (Hinv : logger_invariant 0 0 (sample_logger [])).
  { unfold logger_invariant, connection_ok, well_formed.
    vm_compute. intuition congruence. }
  split; [exact Hinv|].
  destruct (counters_follow_commits sample_ext
              [garbage_tick; enriched_tick; timeout_tick] 0 0
              (sample_logger []) Hinv)
    as [_ (st' & E & Hinv' & _)].
  exists st'. split; [exact E|]. split; [exact Hinv'|].
  vm_compute in E. injection E as <-. split; reflexivity.
Defined.

(** ** Where the enriched decoder departs from the encoder *)

(** C1, at the message the feature extractor publishes for [sample_image]
    (the encoded file bytes with the dimensions of the decoded image, a value
    with every field in range): the frame inside it round-trips through the
    frame codec, but decoding the encoding of the enriched frame throws
    instead of returning the value.  The decoder takes the length of the
    payload to be [width * height * channels], where the encoder wrote the
    payload's own length. *)
Theorem enriched_round_trip_fails :
  FeatureExtractor.process_image sample_ext sample_image = Ok sample_enriched /\
  valid_image (image sample_enriched) /\
  Serializer.deserialize_image
    (Serializer.serialize_image (image sample_enriched))
  = Ok (image sample_enriched) /\
  Serializer.deserialize_image_with_features
    (Serializer.serialize_image_with_features sample_enriched)
  = Throw (SerializationError "Invalid image data size") /\
  Serializer.deserialize_image_with_features
    (Serializer.serialize_image_with_features sample_enriched)
  <> Ok sample_enriched.
Proof.
  split; [vm_compute; reflexivity|].
  split; [unfold valid_image; repeat split; vm_compute; congruence|].
  split; [vm_compute; reflexivity|].
  assert (H : Serializer.deserialize_image_with_features
                (Serializer.serialize_image_with_features sample_enriched)
              = Throw (SerializationError "Invalid image data size"))
    by (vm_compute; reflexivity).
  split; [exact H|]. rewrite H. discriminate.
Qed.

(** C2, at a buffer of 72 bytes whose header is of the enriched kind and
    declares a payload of 100 bytes: the enriched decoder returns a value,
    although the declared payload size differs from the total length minus
    64; the frame decoder rejects the same buffer with the frame kind, with
    "Data size mismatch". *)
Theorem enriched_size_mismatch_accepted :
  size (mismatched_bytes IMAGE_WITH_FEATURES) - 64 = 8 /\
  payload_size
    (header_of_bytes (firstn 64 (mismatched_bytes IMAGE_WITH_FEATURES)))
  = 100 /\
  Serializer.deserialize_image_with_features
    (mismatched_bytes IMAGE_WITH_FEATURES)
  = Ok ImageWithFeatures_default /\
  Serializer.deserialize_image (mismatched_bytes IMAGE)
  = Throw (SerializationError "Data size mismatch").
Proof. repeat split; vm_compute; reflexivity. Qed.

(* ===================================================================== *)
(** * Further properties *)
(* ===================================================================== *)

(** ** Encoding, then decoding *)

(** X1.  Frames round-trip: decoding what the encoder wrote for a frame
    gives the frame back, field for field, for every frame whose fields fit
    their C++ types and whose filename length fits the header's 32-bit
    field.  An empty payload, an empty filename and zero dimensions are
    included. *)
Theorem frame_round_trip (image : ImageData) :
  valid_image image ->
  Serializer.deserialize_image (Serializer.serialize_image image) = Ok image.
Proof. apply deserialize_serialize_image. Qed.

Lemma frame_round_trip_witness :
  valid_image sample_image /\
  Serializer.deserialize_image (Serializer.serialize_image sample_image)
  = Ok sample_image.
Proof.
  assert (H : valid_image sample_image)
    by (unfold valid_image; cbn; lia).
  split; [exact H | apply (frame_round_trip sample_image H)].
Defined.

(** X2.  Enriched frames round-trip when the payload is raw pixels: if the
    payload holds exactly [width * height * channels] bytes (the product as
    the decoder computes it, in 32 bits), decoding the encoding gives the
    value back, keypoints and descriptors included. *)
Theorem enriched_round_trip_of_raw_pixels (x : ImageWithFeatures) :
  valid_image_with_features x ->
  payload_is_raw_pixels x ->
  Serializer.deserialize_image_with_features
    (Serializer.serialize_image_with_features x) = Ok x.
Proof. apply deserialize_serialize_image_with_features. Qed.

Lemma enriched_round_trip_of_raw_pixels_witness :
  Serializer.deserialize_image_with_features
    (Serializer.serialize_image_with_features raw_enriched) = Ok raw_enriched.
Proof.
  apply (enriched_round_trip_of_raw_pixels raw_enriched).
  - unfold valid_image_with_features, valid_image. cbn.
    repeat split; try lia;
      repeat constructor; unfold valid_float; cbn; lia.
  - reflexivity.
Defined.

(** ** More on the two decoders *)

Lemma size_serialize_image image :
  size (Serializer.serialize_image image) =
  64 + string_size (filename image) + size (data image).
Proof.
  rewrite serialize_image_eq, !size_app, size_header_bytes,
    size_list_byte_of_string. ring.
Qed.

Lemma size_serialize_image_with_features_ge x :
  72 <= size (Serializer.serialize_image_with_features x).
Proof.
  rewrite serialize_image_with_features_eq. cbv zeta.
  rewrite !size_app, size_header_bytes.
  assert (H4 : forall z, size (le_split 4 z) = 4)
    by (intros z; unfold size; rewrite length_le_split; reflexivity).
  rewrite !H4.
  pose proof (size_nonneg (list_byte_of_string (filename (image x)))).
  pose proof (size_nonneg (data (image x))).
  match goal with
  | |- context [size (if ?c then ?a else ?b)] =>
      pose proof (size_nonneg (if c then a else b))
  end.
  match goal with
  | |- context [size (if ?c then flat_map to_bytes (descriptors x) else ?b)] =>
      pose proof (size_nonneg
                    (if c then flat_map to_bytes (descriptors x) else b))
  end.
  lia.
Qed.

Lemma header_of_encoded h rest :
  header_of_bytes (firstn 64 (header_bytes h ++ rest)) =
  {| magic := wrap32 (magic h);
     type := wrap32 (type h);
     payload_size := wrap64 (payload_size h);
     timestamp := wrap64 (timestamp h);
     width := wrap32 (width h);
     height := wrap32 (height h);
     channels := wrap32 (channels h);
     filename_length := wrap32 (filename_length h);
     reserved := firstn 24 (reserved h ++ repeat Byte.x00 24) |}.
Proof. rewrite firstn_header_bytes. apply header_of_bytes_header_bytes. Qed.

(** X3.  The two kinds of message are never confused: an encoded frame is
    rejected by the enriched decoder, and an encoded enriched frame by the
    frame decoder, each with the message that names the kind it expected,
    whatever the values hold. *)
Theorem kinds_are_not_confused (image : ImageData) (x : ImageWithFeatures) :
  Serializer.deserialize_image_with_features
    (Serializer.serialize_image image) =
    Throw (SerializationError "Expected IMAGE_WITH_FEATURES message type") /\
  Serializer.deserialize_image
    (Serializer.serialize_image_with_features x) =
    Throw (SerializationError "Expected IMAGE message type").
Proof.
  split.
  - pose proof (size_serialize_image image) as Hs.
    assert (0 <= string_size (filename image)) by (unfold string_size; lia).
    pose proof (size_nonneg (data image)).
    rewrite deserialize_image_with_features_unfold by lia. cbv zeta.
    rewrite serialize_image_eq, header_of_encoded.
    cbn [magic type]. reflexivity.
  - pose proof (size_serialize_image_with_features_ge x).
    rewrite deserialize_image_unfold by lia. cbv zeta.
    rewrite serialize_image_with_features_eq. cbv zeta.
    rewrite header_of_encoded.
    cbn [magic type]. reflexivity.
Qed.

Lemma size_with_magic m data :
  length m = 4%nat -> 4 <= size data -> size (with_magic m data) = size data.
Proof.
  intros Hm Hd. unfold with_magic, size in *.
  rewrite length_app, length_skipn. lia.
Qed.

Lemma magic_of_with_magic m data :
  length m = 4%nat ->
  magic (header_of_bytes (firstn 64 (with_magic m data))) = le_combine m.
Proof.
  intros Hm. unfold header_of_bytes, with_magic. cbn [magic].
  unfold member. rewrite skipn_O, firstn_firstn.
  replace (Nat.min 4 64) with 4%nat by reflexivity.
  rewrite firstn_app, Hm, Nat.sub_diag, firstn_O, app_nil_r.
  rewrite firstn_all2 by lia. reflexivity.
Qed.

(** X4.  Corruption of the magic constant is always caught: whatever a
    buffer of at least 64 bytes holds (an encoded message of either kind, in
    particular), overwriting its first four bytes with anything that does not
    read as the magic constant makes both decoders reject it with
    [Invalid magic number in header]. *)
Theorem corrupted_magic_is_rejected (m data : list byte) :
  length m = 4%nat ->
  le_combine m <> MESSAGE_MAGIC ->
  64 <= size data ->
  Serializer.deserialize_image (with_magic m data) =
    Throw (SerializationError "Invalid magic number in header") /\
  Serializer.deserialize_image_with_features (with_magic m data) =
    Throw (SerializationError "Invalid magic number in header").
Proof.
  intros Hm Hne Hd.
  pose proof (size_with_magic m data Hm ltac:(lia)) as Hs.
  apply Z.eqb_neq in Hne.
  split.
  - rewrite deserialize_image_unfold by lia. cbv zeta.
    rewrite magic_of_with_magic, Hne by exact Hm. reflexivity.
  - rewrite deserialize_image_with_features_unfold by lia. cbv zeta.
    rewrite magic_of_with_magic, Hne by exact Hm. reflexivity.
Qed.

Lemma corrupted_magic_is_rejected_witness :
  Serializer.deserialize_image
    (with_magic [Byte.xef; Byte.xbe; Byte.xad; Byte.xdf]
                (Serializer.serialize_image sample_image)) =
    Throw (SerializationError "Invalid magic number in header") /\
  Serializer.deserialize_image_with_features
    (with_magic [Byte.xef; Byte.xbe; Byte.xad; Byte.xdf]
                (Serializer.serialize_image_with_features raw_enriched)) =
    Throw (SerializationError "Invalid magic number in header").
Proof.
  split.
  - apply (corrupted_magic_is_rejected
             [Byte.xef; Byte.xbe; Byte.xad; Byte.xdf]
             (Serializer.serialize_image sample_image));
      [reflexivity | vm_compute; discriminate | vm_compute; discriminate].
  - apply (corrupted_magic_is_rejected
             [Byte.xef; Byte.xbe; Byte.xad; Byte.xdf]
             (Serializer.serialize_image_with_features raw_enriched));
      [reflexivity | vm_compute; discriminate | vm_compute; discriminate].
Defined.

(** ** Decoding, then encoding *)

Lemma member_cat bs off n m off' k :
  off' = (off + n)%nat -> k = (n + m)%nat ->
  member bs off n ++ member bs off' m = member bs off k.
Proof.
  intros -> ->.
  unfold member. replace (off + n)%nat with (n + off)%nat by lia.
  rewrite <- skipn_skipn.
  generalize (skipn off bs) as l. intros l.
  revert l. induction n as [|n IH]; intros l.
  - reflexivity.
  - destruct l as [|b l].
    + rewrite skipn_nil, !firstn_nil. reflexivity.
    + cbn [firstn skipn Nat.add app]. rewrite IH. reflexivity.
Qed.

Lemma length_member bs off n :
  (off + n <= length bs)%nat -> length (member bs off n) = n.
Proof.
  intros H. unfold member. rewrite length_firstn, length_skipn. lia.
Qed.

Lemma le_split_member bs off n :
  (off + n <= length bs)%nat ->
  le_split n (le_combine (member bs off n)) = member bs off n.
Proof. intros H. apply split_le_combine', length_member, H. Qed.

(** The first forty bytes of a header are the representations of its
    members, in order. *)
Lemma members_of_header bs :
  (64 <= length bs)%nat ->
  let h := header_of_bytes bs in
  le_split 4 (magic h) ++ le_split 4 (type h) ++
  le_split 8 (payload_size h) ++ le_split 8 (timestamp h) ++
  le_split 4 (width h) ++ le_split 4 (height h) ++
  le_split 4 (channels h) ++ le_split 4 (filename_length h) =
  firstn 40 bs.
Proof.
  intros H h. subst h. unfold header_of_bytes.
  cbn [magic type payload_size timestamp width height channels
       filename_length].
  rewrite !le_split_member by lia.
  rewrite (member_cat bs 32 4 4 36 8 eq_refl eq_refl),
    (member_cat bs 28 4 8 32 12 eq_refl eq_refl),
    (member_cat bs 24 4 12 28 16 eq_refl eq_refl),
    (member_cat bs 16 8 16 24 24 eq_refl eq_refl),
    (member_cat bs 8 8 24 16 32 eq_refl eq_refl),
    (member_cat bs 4 4 32 8 36 eq_refl eq_refl),
    (member_cat bs 0 4 36 4 40 eq_refl eq_refl).
  reflexivity.
Qed.

Lemma string_size_of_list_byte l :
  string_size (string_of_list_byte l) = size l.
Proof.
  unfold string_size, size.
  rewrite <- length_list_byte_of_string, list_byte_of_string_of_list_byte.
  reflexivity.
Qed.

(** What [deserialize_image] returns, and what it has checked by then. *)
Lemma deserialize_image_Ok buf img :
  size buf < 2 ^ 64 ->
  Serializer.deserialize_image buf = Ok img ->
  let header := header_of_bytes (firstn 64 buf) in
  64 <= size buf /\
  magic header = MESSAGE_MAGIC /\
  type header = MessageType_value IMAGE /\
  payload_size header = size buf - 64 /\
  64 + filename_length header <= size buf /\
  img = {| filename :=
             string_of_list_byte
               (firstn (Z.to_nat (filename_length header)) (skipn 64 buf));
           img_width := width header;
           img_height := height header;
           img_channels := channels header;
           img_timestamp := timestamp header;
           data := skipn (Z.to_nat (64 + filename_length header)) buf |}.
Proof.
  intros Hlt H header.
  destruct (Z.ltb_spec (size buf) 64) as [Hsmall|Hbig].
  { rewrite deserialize_image_too_small in H by exact Hsmall. discriminate. }
  rewrite deserialize_image_unfold in H by exact Hbig. cbv zeta in H.
  fold header in H.
  pose proof (header_of_bytes_range (firstn 64 buf)) as R. cbv zeta in R.
  fold header in R. destruct R as (_ & _ & Rps & _ & _ & _ & _ & Rfl).
  destruct (magic header =? MESSAGE_MAGIC) eqn:Em; [|discriminate].
  destruct (type header =? MessageType_value IMAGE) eqn:Et; [|discriminate].
  destruct (size buf =? wrap64 (64 + payload_size header)) eqn:Es;
    [|discriminate].
  destruct (64 + filename_length header >? size buf) eqn:Ef; [discriminate|].
  cbn [negb] in H. injection H as <-.
  apply Z.eqb_eq in Em, Et, Es. apply gtb_false_le in Ef.
  apply expected_size_exact in Es; [|lia|lia].
  repeat split; try assumption; lia.
Qed.

(** X5.  Decoding, then encoding: when the frame decoder accepts a buffer,
    encoding the frame it returns gives the buffer back, but for the header's
    24 reserved bytes, which the encoder always writes as zeros.  So two
    buffers that decode to the same frame differ in their reserved bytes at
    most, and the frame returned is one the encoder round-trips. *)
Theorem serialize_deserialize_image (buf : list byte) (img : ImageData) :
  size buf < 2 ^ 64 ->
  Serializer.deserialize_image buf = Ok img ->
  Serializer.serialize_image img =
    firstn 40 buf ++ repeat Byte.x00 24 ++ skipn 64 buf /\
  valid_image img.
Proof.
  intros Hlt H.
  destruct (deserialize_image_Ok buf img Hlt H)
    as (Hbig & Hm & Ht & Hps & Hfl & ->).
  set (header := header_of_bytes (firstn 64 buf)) in *.
  pose proof (header_of_bytes_range (firstn 64 buf)) as R. cbv zeta in R.
  fold header in R.
  destruct R as (_ & _ & Rps & Rts & Rw & Rh & Rc & Rfl).
  set (fl := filename_length header) in *.
  assert (Hlen : (64 <= length buf)%nat) by (unfold size in Hbig; lia).
  assert (Hname : size (firstn (Z.to_nat fl) (skipn 64 buf)) = fl).
  { unfold size in *. rewrite length_firstn, length_skipn. lia. }
  assert (Hrest : size (skipn (Z.to_nat (64 + fl)) buf) =
                  size buf - 64 - fl).
  { unfold size in *. rewrite length_skipn. lia. }
  split.
  - rewrite serialize_image_eq.
    cbn [filename data img_width img_height img_channels img_timestamp].
    rewrite string_size_of_list_byte, list_byte_of_string_of_list_byte.
    rewrite Hname, Hrest.
    rewrite (wrap32_small fl) by lia.
    replace (fl + (size buf - 64 - fl)) with (size buf - 64) by ring.
    rewrite (wrap64_small (size buf - 64)) by lia.
    rewrite <- Hm, <- Ht, <- Hps. fold fl.
    unfold header_bytes.
    cbn [magic type payload_size timestamp width height channels
         filename_length reserved].
    pose proof (members_of_header (firstn 64 buf)) as Hmem. cbv zeta in Hmem.
    fold header in Hmem.
    rewrite length_firstn in Hmem. specialize (Hmem ltac:(lia)).
    rewrite firstn_firstn in Hmem.
    replace (Nat.min 40 64) with 40%nat in Hmem by reflexivity.
    fold fl in Hmem.
    rewrite <- Hmem.
    repeat rewrite <- app_assoc.
    do 8 f_equal.
    replace (firstn 24 (repeat Byte.x00 24 ++ repeat Byte.x00 24))
      with (repeat Byte.x00 24) by reflexivity.
    f_equal.
    replace (Z.to_nat (64 + fl)) with (Z.to_nat fl + 64)%nat by lia.
    rewrite <- skipn_skipn. apply firstn_skipn.
  - unfold valid_image.
    cbn [filename data img_width img_height img_channels img_timestamp].
    rewrite string_size_of_list_byte, Hname, Hrest.
    repeat split; lia.
Qed.

Lemma serialize_deserialize_image_witness :
  Serializer.serialize_image sample_image =
    firstn 40 (Serializer.serialize_image sample_image) ++
    repeat Byte.x00 24 ++
    skipn 64 (Serializer.serialize_image sample_image) /\
  valid_image sample_image.
Proof.
  apply (serialize_deserialize_image
           (Serializer.serialize_image sample_image) sample_image).
  - vm_compute. reflexivity.
  - vm_compute. reflexivity.
Defined.

(** ** When the enriched decoder rejects *)

Lemma le_combine_firstn4_range (l : list byte) :
  0 <= le_combine (firstn 4 l) < 2 ^ 32.
Proof.
  change (2 ^ 32) with (2 ^ (8 * Z.of_nat 4)).
  apply le_combine_range. rewrite length_firstn. lia.
Qed.

Ltac decided :=
  repeat match goal with
         | H : negb _ = true |- _ => apply negb_true_iff in H
         | H : negb _ = false |- _ => apply negb_false_iff in H
         | H : (_ =? _) = true |- _ => apply Z.eqb_eq in H
         | H : (_ =? _) = false |- _ => apply Z.eqb_neq in H
         | H : (_ >? _) = true |- _ => apply gtb_true_gt in H
         | H : (_ >? _) = false |- _ => apply gtb_false_le in H
         end.

(** X6.  The enriched decoder fails, with a [SerializationError], exactly
    when the buffer has fewer than 64 bytes, a wrong magic constant, a kind
    tag other than IMAGE_WITH_FEATURES, or ends before one of the places the
    decoder reads: the filename, [width * height * channels] payload bytes
    (the product taken in 32 bits), the keypoint count and that many 28-byte
    keypoints, the descriptor count and that many 4-byte values.  Otherwise
    it returns a value.  Bytes after the last descriptor, and the header's
    declared [payload_size], are not looked at. *)
Theorem deserialize_image_with_features_fails_iff_violation
    (buf : list byte) :
  ((exists msg,
       Serializer.deserialize_image_with_features buf =
       Throw (SerializationError msg))
   <-> enriched_violation buf) /\
  ((exists x, Serializer.deserialize_image_with_features buf = Ok x)
   <-> ~ enriched_violation buf).
Proof.
  destruct (Z.ltb_spec (size buf) 64) as [Hsmall|Hbig].
  { rewrite deserialize_image_with_features_too_small by exact Hsmall.
    unfold enriched_violation.
    split; split;
      [ intros _; tauto
      | intros _; eexists; reflexivity
      | intros [? H]; discriminate H
      | intros H; exfalso; apply H; tauto ]. }
  rewrite deserialize_image_with_features_unfold by exact Hbig.
  unfold enriched_violation. cbv zeta.
  set (header := header_of_bytes (firstn 64 buf)).
  pose proof (header_of_bytes_range (firstn 64 buf)) as R. cbv zeta in R.
  fold header in R. destruct R as (_ & _ & _ & _ & _ & _ & _ & Rfl).
  set (o1 := 64 + filename_length header).
  pose proof (wrap32_range
                (wrap32 (width header * height header) * channels header))
    as Rpix.
  set (o2 := o1 + wrap32 (wrap32 (width header * height header) *
                          channels header)) in *.
  pose proof (le_combine_firstn4_range (skipn (Z.to_nat o2) buf)) as Rkc.
  set (kc := le_combine (firstn 4 (skipn (Z.to_nat o2) buf))) in *.
  set (o3 := o2 + 4 + kc * 28) in *.
  pose proof (le_combine_firstn4_range (skipn (Z.to_nat o3) buf)) as Rdc.
  set (dc := le_combine (firstn 4 (skipn (Z.to_nat o3) buf))) in *.
  assert (Ho : o1 <= o2 /\ o2 + 4 <= o3 /\ 0 <= dc * 4)
    by (unfold o1, o2, o3 in *; lia).
  repeat match goal with
         | |- context [if ?c then _ else _] => destruct c eqn:?
         end;
    decided;
    (split; split; intros H0;
     first [ destruct H0 as [? H0]; discriminate H0
           | eexists; reflexivity
           | lia
           | exfalso; lia ]).
Qed.

Lemma member_firstn bs k off n :
  (off + n <= k)%nat -> member (firstn k bs) off n = member bs off n.
Proof.
  intros H. unfold member. rewrite skipn_firstn_comm, firstn_firstn.
  f_equal. lia.
Qed.

(** Two buffers that agree outside the header's [payload_size] member. *)
Lemma deserialize_image_with_features_ext (X Y : list byte) :
  64 <= size X -> size X = size Y ->
  (forall off n, (off + n <= 8 \/ 16 <= off)%nat ->
                 member X off n = member Y off n) ->
  (forall n, (64 <= n)%nat -> skipn n X = skipn n Y) ->
  Serializer.deserialize_image_with_features X =
  Serializer.deserialize_image_with_features Y.
Proof.
  intros HX Hsize Hmem Hskip.
  rewrite (deserialize_image_with_features_unfold X) by lia.
  rewrite (deserialize_image_with_features_unfold Y) by lia.
  cbv zeta.
  assert (Hf : forall off n, (off + n <= 8 \/ 16 <= off)%nat ->
                             (off + n <= 64)%nat ->
               member (firstn 64 X) off n = member (firstn 64 Y) off n).
  { intros off n H1 H2. rewrite !member_firstn by lia. apply Hmem, H1. }
  pose proof (header_of_bytes_range (firstn 64 Y)) as R. cbv zeta in R.
  destruct R as (_ & _ & _ & _ & _ & _ & _ & Rfl).
  assert (Em : magic (header_of_bytes (firstn 64 X)) =
               magic (header_of_bytes (firstn 64 Y)))
    by (unfold header_of_bytes; cbn [magic]; rewrite Hf by lia; reflexivity).
  assert (Et : type (header_of_bytes (firstn 64 X)) =
               type (header_of_bytes (firstn 64 Y)))
    by (unfold header_of_bytes; cbn [type]; rewrite Hf by lia; reflexivity).
  assert (Ets : timestamp (header_of_bytes (firstn 64 X)) =
                timestamp (header_of_bytes (firstn 64 Y)))
    by (unfold header_of_bytes; cbn [timestamp]; rewrite Hf by lia;
        reflexivity).
  assert (Ew : width (header_of_bytes (firstn 64 X)) =
               width (header_of_bytes (firstn 64 Y)))
    by (unfold header_of_bytes; cbn [width]; rewrite Hf by lia; reflexivity).
  assert (Eh : height (header_of_bytes (firstn 64 X)) =
               height (header_of_bytes (firstn 64 Y)))
    by (unfold header_of_bytes; cbn [height]; rewrite Hf by lia;
        reflexivity).
  assert (Ec : channels (header_of_bytes (firstn 64 X)) =
               channels (header_of_bytes (firstn 64 Y)))
    by (unfold header_of_bytes; cbn [channels]; rewrite Hf by lia;
        reflexivity).
  assert (Efl : filename_length (header_of_bytes (firstn 64 X)) =
                filename_length (header_of_bytes (firstn 64 Y)))
    by (unfold header_of_bytes; cbn [filename_length]; rewrite Hf by lia;
        reflexivity).
  rewrite Em, Et, Ets, Ew, Eh, Ec, Efl, Hsize.
  set (hY := header_of_bytes (firstn 64 Y)) in *.
  set (o1 := 64 + filename_length hY).
  pose proof (wrap32_range (wrap32 (width hY * height hY) * channels hY))
    as Rpix.
  set (o2 := o1 + wrap32 (wrap32 (width hY * height hY) * channels hY)) in *.
  rewrite (Hskip 64%nat) by lia.
  rewrite (Hskip (Z.to_nat o1)) by (unfold o1; lia).
  rewrite (Hskip (Z.to_nat o2)) by (unfold o2, o1; lia).
  rewrite (Hskip (Z.to_nat (o2 + 4))) by (unfold o2, o1; lia).
  pose proof (le_combine_firstn4_range (skipn (Z.to_nat o2) Y)) as Rkc.
  set (kc := le_combine (firstn 4 (skipn (Z.to_nat o2) Y))) in *.
  rewrite (Hskip (Z.to_nat (o2 + 4 + kc * 28))) by (unfold o2, o1; lia).
  rewrite (Hskip (Z.to_nat (o2 + 4 + kc * 28 + 4)))
    by (unfold o2, o1; lia).
  reflexivity.
Qed.

Lemma length_with_payload_size p buf :
  (16 <= length buf)%nat ->
  length (with_payload_size p buf) = length buf.
Proof.
  intros H. unfold with_payload_size.
  rewrite !length_app, length_firstn, length_le_split, length_skipn. lia.
Qed.

Lemma skipn_with_payload_size p buf n :
  (16 <= length buf)%nat -> (16 <= n)%nat ->
  skipn n (with_payload_size p buf) = skipn n buf.
Proof.
  intros Hb Hn. unfold with_payload_size.
  rewrite skipn_app, skipn_all2 by (rewrite length_firstn; lia).
  rewrite length_firstn, app_nil_l.
  rewrite skipn_app, skipn_all2 by (rewrite length_le_split; lia).
  rewrite length_le_split, app_nil_l, skipn_skipn.
  f_equal. lia.
Qed.

Lemma member_with_payload_size p buf off n :
  (16 <= length buf)%nat -> (off + n <= 8 \/ 16 <= off)%nat ->
  member (with_payload_size p buf) off n = member buf off n.
Proof.
  intros Hb [Hlow|Hhigh].
  - unfold member, with_payload_size.
    rewrite skipn_app, firstn_app.
    rewrite length_skipn, length_firstn.
    replace (n - (Nat.min 8 (length buf) - off))%nat with 0%nat by lia.
    rewrite firstn_O, app_nil_r, skipn_firstn_comm, firstn_firstn.
    f_equal. lia.
  - unfold member. rewrite skipn_with_payload_size by lia. reflexivity.
Qed.

(** X7.  The enriched decoder never consults the declared payload size:
    replacing the header's [payload_size] member by any other value changes
    neither whether the buffer is accepted nor what is returned. *)
Theorem payload_size_is_ignored (p : Z) (buf : list byte) :
  64 <= size buf ->
  Serializer.deserialize_image_with_features (with_payload_size p buf) =
  Serializer.deserialize_image_with_features buf.
Proof.
  intros H.
  assert (Hb : (16 <= length buf)%nat) by (unfold size in H; lia).
  apply deserialize_image_with_features_ext.
  - unfold size. rewrite length_with_payload_size by exact Hb. exact H.
  - unfold size. rewrite length_with_payload_size by exact Hb. reflexivity.
  - intros off n Hoff. apply member_with_payload_size; assumption.
  - intros n Hn. apply skipn_with_payload_size; lia.
Qed.

Lemma payload_size_is_ignored_witness :
  Serializer.deserialize_image_with_features
    (with_payload_size 0
       (Serializer.serialize_image_with_features raw_enriched)) =
  Ok raw_enriched.
Proof.
  rewrite (payload_size_is_ignored 0
             (Serializer.serialize_image_with_features raw_enriched))
    by (vm_compute; discriminate).
  vm_compute. reflexivity.
Defined.

(** ** Publishing, then receiving *)

Lemma serialize_image_not_empty image :
  Serializer.serialize_image image <> [].
Proof.
  intros H. pose proof (size_serialize_image image) as Hs.
  rewrite H, size_nil in Hs.
  assert (0 <= string_size (filename image)) by (unfold string_size; lia).
  pose proof (size_nonneg (data image)). lia.
Qed.

Lemma serialize_image_with_features_not_empty x :
  Serializer.serialize_image_with_features x <> [].
Proof.
  intros H. pose proof (size_serialize_image_with_features_ge x) as Hs.
  rewrite H, size_nil in Hs. lia.
Qed.

Lemma send_bytes_not_empty ext tk bytes queue :
  bytes <> [] -> send_errno tk = None ->
  Publisher.send_bytes ext tk bytes queue = (Ok tt, queue ++ [bytes]).
Proof.
  intros Hne Hsend. unfold Publisher.send_bytes.
  destruct bytes as [|b bs]; [contradiction|].
  rewrite Hsend. reflexivity.
Qed.

Lemma receive_message ext tk bytes :
  msg_init_rc tk = 0 -> recv tk = zmq.Message bytes ->
  Subscriber.receive ext tk = Ok bytes.
Proof.
  intros Hinit Hrecv. unfold Subscriber.receive.
  rewrite Hinit, Hrecv. reflexivity.
Qed.

(** X8.  What is published is what is received.  [Publisher::send] of a
    frame hands exactly one message to the socket (an encoded message is
    never refused as empty), and [Subscriber::receive_image] on a socket
    that delivers that message returns the frame that was sent; the same
    holds for enriched frames whose payload is raw pixels. *)
Theorem published_is_received (ext : Externals) (tk tk' : tick)
    (queue : list (list byte)) :
  send_errno tk = None ->
  msg_init_rc tk' = 0 ->
  (forall image : ImageData,
      valid_image image ->
      exists message,
        Publisher.send_image ext tk image queue =
          (Ok tt, queue ++ [message]) /\
        (recv tk' = zmq.Message message ->
         Subscriber.receive_image ext tk' = Ok image)) /\
  (forall x : ImageWithFeatures,
      valid_image_with_features x ->
      payload_is_raw_pixels x ->
      exists message,
        Publisher.send_image_with_features ext tk x queue =
          (Ok tt, queue ++ [message]) /\
        (recv tk' = zmq.Message message ->
         Subscriber.receive_image_with_features ext tk' = Ok x)).
Proof.
  intros Hsend Hinit. split.
  - intros image Hv. exists (Serializer.serialize_image image). split.
    + unfold Publisher.send_image.
      apply send_bytes_not_empty;
        [apply serialize_image_not_empty | exact Hsend].
    + intros Hrecv. unfold Subscriber.receive_image.
      rewrite (receive_message ext tk' _ Hinit Hrecv). cbn [bind].
      pose proof (serialize_image_not_empty image) as Hne.
      destruct (Serializer.serialize_image image) eqn:E; [contradiction|].
      rewrite <- E. apply deserialize_serialize_image, Hv.
  - intros x Hv Hraw.
    exists (Serializer.serialize_image_with_features x). split.
    + unfold Publisher.send_image_with_features.
      apply send_bytes_not_empty;
        [apply serialize_image_with_features_not_empty | exact Hsend].
    + intros Hrecv. unfold Subscriber.receive_image_with_features.
      rewrite (receive_message ext tk' _ Hinit Hrecv). cbn [bind].
      pose proof (serialize_image_with_features_not_empty x) as Hne.
      destruct (Serializer.serialize_image_with_features x) eqn:E;
        [contradiction|].
      rewrite <- E.
      apply deserialize_serialize_image_with_features; assumption.
Qed.

Lemma published_is_received_witness :
  exists message,
    Publisher.send_image sample_ext timeout_tick sample_image [] =
      (Ok tt, [message]) /\
    (recv frame_tick = zmq.Message message ->
     Subscriber.receive_image sample_ext frame_tick = Ok sample_image).
Proof.
  apply (proj1 (published_is_received sample_ext timeout_tick frame_tick []
                  eq_refl eq_refl) sample_image).
  unfold valid_image. cbn. lia.
Defined.

Lemma receive_image_of_serialized ext tk image :
  valid_image image ->
  msg_init_rc tk = 0 ->
  recv tk = zmq.Message (Serializer.serialize_image image) ->
  Subscriber.receive_image ext tk = Ok image.
Proof.
  intros Hv Hinit Hrecv. unfold Subscriber.receive_image.
  rewrite (receive_message ext tk _ Hinit Hrecv). cbn [bind].
  pose proof (serialize_image_not_empty image) as Hne.
  destruct (Serializer.serialize_image image) eqn:E; [contradiction|].
  rewrite <- E. apply deserialize_serialize_image, Hv.
Qed.

Lemma receive_image_with_features_of_serialized ext tk x :
  valid_image_with_features x -> payload_is_raw_pixels x ->
  msg_init_rc tk = 0 ->
  recv tk = zmq.Message (Serializer.serialize_image_with_features x) ->
  Subscriber.receive_image_with_features ext tk = Ok x.
Proof.
  intros Hv Hraw Hinit Hrecv. unfold Subscriber.receive_image_with_features.
  rewrite (receive_message ext tk _ Hinit Hrecv). cbn [bind].
  pose proof (serialize_image_with_features_not_empty x) as Hne.
  destruct (Serializer.serialize_image_with_features x) eqn:E;
    [contradiction|].
  rewrite <- E. apply deserialize_serialize_image_with_features; assumption.
Qed.

(** ** Messages the stages skip *)

Lemma FeatureExtractor_iteration_skips ext tk image st :
  Subscriber.receive_image ext tk = Ok image ->
  empty image = true ->
  FeatureExtractor.iteration ext tk st = (Ok tt, st).
Proof.
  intros Hr He. unfold FeatureExtractor.iteration, try_catch, bindM, lift.
  rewrite Hr, He. reflexivity.
Qed.

Lemma DataLogger_iteration_skips ext tk x st :
  Subscriber.receive_image_with_features ext tk = Ok x ->
  empty (image x) = true ->
  DataLogger.iteration ext tk st = (Ok tt, st).
Proof.
  intros Hr He. unfold DataLogger.iteration, try_catch, bindM, lift.
  rewrite Hr, He. reflexivity.
Qed.

(** X9.  A message with an empty payload leaves no trace.  Both stages
    treat a decoded value whose payload is empty as a receive timeout: a
    well-formed frame with no payload bytes is neither processed nor
    published by the feature extractor, and a well-formed enriched frame
    with no payload bytes is not stored by the data logger, even when it
    carries keypoints and descriptors; nothing is counted and nothing is
    written to the error stream.  A zero-length datagram is skipped in the
    same way.  So is every datagram, however it was made, that the stage's
    decoder accepts and decodes to a value with no payload bytes. *)
Theorem empty_payload_is_skipped (ext : Externals) (tk : tick) :
  msg_init_rc tk = 0 ->
  (forall image st,
      valid_image image -> data image = [] ->
      recv tk = zmq.Message (Serializer.serialize_image image) ->
      FeatureExtractor.iteration ext tk st = (Ok tt, st)) /\
  (forall x st,
      valid_image_with_features x -> payload_is_raw_pixels x ->
      data (image x) = [] ->
      recv tk = zmq.Message (Serializer.serialize_image_with_features x) ->
      DataLogger.iteration ext tk st = (Ok tt, st)) /\
  (forall fe dl,
      recv tk = zmq.Message [] ->
      FeatureExtractor.iteration ext tk fe = (Ok tt, fe) /\
      DataLogger.iteration ext tk dl = (Ok tt, dl)) /\
  (forall bytes image st,
      recv tk = zmq.Message bytes ->
      Serializer.deserialize_image bytes = Ok image ->
      data image = [] ->
      FeatureExtractor.iteration ext tk st = (Ok tt, st)) /\
  (forall bytes x st,
      recv tk = zmq.Message bytes ->
      Serializer.deserialize_image_with_features bytes = Ok x ->
      data (image x) = [] ->
      DataLogger.iteration ext tk st = (Ok tt, st)).
Proof.
  intros Hinit. split; [|split; [|split; [|split]]].
  - intros image st Hv Hd Hrecv.
    apply (FeatureExtractor_iteration_skips ext tk image).
    + apply receive_image_of_serialized; assumption.
    + unfold empty. rewrite Hd. reflexivity.
  - intros x st Hv Hraw Hd Hrecv.
    apply (DataLogger_iteration_skips ext tk x).
    + apply receive_image_with_features_of_serialized; assumption.
    + unfold empty. rewrite Hd. reflexivity.
  - intros fe dl Hrecv. split.
    + apply (FeatureExtractor_iteration_skips ext tk ImageData_default).
      * unfold Subscriber.receive_image.
        rewrite (receive_message ext tk _ Hinit Hrecv). reflexivity.
      * reflexivity.
    + apply (DataLogger_iteration_skips ext tk ImageWithFeatures_default).
      * unfold Subscriber.receive_image_with_features.
        rewrite (receive_message ext tk _ Hinit Hrecv). reflexivity.
      * reflexivity.
  - intros bytes image st Hrecv Hdec Hd.
    apply (FeatureExtractor_iteration_skips ext tk image).
    + unfold Subscriber.receive_image.
      rewrite (receive_message ext tk _ Hinit Hrecv). cbn [bind].
      destruct bytes as [|b bs]; [|exact Hdec].
      rewrite deserialize_image_too_small in Hdec
        by (rewrite size_nil; lia).
      discriminate Hdec.
    + unfold empty. rewrite Hd. reflexivity.
  - intros bytes x st Hrecv Hdec Hd.
    apply (DataLogger_iteration_skips ext tk x).
    + unfold Subscriber.receive_image_with_features.
      rewrite (receive_message ext tk _ Hinit Hrecv). cbn [bind].
      destruct bytes as [|b bs]; [|exact Hdec].
      rewrite deserialize_image_with_features_too_small in Hdec
        by (rewrite size_nil; lia).
      discriminate Hdec.
    + unfold empty. rewrite Hd. reflexivity.
Qed.

Lemma empty_payload_is_skipped_witness :
  DataLogger.iteration sample_ext features_only_tick (sample_logger []) =
  (Ok tt, sample_logger []).
Proof.
  apply (proj1 (proj2 (empty_payload_is_skipped sample_ext features_only_tick
                         eq_refl)) features_only (sample_logger [])).
  - unfold valid_image_with_features, valid_image. cbn.
    repeat split; try lia;
      repeat constructor; unfold valid_float; cbn; lia.
  - reflexivity.
  - reflexivity.
  - reflexivity.
Defined.

(** ** What the feature extractor publishes *)

(** One iteration, exactly: the input is transformed or it is not; if it
    is, the image is counted, and its encoding is handed to the socket
    unless the send fails. *)
Lemma FeatureExtractor_iteration_exact ext tk st :
  exists st',
    FeatureExtractor.iteration ext tk st = (Ok tt, st') /\
    FeatureExtractor.running_ st' = FeatureExtractor.running_ st /\
    match transformed ext tk with
    | None =>
        FeatureExtractor.publisher_ st' = FeatureExtractor.publisher_ st /\
        FeatureExtractor.images_processed_ st' =
          FeatureExtractor.images_processed_ st
    | Some result =>
        FeatureExtractor.publisher_ st' =
          FeatureExtractor.publisher_ st ++
          match send_errno tk with
          | None => [Serializer.serialize_image_with_features result]
          | Some _ => []
          end /\
        FeatureExtractor.images_processed_ st' =
          wrap64 (FeatureExtractor.images_processed_ st + 1)
    end.
Proof.
  unfold FeatureExtractor.iteration, transformed, try_catch, bindM, lift.
  pose proof (receive_image_in_bounds ext tk) as Hin.
  destruct (Subscriber.receive_image ext tk) as [image|e|];
    [| |contradiction].
  2:{ eexists. split; [reflexivity|]. split; [reflexivity|].
      split; reflexivity. }
  destruct (empty image) eqn:He.
  { eexists. split; [reflexivity|]. split; [reflexivity|].
    split; reflexivity. }
  pose proof (process_image_in_bounds ext image) as Hp.
  destruct (FeatureExtractor.process_image ext image) as [r|e|];
    [| |contradiction].
  2:{ eexists. split; [reflexivity|]. split; [reflexivity|].
      split; reflexivity. }
  unfold modify, zoom, Publisher.send_image_with_features,
    Publisher.send_bytes.
  pose proof (serialize_image_with_features_not_empty r) as Hne.
  destruct (Serializer.serialize_image_with_features r) as [|b bs] eqn:E;
    [contradiction|].
  destruct (send_errno tk) as [err|].
  - eexists. split; [reflexivity|]. split; [reflexivity|].
    cbn. rewrite app_nil_r. split; reflexivity.
  - eexists. split; [reflexivity|]. split; [reflexivity|].
    cbn. split; reflexivity.
Qed.

(** X10.  The feature extractor publishes no more than it counts.  Over any
    run of its loop the socket receives only encoded enriched frames, one at
    most per iteration, appended in order to what was sent before, and
    [images_processed_] advances by the number of images processed, which
    is at least the number of messages sent: an image whose send fails has
    been counted already.  Exactly: a running extractor counts the inputs
    before the first stop request that decode to a frame with a payload
    which the transform accepts, and publishes the encodings of the enriched
    frames made of them, in order, leaving out those whose send fails. *)
Theorem extractor_counts_what_it_publishes (ext : Externals)
    (env : list tick) (st : FeatureExtractor.t) :
  0 <= FeatureExtractor.images_processed_ st < 2 ^ 64 ->
  exists st' messages n,
    FeatureExtractor.run_loop ext env st = (Ok tt, st') /\
    FeatureExtractor.publisher_ st' =
      FeatureExtractor.publisher_ st ++ messages /\
    (length messages <= n <= length env)%nat /\
    FeatureExtractor.images_processed_ st' =
      wrap64 (FeatureExtractor.images_processed_ st + Z.of_nat n) /\
    Forall (fun m => exists x,
                m = Serializer.serialize_image_with_features x) messages /\
    (FeatureExtractor.running_ st = true ->
     n = length (processed ext (before_stop env)) /\
     messages = published ext (before_stop env)).
Proof.
  revert st. induction env as [|tk rest IH]; intros st Hrange.
  - exists st, [], 0%nat. cbn [FeatureExtractor.run_loop ret].
    rewrite app_nil_r, Z.add_0_r, wrap64_small by exact Hrange.
    repeat split; auto.
  - cbn [FeatureExtractor.run_loop before_stop].
    destruct (stop_requested tk) eqn:Estop.
    { exists (FeatureExtractor.stop st), [], 0%nat.
      cbn [FeatureExtractor.stop FeatureExtractor.set_running
             FeatureExtractor.running_ FeatureExtractor.publisher_
             FeatureExtractor.images_processed_ length].
      rewrite app_nil_r, Z.add_0_r, wrap64_small by exact Hrange.
      repeat split; auto; lia. }
    destruct (FeatureExtractor.running_ st) eqn:Erun.
    2:{ exists st, [], 0%nat.
        rewrite app_nil_r, Z.add_0_r, wrap64_small by exact Hrange.
        cbn [length]. repeat split; auto; try lia; discriminate. }
    unfold bindM.
    destruct (FeatureExtractor_iteration_exact ext tk st)
      as (st2 & E & Hrun2 & Hexact).
    rewrite E.
    assert (Hstep : exists ms k,
               FeatureExtractor.publisher_ st2 =
                 FeatureExtractor.publisher_ st ++ ms /\
               (length ms <= k <= 1)%nat /\
               FeatureExtractor.images_processed_ st2 =
                 wrap64 (FeatureExtractor.images_processed_ st +
                         Z.of_nat k) /\
               Forall (fun m => exists x,
                           m = Serializer.serialize_image_with_features x)
                      ms /\
               k = length (processed ext [tk]) /\
               ms = published ext [tk]).
    { unfold processed, published. cbn [flat_map].
      destruct (transformed ext tk) as [r|].
      - destruct Hexact as [Hp Hi].
        destruct (send_errno tk) as [err|].
        + exists [], 1%nat. rewrite Hp, Hi. cbn [length app].
          repeat split; auto.
        + exists [Serializer.serialize_image_with_features r], 1%nat.
          rewrite Hp, Hi. cbn [length app]. repeat split; auto.
          constructor; [exists r; reflexivity | constructor].
      - destruct Hexact as [Hp Hi].
        exists [], 0%nat.
        rewrite app_nil_r, Z.add_0_r, Hp, Hi, wrap64_small by exact Hrange.
        cbn [length app]. repeat split; auto. }
    destruct Hstep as (ms & k & Hp2 & Hk & Hi2 & Hms & Hk' & Hms').
    destruct (IH st2)
      as (st' & ms' & n & Erun' & Hp' & Hn & Hi' & Hall & Hexact').
    { rewrite Hi2. apply wrap64_range. }
    exists st', (ms ++ ms'), (k + n)%nat.
    split; [exact Erun'|].
    split; [rewrite Hp', Hp2, app_assoc; reflexivity|].
    split; [rewrite length_app; cbn [length]; lia|].
    split.
    { rewrite Hi', Hi2. unfold wrap64.
      rewrite Z.add_mod_idemp_l by lia. f_equal. lia. }
    split; [apply Forall_app; split; assumption|].
    intros _. destruct Hexact' as [Hn' Hm']; [congruence|].
    change (tk :: before_stop rest) with ([tk] ++ before_stop rest).
    unfold processed, published in *.
    rewrite !flat_map_app, length_app.
    split; congruence.
Qed.

Lemma extractor_counts_what_it_publishes_witness :
  exists st' messages n,
    FeatureExtractor.run_loop sample_ext
      [frame_tick; garbage_tick; timeout_tick] sample_extractor
    = (Ok tt, st') /\
    FeatureExtractor.publisher_ st' =
      FeatureExtractor.publisher_ sample_extractor ++ messages /\
    (length messages <= n <= 3)%nat /\
    FeatureExtractor.images_processed_ st' =
      wrap64 (FeatureExtractor.images_processed_ sample_extractor +
              Z.of_nat n) /\
    Forall (fun m => exists x,
                m = Serializer.serialize_image_with_features x) messages /\
    (FeatureExtractor.running_ sample_extractor = true ->
     n = 1%nat /\
     messages = [Serializer.serialize_image_with_features sample_enriched]).
Proof.
  apply (extractor_counts_what_it_publishes sample_ext
           [frame_tick; garbage_tick; timeout_tick] sample_extractor).
  cbn. lia.
Defined.

(** ** What becomes of a message the data logger receives *)

(** X11.  No message is lost silently by the data logger, except one with
    an empty payload.  After an iteration on a connection with no open
    transaction: if receiving or decoding failed, nothing was committed and
    the error stream has one more line, which carries the error's text; if a
    value with a non-empty payload was decoded, either all its rows were
    committed and nothing was written to the error stream, or nothing was
    committed and the error stream has one more line; a value with an empty
    payload leaves the logger as it was. *)
Theorem logger_accounts_for_every_message (ext : Externals) (tk : tick)
    (st : DataLogger.t) :
  sqlite.txn (DataLogger.db_ st) = None ->
  exists st',
    DataLogger.iteration ext tk st = (Ok tt, st') /\
    match Subscriber.receive_image_with_features ext tk with
    | Throw e =>
        sqlite.committed (DataLogger.db_ st') =
          sqlite.committed (DataLogger.db_ st) /\
        DataLogger.cerr st' =
          DataLogger.cerr st ++ [("Error logging data: " ++ what e)%string]
    | Ok x =>
        if empty (image x) then st' = st
        else
          (sqlite.committed (DataLogger.db_ st') =
             stored x (sqlite.committed (DataLogger.db_ st)) /\
           DataLogger.cerr st' = DataLogger.cerr st) \/
          (sqlite.committed (DataLogger.db_ st') =
             sqlite.committed (DataLogger.db_ st) /\
           exists e,
             DataLogger.cerr st' =
               DataLogger.cerr st ++
               [("Error logging data: " ++ what e)%string])
    | OutOfBounds => False
    end.
Proof.
  intros Hnone.
  unfold DataLogger.iteration, try_catch, bindM, lift.
  pose proof (receive_image_with_features_in_bounds ext tk) as Hin.
  destruct (Subscriber.receive_image_with_features ext tk) as [x|e|];
    [| |contradiction].
  2:{ eexists. split; [reflexivity|]. split; reflexivity. }
  destruct (empty (image x)) eqn:He.
  { eexists. split; [reflexivity|]. reflexivity. }
  pose proof (store_outcomes ext x st Hnone st eq_refl) as H.
  destruct (DataLogger.store_image_with_features ext x st)
    as [[[]|e|] s1]; [| |contradiction].
  - destruct H as (_ & Hcerr & Hcom & _).
    eexists. split; [reflexivity|]. left. split; assumption.
  - destruct H as [[_ (_ & _ & _ & Hcerr & Hcom)] _].
    eexists. split; [reflexivity|]. right.
    split; [exact Hcom|]. exists e. cbn. rewrite Hcerr. reflexivity.
Qed.

Lemma logger_accounts_for_every_message_witness :
  exists st',
    DataLogger.iteration sample_ext garbage_tick (sample_logger []) =
      (Ok tt, st') /\
    sqlite.committed (DataLogger.db_ st') = empty_tables /\
    DataLogger.cerr st' =
      ["Error logging data: Data too small to contain header"%string].
Proof.
  destruct (logger_accounts_for_every_message sample_ext garbage_tick
              (sample_logger []) eq_refl) as (st' & E & H).
  exists st'. split; [exact E|]. exact H.
Defined.

(** ** The rows a store writes *)

Lemma c_str_NUL_free s : NUL_free s -> c_str s = s.
Proof.
  unfold NUL_free. induction s as [|c s IH]; cbn [c_str list_ascii_of_string].
  - reflexivity.
  - intros H. inversion H as [|? ? Hc Hs]; subst.
    destruct (Ascii.eqb c Ascii.zero) eqn:E.
    + apply Ascii.eqb_eq in E. contradiction.
    + rewrite IH by exact Hs. reflexivity.
Qed.

Lemma signed32_small z : 0 <= z < 2 ^ 31 -> signed32 z = z.
Proof.
  intros H. rewrite <- (wrap32_small z) at 1 by lia.
  apply signed32_wrap. lia.
Qed.

Lemma signed64_small z : 0 <= z < 2 ^ 63 -> signed64 z = z.
Proof.
  intros H. unfold signed64. rewrite wrap64_small by lia.
  replace (z <? 2 ^ 63) with true by (symmetry; apply Z.ltb_lt; lia).
  reflexivity.
Qed.

Lemma apply_keypoint_rows image_id kps :
  forall tb,
    let tb' := apply_statements
                 (map (DataLogger.insert_keypoint_stmt image_id) kps) tb in
    sqlite.keypoints tb' =
      sqlite.keypoints tb ++
      keypoint_rows image_id (sqlite.keypoints_seq tb + 1) kps /\
    sqlite.images tb' = sqlite.images tb /\
    sqlite.descriptors tb' = sqlite.descriptors tb /\
    sqlite.images_seq tb' = sqlite.images_seq tb /\
    sqlite.descriptors_seq tb' = sqlite.descriptors_seq tb.
Proof.
  induction kps as [|kp rest IH]; intros tb; cbn [map keypoint_rows].
  - cbn. rewrite app_nil_r. repeat split.
  - rewrite apply_statements_cons. cbv zeta in IH.
    destruct (IH (fst (sqlite.insert
                         (DataLogger.insert_keypoint_stmt image_id kp) tb)))
      as (Hk & Hi & Hd & His & Hds).
    cbv zeta. rewrite Hk, Hi, Hd, His, Hds.
    cbn [DataLogger.insert_keypoint_stmt sqlite.insert fst sqlite.keypoints
         sqlite.images sqlite.descriptors sqlite.images_seq
         sqlite.descriptors_seq sqlite.keypoints_seq].
    rewrite <- app_assoc. repeat split.
Qed.

(** The tables after every row of a message has been added. *)
Lemma stored_rows x c0 :
  let id := sqlite.images_seq c0 + 1 in
  sqlite.images (stored x c0) =
    sqlite.images c0 ++
    [{| sqlite.image_rowid := id;
        sqlite.row_filename := c_str (filename (image x));
        sqlite.row_timestamp := signed64 (img_timestamp (image x));
        sqlite.row_width := signed32 (img_width (image x));
        sqlite.row_height := signed32 (img_height (image x));
        sqlite.row_channels := signed32 (img_channels (image x));
        sqlite.row_image_data := data (image x);
        sqlite.row_data_size := signed32 (size (data (image x))) |}] /\
  sqlite.keypoints (stored x c0) =
    sqlite.keypoints c0 ++
    keypoint_rows id (sqlite.keypoints_seq c0 + 1) (keypoints x) /\
  sqlite.descriptors (stored x c0) =
    sqlite.descriptors c0 ++
    match descriptors x with
    | [] => []
    | ds => [{| sqlite.descriptor_rowid := sqlite.descriptors_seq c0 + 1;
                sqlite.desc_image_id := id;
                sqlite.row_descriptor_data := flat_map to_bytes ds |}]
    end.
Proof.
  cbv zeta. rewrite stored_phases.
  unfold with_descriptors, with_keypoints.
  set (id := sqlite.images_seq c0 + 1).
  destruct (apply_keypoint_rows id (keypoints x) (with_image x c0))
    as (Hk & Hi & Hd & His & Hds).
  set (w2 := apply_statements
               (map (DataLogger.insert_keypoint_stmt id) (keypoints x))
               (with_image x c0)) in *.
  destruct (descriptors x) as [|d ds];
    cbn [apply_statements fold_left DataLogger.insert_descriptors_stmt
         sqlite.insert fst sqlite.images sqlite.keypoints sqlite.descriptors];
    rewrite ?Hk, ?Hi, ?Hd, ?Hds;
    unfold with_image;
    cbn [DataLogger.insert_image_stmt sqlite.insert fst sqlite.images
         sqlite.keypoints sqlite.descriptors sqlite.keypoints_seq
         sqlite.descriptors_seq];
    rewrite ?app_nil_r; repeat split.
Qed.

(** X12.  After a store that returns, the tables hold the message.  For an
    image whose fields fit the columns they are bound to, the committed
    tables are the tables before the call with these rows appended: one
    parent row with the next image rowid and the image's filename,
    timestamp, dimensions, payload and payload size, unchanged; one row per
    keypoint, in the order of the message, with consecutive rowids, each
    referring to the parent row; and, when there are descriptors, one row
    with the descriptor values as they lie in memory. *)
Theorem stored_rows_are_the_message (ext : Externals)
    (x : ImageWithFeatures) (st st' : DataLogger.t) :
  sqlite.txn (DataLogger.db_ st) = None ->
  fits_columns (image x) ->
  DataLogger.store_image_with_features ext x st = (Ok tt, st') ->
  let c0 := sqlite.committed (DataLogger.db_ st) in
  let c1 := sqlite.committed (DataLogger.db_ st') in
  let id := sqlite.images_seq c0 + 1 in
  sqlite.images c1 =
    sqlite.images c0 ++
    [{| sqlite.image_rowid := id;
        sqlite.row_filename := filename (image x);
        sqlite.row_timestamp := img_timestamp (image x);
        sqlite.row_width := img_width (image x);
        sqlite.row_height := img_height (image x);
        sqlite.row_channels := img_channels (image x);
        sqlite.row_image_data := data (image x);
        sqlite.row_data_size := size (data (image x)) |}] /\
  sqlite.keypoints c1 =
    sqlite.keypoints c0 ++
    keypoint_rows id (sqlite.keypoints_seq c0 + 1) (keypoints x) /\
  sqlite.descriptors c1 =
    sqlite.descriptors c0 ++
    match descriptors x with
    | [] => []
    | ds => [{| sqlite.descriptor_rowid := sqlite.descriptors_seq c0 + 1;
                sqlite.desc_image_id := id;
                sqlite.row_descriptor_data := flat_map to_bytes ds |}]
    end.
Proof.
  intros Hnone (Hfn & Hts & Hw & Hh & Hc & Hsz) Hstore. cbv zeta.
  pose proof (store_outcomes ext x st Hnone st eq_refl) as H.
  rewrite Hstore in H. destruct H as (_ & _ & Hcom & _).
  rewrite Hcom.
  pose proof (stored_rows x (sqlite.committed (DataLogger.db_ st))) as R.
  cbv zeta in R. destruct R as (Ri & Rk & Rd).
  pose proof (size_nonneg (data (image x))).
  rewrite Ri, Rk, Rd.
  rewrite c_str_NUL_free, signed64_small, !signed32_small by assumption || lia.
  repeat split.
Qed.

Lemma stored_rows_are_the_message_witness :
  exists st',
    DataLogger.store_image_with_features sample_ext raw_enriched
      (sample_logger []) = (Ok tt, st') /\
    length (sqlite.images (sqlite.committed (DataLogger.db_ st'))) = 1%nat /\
    sqlite.keypoints (sqlite.committed (DataLogger.db_ st')) =
      keypoint_rows 1 1 (keypoints raw_enriched).
Proof.
  destruct (DataLogger.store_image_with_features sample_ext raw_enriched
              (sample_logger [])) as [[[]|e|] st'] eqn:E;
    try (vm_compute in E; discriminate E).
  exists st'. split; [reflexivity|].
  assert (Hfit : fits_columns (image raw_enriched)).
  { unfold fits_columns, NUL_free. cbn.
    repeat split; try lia. repeat constructor; discriminate. }
  destruct (stored_rows_are_the_message sample_ext raw_enriched
              (sample_logger []) st' eq_refl Hfit E) as (Hi & Hk & _).
  split; [rewrite Hi; reflexivity | rewrite Hk; reflexivity].
Defined.

(** ** message.cpp: what the writers append *)

Lemma writeString_eq buffer str :
  message.writeString buffer str =
  buffer ++ le_split 4 (wrap32 (string_size str)) ++ list_byte_of_string str.
Proof.
  unfold message.writeString, message.writeValue. cbn [to_bytes Pod_uint32 u32].
  rewrite <- app_assoc. reflexivity.
Qed.

Lemma writeBytes_eq buffer bytes :
  message.writeBytes buffer bytes =
  buffer ++ le_split 4 (wrap32 (size bytes)) ++ bytes.
Proof.
  unfold message.writeBytes, message.writeValue. cbn [to_bytes Pod_uint32 u32].
  rewrite <- app_assoc. reflexivity.
Qed.

Lemma fold_left_app_flat_map {A : Type} (f : list byte -> A -> list byte)
    (enc : A -> list byte) (l : list A) :
  (forall buffer a, f buffer a = buffer ++ enc a) ->
  forall buffer, fold_left f l buffer = buffer ++ flat_map enc l.
Proof.
  intros Hf. induction l as [|a l IH]; intros buffer; cbn [fold_left flat_map].
  - rewrite app_nil_r. reflexivity.
  - rewrite IH, Hf, <- app_assoc. reflexivity.
Qed.

Lemma write_keypoint_eq buffer kp :
  message.ProcessedImageMessage.write_keypoint buffer kp =
  buffer ++ message.ProcessedImageMessage.write_keypoint [] kp.
Proof.
  unfold message.ProcessedImageMessage.write_keypoint, message.writeValue.
  rewrite app_nil_l, <- !app_assoc. reflexivity.
Qed.

Lemma write_descriptor_eq buffer desc :
  message.ProcessedImageMessage.write_descriptor buffer desc =
  buffer ++ le_split 4 (wrap32 (size desc)) ++ flat_map to_bytes desc.
Proof.
  unfold message.ProcessedImageMessage.write_descriptor.
  rewrite (fold_left_app_flat_map _ to_bytes) by reflexivity.
  unfold message.writeValue. cbn [to_bytes Pod_uint32 u32].
  rewrite <- app_assoc. reflexivity.
Qed.

Lemma ImageMessage_serialize_eq m :
  message.ImageMessage.serialize m =
  (le_split 4 (wrap32 (string_size (message.ImageMessage.image_id m))) ++
   list_byte_of_string (message.ImageMessage.image_id m)) ++
  (le_split 4 (wrap32 (size (message.ImageMessage.image_data m))) ++
   message.ImageMessage.image_data m) ++
  (le_split 4 (wrap32 (string_size (message.ImageMessage.format m))) ++
   list_byte_of_string (message.ImageMessage.format m)) ++
  to_bytes (I32 (message.ImageMessage.width m)) ++
  to_bytes (I32 (message.ImageMessage.height m)) ++
  to_bytes (I64 (message.ImageMessage.timestamp m)).
Proof.
  unfold message.ImageMessage.serialize. cbv zeta.
  unfold message.writeValue.
  rewrite !writeString_eq, writeBytes_eq, app_nil_l.
  rewrite <- !app_assoc. reflexivity.
Qed.

Lemma ProcessedImageMessage_serialize_eq m :
  message.ProcessedImageMessage.serialize m =
  message.ImageMessage.serialize (as_ImageMessage m) ++
  to_bytes (I64 (message.ProcessedImageMessage.processed_timestamp m)) ++
  to_bytes (U32 (wrap32 (size (message.ProcessedImageMessage.keypoints m))))
  ++
  flat_map (message.ProcessedImageMessage.write_keypoint [])
           (message.ProcessedImageMessage.keypoints m) ++
  to_bytes
    (U32 (wrap32 (size (message.ProcessedImageMessage.descriptors m)))) ++
  flat_map (fun desc : list float =>
              le_split 4 (wrap32 (size desc)) ++ flat_map to_bytes desc)
           (message.ProcessedImageMessage.descriptors m).
Proof.
  rewrite ImageMessage_serialize_eq.
  unfold message.ProcessedImageMessage.serialize. cbv zeta.
  rewrite (fold_left_app_flat_map _ _ _ write_descriptor_eq).
  rewrite (fold_left_app_flat_map
             _ (message.ProcessedImageMessage.write_keypoint []) _
             write_keypoint_eq).
  unfold message.writeValue.
  rewrite !writeString_eq, writeBytes_eq, app_nil_l.
  unfold as_ImageMessage.
  cbn [message.ImageMessage.image_id message.ImageMessage.image_data
       message.ImageMessage.format message.ImageMessage.width
       message.ImageMessage.height message.ImageMessage.timestamp].
  rewrite <- !app_assoc. reflexivity.
Qed.

(** ** message.cpp: reading back what was written *)

Section Decodes.
Context {A B : Type}.

Lemma decodes_ret (v : A) : decodes (message.ret v) [] v.
Proof.
  intros before after. unfold message.ret.
  rewrite !app_nil_l, app_nil_r. reflexivity.
Qed.

Lemma decodes_bind (r : message.Reader A) (k : A -> message.Reader B)
    (e1 e2 : list byte) (v : A) (w : B) :
  decodes r e1 v -> decodes (k v) e2 w ->
  decodes (message.bind r k) (e1 ++ e2) w.
Proof.
  intros Hr Hk before after. unfold message.bind.
  rewrite <- (app_assoc e1 e2 after), (Hr before (e2 ++ after)).
  rewrite (app_assoc before e1 (e2 ++ after)), (Hk (before ++ e1) after).
  rewrite <- app_assoc. reflexivity.
Qed.

End Decodes.

Lemma decodes_checked_read (enc : list byte) (what_arg : string) :
  decodes (message.checked_read (size enc) what_arg) enc enc.
Proof.
  intros before after. unfold message.checked_read, cursor_at.
  cbn [message.ptr message.remaining].
  pose proof (size_nonneg before). pose proof (size_nonneg enc).
  pose proof (size_nonneg after).
  replace (size (enc ++ after) <? size enc) with false
    by (symmetry; apply Z.ltb_ge; rewrite size_app; lia).
  rewrite bytes_at_in_bounds by (rewrite ?size_app; lia).
  unfold size at 1 2. rewrite !Nat2Z.id.
  rewrite skipn_app, skipn_all, Nat.sub_diag, skipn_O, app_nil_l.
  rewrite firstn_app, firstn_all, Nat.sub_diag, firstn_O, app_nil_r.
  f_equal. f_equal; rewrite !size_app; lia.
Qed.

Lemma decodes_readValue {T : Type} `{Pod T} (v : T) :
  length (to_bytes v) = sizeof -> of_bytes (to_bytes v) = v ->
  decodes message.readValue (to_bytes v) v.
Proof.
  intros Hlen Hv. unfold message.readValue.
  rewrite <- (app_nil_r (to_bytes v)).
  eapply decodes_bind.
  - replace (Z.of_nat sizeof) with (size (to_bytes v))
      by (unfold size; rewrite Hlen; reflexivity).
    apply decodes_checked_read.
  - cbv beta. rewrite Hv. apply decodes_ret.
Qed.

Lemma of_to_bytes_uint32 z :
  0 <= z < 2 ^ 32 -> of_bytes (to_bytes (U32 z)) = U32 z.
Proof.
  intros H. cbn [of_bytes to_bytes Pod_uint32 u32].
  rewrite firstn_all2 by (rewrite length_le_split; lia).
  rewrite le_combine_split4, wrap32_small by exact H. reflexivity.
Qed.

Lemma of_to_bytes_int32 z :
  - 2 ^ 31 <= z < 2 ^ 31 -> of_bytes (to_bytes (I32 z)) = I32 z.
Proof.
  intros H. cbn [of_bytes to_bytes Pod_int32 i32].
  rewrite firstn_all2 by (rewrite length_le_split; lia).
  rewrite le_combine_split4, signed32_wrap by exact H. reflexivity.
Qed.

Lemma signed64_wrap z : - 2 ^ 63 <= z < 2 ^ 63 -> signed64 (wrap64 z) = z.
Proof.
  intros H. unfold signed64, wrap64. rewrite Z.mod_mod by lia.
  destruct (Z_lt_ge_dec z 0) as [Hneg|Hpos].
  - replace (z mod 2 ^ 64) with (z + 2 ^ 64).
    + replace (z + 2 ^ 64 <? 2 ^ 63) with false
        by (symmetry; apply Z.ltb_ge; lia).
      ring.
    + symmetry. replace z with ((z + 2 ^ 64) + (-1) * 2 ^ 64) at 1 by ring.
      rewrite Z.mod_add by lia. apply Z.mod_small. lia.
  - rewrite Z.mod_small by lia.
    replace (z <? 2 ^ 63) with true by (symmetry; apply Z.ltb_lt; lia).
    reflexivity.
Qed.

Lemma of_to_bytes_int64 z :
  - 2 ^ 63 <= z < 2 ^ 63 -> of_bytes (to_bytes (I64 z)) = I64 z.
Proof.
  intros H. cbn [of_bytes to_bytes Pod_int64 i64].
  rewrite firstn_all2 by (rewrite length_le_split; lia).
  rewrite le_combine_split8, signed64_wrap by exact H. reflexivity.
Qed.

Lemma decodes_uint32 z :
  0 <= z < 2 ^ 32 -> decodes message.readValue (le_split 4 z) (U32 z).
Proof.
  intros H. change (le_split 4 z) with (to_bytes (U32 z)).
  apply decodes_readValue.
  - apply length_le_split.
  - apply of_to_bytes_uint32, H.
Qed.

Lemma decodes_int32 z :
  - 2 ^ 31 <= z < 2 ^ 31 ->
  decodes message.readValue (to_bytes (I32 z)) (I32 z).
Proof.
  intros H. apply decodes_readValue;
    [apply length_le_split | apply of_to_bytes_int32, H].
Qed.

Lemma decodes_int64 z :
  - 2 ^ 63 <= z < 2 ^ 63 ->
  decodes message.readValue (to_bytes (I64 z)) (I64 z).
Proof.
  intros H. apply decodes_readValue;
    [apply length_le_split | apply of_to_bytes_int64, H].
Qed.

Lemma decodes_float f :
  valid_float f -> decodes message.readValue (to_bytes f) f.
Proof.
  intros H. apply decodes_readValue;
    [apply length_to_bytes_float | apply of_to_bytes_float, H].
Qed.

Lemma decodes_readString str :
  string_size str < 2 ^ 32 ->
  decodes message.readString
    (le_split 4 (wrap32 (string_size str)) ++ list_byte_of_string str) str.
Proof.
  intros H.
  assert (H0 : 0 <= string_size str) by (unfold string_size; lia).
  rewrite wrap32_small by lia.
  unfold message.readString.
  eapply decodes_bind; [apply decodes_uint32; lia|]. cbv beta. cbn [u32].
  rewrite <- (app_nil_r (list_byte_of_string str)).
  eapply decodes_bind.
  - rewrite <- size_list_byte_of_string. apply decodes_checked_read.
  - cbv beta. rewrite string_of_list_byte_of_string. apply decodes_ret.
Qed.

Lemma decodes_readBytes bytes :
  size bytes < 2 ^ 32 ->
  decodes message.readBytes (le_split 4 (wrap32 (size bytes)) ++ bytes) bytes.
Proof.
  intros H. pose proof (size_nonneg bytes).
  rewrite wrap32_small by lia.
  unfold message.readBytes.
  eapply decodes_bind; [apply decodes_uint32; lia|]. cbv beta. cbn [u32].
  apply decodes_checked_read.
Qed.

Lemma decodes_reserve alloc n element_size :
  alloc (n * element_size) = true ->
  decodes (message.reserve alloc n element_size) [] tt.
Proof.
  intros H. unfold message.reserve. rewrite H.
  destruct (n =? 0); apply decodes_ret.
Qed.

Lemma decodes_read_values (desc : list float) :
  Forall valid_float desc ->
  forall acc,
    decodes (message.ProcessedImageMessage.read_values (length desc) acc)
            (flat_map to_bytes desc) (acc ++ desc).
Proof.
  induction 1 as [|f fs Hf Hfs IH]; intros acc;
    cbn [length flat_map message.ProcessedImageMessage.read_values].
  - rewrite app_nil_r. apply decodes_ret.
  - eapply decodes_bind; [apply decodes_float, Hf|]. cbv beta.
    replace (acc ++ f :: fs) with ((acc ++ [f]) ++ fs)
      by (rewrite <- app_assoc; reflexivity).
    apply IH.
Qed.

Lemma write_keypoint_nil kp :
  message.ProcessedImageMessage.write_keypoint [] kp =
  to_bytes (message.x (message.pt kp)) ++
  to_bytes (message.y (message.pt kp)) ++
  to_bytes (message.size_ kp) ++
  to_bytes (message.angle kp) ++
  to_bytes (message.response kp) ++
  to_bytes (I32 (message.octave kp)) ++ [].
Proof.
  unfold message.ProcessedImageMessage.write_keypoint, message.writeValue.
  rewrite app_nil_l, app_nil_r, <- !app_assoc. reflexivity.
Qed.

Lemma decodes_read_keypoints (kps : list message.KeyPoint) :
  Forall valid_KeyPoint kps ->
  forall acc,
    decodes (message.ProcessedImageMessage.read_keypoints (length kps) acc)
            (flat_map (message.ProcessedImageMessage.write_keypoint []) kps)
            (acc ++ kps).
Proof.
  induction 1 as [|kp rest Hkp Hrest IH]; intros acc;
    cbn [length flat_map message.ProcessedImageMessage.read_keypoints].
  - rewrite app_nil_r. apply decodes_ret.
  - destruct Hkp as (Hx & Hy & Hs & Ha & Hr & Ho).
    rewrite write_keypoint_nil, <- !app_assoc.
    do 5 (eapply decodes_bind; [apply decodes_float; assumption|]; cbv beta).
    eapply decodes_bind; [apply decodes_int32; assumption|]. cbv beta.
    cbn [i32 app].
    replace (acc ++ kp :: rest) with ((acc ++ [kp]) ++ rest)
      by (rewrite <- app_assoc; reflexivity).
    destruct kp as [[px py] s a r o]. apply IH.
Qed.

Lemma decodes_read_descriptors alloc (descs : list (list float)) :
  Forall (fun desc => size desc < 2 ^ 32 /\ Forall valid_float desc) descs ->
  Forall (fun n => alloc n = true)
         (map (fun desc : list float => size desc * 4) descs) ->
  forall acc,
    decodes
      (message.ProcessedImageMessage.read_descriptors alloc (length descs)
         acc)
      (flat_map (fun desc : list float =>
                   le_split 4 (wrap32 (size desc)) ++ flat_map to_bytes desc)
                descs)
      (acc ++ descs).
Proof.
  induction 1 as [|desc rest [Hsize Hdesc] Hrest IH]; intros Halloc acc;
    cbn [length flat_map message.ProcessedImageMessage.read_descriptors].
  - rewrite app_nil_r. apply decodes_ret.
  - cbn [map] in Halloc. inversion Halloc as [|? ? Ha Har]; subst.
    pose proof (size_nonneg desc).
    rewrite wrap32_small by lia. rewrite <- app_assoc.
    eapply decodes_bind; [apply decodes_uint32; lia|]. cbv beta. cbn [u32].
    rewrite <- (app_nil_l (flat_map to_bytes desc ++ _)).
    eapply decodes_bind; [apply decodes_reserve, Ha|]. cbv beta.
    eapply decodes_bind.
    { unfold size. rewrite Nat2Z.id.
      apply (decodes_read_values desc Hdesc []). }
    cbv beta. rewrite app_nil_l.
    replace (acc ++ desc :: rest) with ((acc ++ [desc]) ++ rest)
      by (rewrite <- app_assoc; reflexivity).
    apply IH, Har.
Qed.

Lemma decodes_ImageMessage m :
  valid_ImageMessage m ->
  decodes message.ImageMessage.read (message.ImageMessage.serialize m) m.
Proof.
  intros (Hid & Hdata & Hfmt & Hw & Hh & Hts).
  rewrite ImageMessage_serialize_eq. unfold message.ImageMessage.read.
  eapply decodes_bind; [apply decodes_readString, Hid|]. cbv beta.
  eapply decodes_bind; [apply decodes_readBytes, Hdata|]. cbv beta.
  eapply decodes_bind; [apply decodes_readString, Hfmt|]. cbv beta.
  eapply decodes_bind; [apply decodes_int32, Hw|]. cbv beta.
  eapply decodes_bind; [apply decodes_int32, Hh|]. cbv beta.
  rewrite <- (app_nil_r (to_bytes (I64 _))).
  eapply decodes_bind; [apply decodes_int64, Hts|]. cbv beta.
  cbn [i32 i64]. destruct m. apply decodes_ret.
Qed.

Lemma decodes_bind_app {A B : Type} (r : message.Reader A)
    (k : A -> message.Reader B) (a b e2 : list byte) (v : A) (w : B) :
  decodes r (a ++ b) v -> decodes (k v) e2 w ->
  decodes (message.bind r k) (a ++ b ++ e2) w.
Proof. rewrite app_assoc. apply decodes_bind. Qed.

Lemma decodes_bind_nil {A B : Type} (r : message.Reader A)
    (k : A -> message.Reader B) (e2 : list byte) (v : A) (w : B) :
  decodes r [] v -> decodes (k v) e2 w -> decodes (message.bind r k) e2 w.
Proof. intros Hr Hk. apply (decodes_bind r k [] e2 v w Hr Hk). Qed.

Lemma decodes_ProcessedImageMessage alloc m :
  valid_ProcessedImageMessage m ->
  Forall (fun n => alloc n = true) (requests m) ->
  decodes (message.ProcessedImageMessage.read alloc)
          (message.ProcessedImageMessage.serialize m) m.
Proof.
  intros ((Hid & Hdata & Hfmt & Hw & Hh & Hts) & Hpts & Hnk & Hkps & Hnd & Hds)
         Halloc.
  unfold requests in Halloc.
  inversion Halloc as [|? ? Hak Halloc1]; subst.
  inversion Halloc1 as [|? ? Had Halloc2]; subst.
  pose proof (size_nonneg (message.ProcessedImageMessage.keypoints m)).
  pose proof (size_nonneg (message.ProcessedImageMessage.descriptors m)).
  rewrite ProcessedImageMessage_serialize_eq, ImageMessage_serialize_eq.
  unfold as_ImageMessage in *.
  cbn [message.ImageMessage.image_id message.ImageMessage.image_data
       message.ImageMessage.format message.ImageMessage.width
       message.ImageMessage.height message.ImageMessage.timestamp] in *.
  rewrite <- !app_assoc.
  rewrite (wrap32_small (size (message.ProcessedImageMessage.keypoints m)))
    by lia.
  rewrite (wrap32_small (size (message.ProcessedImageMessage.descriptors m)))
    by lia.
  cbn [to_bytes Pod_uint32 u32].
  unfold message.ProcessedImageMessage.read.
  eapply decodes_bind_app; [apply decodes_readString, Hid|]. cbv beta.
  eapply decodes_bind_app; [apply decodes_readBytes, Hdata|]. cbv beta.
  eapply decodes_bind_app; [apply decodes_readString, Hfmt|]. cbv beta.
  eapply decodes_bind; [apply decodes_int32, Hw|]. cbv beta.
  eapply decodes_bind; [apply decodes_int32, Hh|]. cbv beta.
  eapply decodes_bind; [apply decodes_int64, Hts|]. cbv beta.
  eapply decodes_bind; [apply decodes_int64, Hpts|]. cbv beta.
  eapply decodes_bind; [apply decodes_uint32; lia|]. cbv beta. cbn [u32].
  eapply decodes_bind_nil; [apply decodes_reserve, Hak|]. cbv beta.
  eapply decodes_bind.
  { unfold size. rewrite Nat2Z.id.
    apply (decodes_read_keypoints _ Hkps []). }
  cbv beta. rewrite app_nil_l.
  eapply decodes_bind; [apply decodes_uint32; lia|]. cbv beta. cbn [u32].
  eapply decodes_bind_nil; [apply decodes_reserve, Had|]. cbv beta.
  rewrite <- (app_nil_r (flat_map _ _)).
  eapply decodes_bind.
  { unfold size. rewrite Nat2Z.id.
    apply (decodes_read_descriptors alloc _ Hds Halloc2 []). }
  cbv beta. rewrite app_nil_l. cbn [i32 i64].
  destruct m. apply decodes_ret.
Qed.

(** ** message.cpp: reading arbitrary bytes *)

Section ReadsSafely.
Variable alloc : Z -> bool.

Lemma reads_safely_ret {A : Type} (a : A) :
  reads_safely alloc (message.ret a).
Proof.
  intros buffer c Hc. unfold message.ret.
  split; [exact Hc|]. split; [lia|]. reflexivity.
Qed.

(** Sequencing, for a continuation that is safe on the values [r] can
    return. *)
Lemma reads_safely_bind {A B : Type} (P : A -> Prop) (r : message.Reader A)
    (k : A -> message.Reader B) :
  reads_safely alloc r ->
  (forall buffer c a c', r buffer c = message.Returns a c' -> P a) ->
  (forall a, P a -> reads_safely alloc (k a)) ->
  reads_safely alloc (message.bind r k).
Proof.
  intros Hr HP Hk buffer c Hc. unfold message.bind.
  specialize (Hr buffer c Hc).
  destruct (r buffer c) as [a c1|e|] eqn:Er; [|exact Hr|exact Hr].
  destruct Hr as (Hc1 & Hle & Hext).
  specialize (Hk a (HP _ _ _ _ Er) buffer c1 Hc1).
  destruct (k a buffer c1) as [b c2|e|] eqn:Ek; [|exact Hk|exact Hk].
  destruct Hk as (Hc2 & Hle2 & Hext2).
  split; [exact Hc2|]. split; [lia|].
  intros extra. rewrite Hext. apply Hext2.
Qed.

Lemma reads_safely_seq {A B : Type} (r : message.Reader A)
    (k : A -> message.Reader B) :
  reads_safely alloc r ->
  (forall a, reads_safely alloc (k a)) ->
  reads_safely alloc (message.bind r k).
Proof.
  intros Hr Hk. apply (reads_safely_bind (fun _ => True)); auto.
Qed.

Lemma reads_safely_checked_read (n : Z) (what_arg : string) :
  0 <= n -> reads_safely alloc (message.checked_read n what_arg).
Proof.
  intros Hn buffer c (Hp & Hr & Hsum). unfold message.checked_read.
  destruct (Z.ltb_spec (message.remaining c) n) as [Hlt|Hge].
  { intros He. discriminate He. }
  rewrite bytes_at_in_bounds by lia.
  split; [|split].
  - unfold within. cbn [message.ptr message.remaining]. lia.
  - cbn [message.ptr]. lia.
  - intros extra. unfold extended. cbn [message.ptr message.remaining].
    pose proof (size_nonneg extra).
    replace (message.remaining c + size extra <? n) with false
      by (symmetry; apply Z.ltb_ge; lia).
    rewrite bytes_at_in_bounds by (rewrite ?size_app; lia).
    rewrite skipn_app, firstn_app.
    replace (Z.to_nat n - length (skipn (Z.to_nat (message.ptr c)) buffer))%nat
      with 0%nat
      by (rewrite length_skipn; unfold size in Hsum; lia).
    rewrite firstn_O, app_nil_r.
    f_equal. f_equal. lia.
Qed.

Lemma reads_safely_readValue {T : Type} `{Pod T} :
  reads_safely alloc (message.readValue (T := T)).
Proof.
  unfold message.readValue. apply reads_safely_seq.
  - apply reads_safely_checked_read. lia.
  - intros bs. apply reads_safely_ret.
Qed.

Lemma readValue_uint32_nonneg buffer c (a : uint32_t) c' :
  message.readValue buffer c = message.Returns a c' -> 0 <= u32 a.
Proof.
  unfold message.readValue, message.bind, message.ret.
  destruct (message.checked_read _ _ buffer c) as [bs c1|e|];
    [|discriminate|discriminate].
  intros E. injection E as <- _.
  cbn [of_bytes Pod_uint32 u32].
  apply le_combine_firstn4_range.
Qed.

Lemma reads_safely_readString : reads_safely alloc message.readString.
Proof.
  unfold message.readString.
  apply (reads_safely_bind (fun a => 0 <= u32 a)).
  - apply reads_safely_readValue.
  - apply readValue_uint32_nonneg.
  - intros a Ha. apply reads_safely_seq.
    + apply reads_safely_checked_read, Ha.
    + intros bs. apply reads_safely_ret.
Qed.

Lemma reads_safely_readBytes : reads_safely alloc message.readBytes.
Proof.
  unfold message.readBytes.
  apply (reads_safely_bind (fun a => 0 <= u32 a)).
  - apply reads_safely_readValue.
  - apply readValue_uint32_nonneg.
  - intros a Ha. apply reads_safely_checked_read, Ha.
Qed.

(** A count read by [readValue<uint32_t>] is the 32-bit value that stands
    in the buffer where the cursor was. *)
Lemma readValue_uint32_at buffer c (a : uint32_t) c' :
  within buffer c ->
  message.readValue buffer c = message.Returns a c' ->
  (Z.to_nat (message.ptr c) + 4 <= length buffer)%nat /\
  u32 a = le_combine (member buffer (Z.to_nat (message.ptr c)) 4).
Proof.
  intros (Hp & Hr & Hsum).
  unfold message.readValue, message.bind, message.ret, message.checked_read.
  cbn [sizeof Pod_uint32].
  destruct (Z.ltb_spec (message.remaining c) (Z.of_nat 4)) as [Hlt|Hge];
    [discriminate|].
  rewrite bytes_at_in_bounds by lia.
  intros E.
  assert (Ha : a = of_bytes (firstn (Z.to_nat (Z.of_nat 4))
                               (skipn (Z.to_nat (message.ptr c)) buffer)))
    by congruence.
  split; [unfold size in Hsum; lia|].
  rewrite Ha, Nat2Z.id. cbn [of_bytes Pod_uint32 u32]. unfold member.
  rewrite firstn_firstn. reflexivity.
Qed.

(** A count is read, a vector is reserved for that many elements, and the
    decoder goes on: the one place where [bad_alloc] can arise, and then
    the refused size is the count just read times the element size. *)
Lemma reads_safely_counted {B : Type} (element_size : Z)
    (k : uint32_t -> message.Reader B) :
  In element_size [message.sizeof_KeyPoint; message.sizeof_vector; 4] ->
  (forall n, reads_safely alloc (k n)) ->
  reads_safely alloc
    (message.bind message.readValue
       (fun n => message.bind (message.reserve alloc (u32 n) element_size)
                   (fun _ => k n))).
Proof.
  intros Hin Hk buffer c Hc.
  pose proof (reads_safely_readValue (T := uint32_t) buffer c Hc) as Hr.
  pose proof (readValue_uint32_at buffer c) as Hat.
  unfold message.bind at 1.
  destruct (message.readValue buffer c) as [a c1|e|] eqn:Er;
    [|exact Hr|exact Hr].
  destruct Hr as (Hc1 & Hle & Hext).
  destruct (Hat a c1 Hc eq_refl) as [Hoff Hval].
  specialize (Hk a buffer c1 Hc1).
  assert (Hgo :
    message.reserve alloc (u32 a) element_size = message.ret tt ->
    match
      message.bind (message.reserve alloc (u32 a) element_size)
        (fun _ => k a) buffer c1
    with
    | message.Returns b c' =>
        within buffer c' /\ message.ptr c <= message.ptr c' /\
        forall extra,
          message.bind message.readValue
            (fun n =>
               message.bind (message.reserve alloc (u32 n) element_size)
                 (fun _ => k n))
            (buffer ++ extra) (extended (size extra) c) =
          message.Returns b (extended (size extra) c')
    | message.Throws e => e = message.bad_alloc -> refused alloc buffer
    | message.Overrun => False
    end).
  { intros Eres. unfold message.bind at 1. rewrite Eres.
    unfold message.ret at 1.
    destruct (k a buffer c1) as [b c2|e|] eqn:Ek; [|exact Hk|exact Hk].
    destruct Hk as (Hc2 & Hle2 & Hext2).
    split; [exact Hc2|]. split; [lia|].
    intros extra. unfold message.bind at 1. rewrite Hext.
    unfold message.bind at 1. rewrite Eres. unfold message.ret at 1.
    apply Hext2. }
  unfold message.reserve in *.
  destruct (u32 a =? 0) eqn:E0; [apply Hgo; reflexivity|].
  destruct (alloc (u32 a * element_size)) eqn:Ea; [apply Hgo; reflexivity|].
  unfold message.bind, message.throw. intros _.
  exists (Z.to_nat (message.ptr c)), element_size.
  split; [exact Hoff|]. split; [exact Hin|]. cbv zeta.
  rewrite <- Hval. split; [|exact Ea].
  apply Z.eqb_neq. exact E0.
Qed.

Lemma reads_safely_read_keypoints n :
  forall acc,
    reads_safely alloc (message.ProcessedImageMessage.read_keypoints n acc).
Proof.
  induction n as [|n IH]; intros acc;
    cbn [message.ProcessedImageMessage.read_keypoints].
  - apply reads_safely_ret.
  - do 6 (apply reads_safely_seq; [apply reads_safely_readValue|]; intros ?).
    apply IH.
Qed.

Lemma reads_safely_read_values n :
  forall acc,
    reads_safely alloc (message.ProcessedImageMessage.read_values n acc).
Proof.
  induction n as [|n IH]; intros acc;
    cbn [message.ProcessedImageMessage.read_values].
  - apply reads_safely_ret.
  - apply reads_safely_seq; [apply reads_safely_readValue|]. intros val.
    apply IH.
Qed.

Lemma reads_safely_read_descriptors n :
  forall acc,
    reads_safely alloc
      (message.ProcessedImageMessage.read_descriptors alloc n acc).
Proof.
  induction n as [|n IH]; intros acc;
    cbn [message.ProcessedImageMessage.read_descriptors].
  - apply reads_safely_ret.
  - apply reads_safely_counted; [cbn; tauto|]. intros ds.
    apply reads_safely_seq; [apply reads_safely_read_values|]. intros desc.
    apply IH.
Qed.

Lemma reads_safely_ImageMessage :
  reads_safely alloc message.ImageMessage.read.
Proof.
  unfold message.ImageMessage.read.
  apply reads_safely_seq; [apply reads_safely_readString|]. intros ?.
  apply reads_safely_seq; [apply reads_safely_readBytes|]. intros ?.
  apply reads_safely_seq; [apply reads_safely_readString|]. intros ?.
  do 3 (apply reads_safely_seq; [apply reads_safely_readValue|]; intros ?).
  apply reads_safely_ret.
Qed.

Lemma reads_safely_ProcessedImageMessage :
  reads_safely alloc (message.ProcessedImageMessage.read alloc).
Proof.
  unfold message.ProcessedImageMessage.read.
  apply reads_safely_seq; [apply reads_safely_readString|]. intros ?.
  apply reads_safely_seq; [apply reads_safely_readBytes|]. intros ?.
  apply reads_safely_seq; [apply reads_safely_readString|]. intros ?.
  do 4 (apply reads_safely_seq; [apply reads_safely_readValue|]; intros ?).
  apply reads_safely_counted; [cbn; tauto|]. intros ?.
  apply reads_safely_seq; [apply reads_safely_read_keypoints|]. intros ?.
  apply reads_safely_counted; [cbn; tauto|]. intros ?.
  apply reads_safely_seq; [apply reads_safely_read_descriptors|]. intros ?.
  apply reads_safely_ret.
Qed.

End ReadsSafely.

Lemma within_start (buffer : list byte) :
  within buffer {| message.ptr := 0; message.remaining := size buffer |}.
Proof.
  unfold within. cbn [message.ptr message.remaining].
  pose proof (size_nonneg buffer). lia.
Qed.

(** A decoder that reads safely rejects every proper prefix of what it
    decodes. *)
Lemma prefix_is_rejected {A : Type} alloc (r : message.Reader A)
    (enc : list byte) (v : A) (n : nat) :
  reads_safely alloc r -> decodes r enc v -> (n < length enc)%nat ->
  exists e,
    r (firstn n enc)
      {| message.ptr := 0; message.remaining := size (firstn n enc) |} =
    message.Throws e /\
    (e = message.bad_alloc -> exists k, alloc k = false).
Proof.
  intros Hsafe Hdec Hn.
  pose proof (Hsafe (firstn n enc) _ (within_start (firstn n enc))) as H.
  destruct (r (firstn n enc) _) as [a c'|e|] eqn:Er.
  - exfalso. destruct H as ((Hp & Hr & Hsum) & _ & Hext).
    specialize (Hext (skipn n enc)).
    rewrite firstn_skipn in Hext.
    specialize (Hdec [] []).
    rewrite app_nil_l, app_nil_r in Hdec.
    unfold cursor_at, extended in *.
    cbn [message.ptr message.remaining] in *.
    replace (size (firstn n enc) + size (skipn n enc)) with (size enc)
      in Hext by (rewrite <- size_app, firstn_skipn; reflexivity).
    rewrite size_nil in Hdec. rewrite Hdec in Hext.
    injection Hext as _ Hptr _.
    assert (size (firstn n enc) < size enc)
      by (unfold size; rewrite length_firstn; lia).
    lia.
  - exists e. split; [reflexivity|]. intros He.
    destruct (H He) as (offset & element_size & _ & _ & Hno).
    cbv zeta in Hno. destruct Hno as [_ Hno].
    eexists. exact Hno.
  - contradiction.
Qed.

(** ** message.cpp: the properties *)

(** X13.  [ImageMessage] round-trips, and the decoder stops at the end of
    the message: for every message whose three lengths fit their 32-bit
    prefixes, decoding the encoding, followed by any bytes at all, returns
    the message, with everything after the encoding left unread.  An empty
    payload and empty strings are included. *)
Theorem ImageMessage_round_trip (m : message.ImageMessage.t)
    (extra : list byte) :
  valid_ImageMessage m ->
  message.ImageMessage.deserialize (message.ImageMessage.serialize m ++ extra)
  = message.Returns m
      {| message.ptr := size (message.ImageMessage.serialize m);
         message.remaining := size extra |}.
Proof.
  intros Hv. unfold message.ImageMessage.deserialize.
  pose proof (decodes_ImageMessage m Hv [] extra) as H.
  rewrite !app_nil_l in H. exact H.
Qed.

Lemma ImageMessage_round_trip_witness :
  message.ImageMessage.deserialize
    (message.ImageMessage.serialize sample_message ++ [Byte.xff]) =
  message.Returns sample_message
    {| message.ptr := size (message.ImageMessage.serialize sample_message);
       message.remaining := 1 |}.
Proof.
  apply (ImageMessage_round_trip sample_message [Byte.xff]).
  unfold valid_ImageMessage. cbn. lia.
Defined.

(** X14.  [ProcessedImageMessage] round-trips: for every message whose
    lengths and counts fit their 32-bit prefixes, on an allocator that
    grants the [reserve] requests the message needs, decoding the encoding,
    followed by any bytes at all, returns the message, keypoints and
    descriptors included, with everything after the encoding left unread. *)
Theorem ProcessedImageMessage_round_trip (alloc : Z -> bool)
    (m : message.ProcessedImageMessage.t) (extra : list byte) :
  valid_ProcessedImageMessage m ->
  Forall (fun n => alloc n = true) (requests m) ->
  message.ProcessedImageMessage.deserialize alloc
    (message.ProcessedImageMessage.serialize m ++ extra)
  = message.Returns m
      {| message.ptr := size (message.ProcessedImageMessage.serialize m);
         message.remaining := size extra |}.
Proof.
  intros Hv Ha. unfold message.ProcessedImageMessage.deserialize.
  pose proof (decodes_ProcessedImageMessage alloc m Hv Ha [] extra) as H.
  rewrite !app_nil_l in H. exact H.
Qed.

Lemma ProcessedImageMessage_round_trip_witness :
  message.ProcessedImageMessage.deserialize (fun n => n <=? 48)
    (message.ProcessedImageMessage.serialize sample_processed ++ [])
  = message.Returns sample_processed
      {| message.ptr :=
           size (message.ProcessedImageMessage.serialize sample_processed);
         message.remaining := 0 |}.
Proof.
  apply (ProcessedImageMessage_round_trip (fun n => n <=? 48)
           sample_processed []).
  - unfold valid_ProcessedImageMessage, valid_ImageMessage. cbn.
    repeat split; try lia;
      repeat constructor; unfold valid_float; cbn; lia.
  - unfold requests. cbn. repeat constructor.
Defined.

(** X15.  The two messages of message.cpp share their first six fields and
    carry no kind tag, so [ImageMessage::deserialize] accepts an encoded
    [ProcessedImageMessage]: it returns the image part and leaves the
    processing time, the keypoints and the descriptors unread. *)
Theorem ImageMessage_decodes_ProcessedImageMessage
    (m : message.ProcessedImageMessage.t) :
  valid_ImageMessage (as_ImageMessage m) ->
  exists c,
    message.ImageMessage.deserialize
      (message.ProcessedImageMessage.serialize m) =
      message.Returns (as_ImageMessage m) c /\
    message.ptr c = size (message.ImageMessage.serialize (as_ImageMessage m))
    /\ 16 <= message.remaining c.
Proof.
  intros Hv. rewrite ProcessedImageMessage_serialize_eq.
  unfold message.ImageMessage.deserialize.
  match goal with
  | |- context [message.ImageMessage.serialize ?i ++ ?rest] =>
      set (after := rest)
  end.
  pose proof (decodes_ImageMessage (as_ImageMessage m) Hv [] after) as H.
  rewrite !app_nil_l in H.
  exists (cursor_at (message.ImageMessage.serialize (as_ImageMessage m))
                    after).
  split; [exact H|]. split; [reflexivity|].
  unfold cursor_at, after. cbn [message.remaining].
  rewrite !size_app.
  assert (H4 : forall z, size (le_split 4 z) = 4)
    by (intros z; unfold size; rewrite length_le_split; reflexivity).
  assert (H8 : forall z, size (le_split 8 z) = 8)
    by (intros z; unfold size; rewrite length_le_split; reflexivity).
  cbn [to_bytes Pod_int64 Pod_uint32]. rewrite !H4, H8.
  match goal with
  | |- context [size (flat_map ?f ?l) + (4 + size (flat_map ?g ?k))] =>
      pose proof (size_nonneg (flat_map f l));
      pose proof (size_nonneg (flat_map g k))
  end.
  lia.
Qed.

Lemma ImageMessage_decodes_ProcessedImageMessage_witness :
  exists c,
    message.ImageMessage.deserialize
      (message.ProcessedImageMessage.serialize sample_processed) =
      message.Returns (as_ImageMessage sample_processed) c /\
    message.ptr c =
      size (message.ImageMessage.serialize (as_ImageMessage sample_processed))
    /\ 16 <= message.remaining c.
Proof.
  apply (ImageMessage_decodes_ProcessedImageMessage sample_processed).
  unfold valid_ImageMessage. cbn. lia.
Defined.

(** X16.  A truncated message is never accepted: every proper prefix of an
    encoded [ImageMessage] or [ProcessedImageMessage], the empty buffer
    included, makes the decoder throw a [std::runtime_error] (for the
    processed message, on an allocator that refuses nothing). *)
Theorem truncated_message_is_rejected (n : nat) :
  (forall m : message.ImageMessage.t,
      valid_ImageMessage m ->
      (n < length (message.ImageMessage.serialize m))%nat ->
      exists what_arg,
        message.ImageMessage.deserialize
          (firstn n (message.ImageMessage.serialize m)) =
        message.Throws (message.runtime_error what_arg)) /\
  (forall (alloc : Z -> bool) (m : message.ProcessedImageMessage.t),
      valid_ProcessedImageMessage m ->
      (forall k, alloc k = true) ->
      (n < length (message.ProcessedImageMessage.serialize m))%nat ->
      exists what_arg,
        message.ProcessedImageMessage.deserialize alloc
          (firstn n (message.ProcessedImageMessage.serialize m)) =
        message.Throws (message.runtime_error what_arg)).
Proof.
  split.
  - intros m Hv Hn.
    destruct (prefix_is_rejected (fun _ => true) message.ImageMessage.read
                _ m n (reads_safely_ImageMessage _)
                (decodes_ImageMessage m Hv) Hn) as (e & He & Hbad).
    unfold message.ImageMessage.deserialize. rewrite He.
    destruct e as [what_arg|].
    + exists what_arg. reflexivity.
    + destruct (Hbad eq_refl) as [k Hk]. discriminate Hk.
  - intros alloc m Hv Ha Hn.
    assert (Hreq : Forall (fun k => alloc k = true) (requests m))
      by (apply Forall_forall; intros k _; apply Ha).
    destruct (prefix_is_rejected alloc
                (message.ProcessedImageMessage.read alloc)
                _ m n (reads_safely_ProcessedImageMessage _)
                (decodes_ProcessedImageMessage alloc m Hv Hreq) Hn)
      as (e & He & Hbad).
    unfold message.ProcessedImageMessage.deserialize. rewrite He.
    destruct e as [what_arg|].
    + exists what_arg. reflexivity.
    + destruct (Hbad eq_refl) as [k Hk]. rewrite Ha in Hk. discriminate Hk.
Qed.

Lemma truncated_message_is_rejected_witness :
  exists what_arg,
    message.ImageMessage.deserialize
      (firstn 37 (message.ImageMessage.serialize sample_message)) =
    message.Throws (message.runtime_error what_arg).
Proof.
  apply (proj1 (truncated_message_is_rejected 37) sample_message).
  - unfold valid_ImageMessage. cbn. lia.
  - vm_compute. lia.
Defined.

(** X17.  Both decoders of message.cpp are safe on arbitrary input: on
    every buffer each one either returns, having read only inside the
    buffer and stopped inside it, or throws; no read is made outside the
    buffer.  [ImageMessage::deserialize] throws nothing but
    [std::runtime_error]; [ProcessedImageMessage::deserialize] also lets a
    [std::bad_alloc] escape, and only when the allocator refuses a [reserve]
    whose size was read from the wire: the refused request is for as many
    elements as a non-zero 32-bit count standing at some offset of the
    buffer says, the elements being keypoints, descriptor vectors or the
    floats of one descriptor. *)
Theorem message_decoders_stay_in_bounds (alloc : Z -> bool)
    (buffer : list byte) :
  match message.ImageMessage.deserialize buffer with
  | message.Returns _ c => within buffer c
  | message.Throws e => exists what_arg, e = message.runtime_error what_arg
  | message.Overrun => False
  end /\
  match message.ProcessedImageMessage.deserialize alloc buffer with
  | message.Returns _ c => within buffer c
  | message.Throws e =>
      (exists what_arg, e = message.runtime_error what_arg) \/
      (e = message.bad_alloc /\
       exists (offset : nat) (element_size : Z),
         (offset + 4 <= length buffer)%nat /\
         In element_size
            [message.sizeof_KeyPoint; message.sizeof_vector; 4] /\
         let count := le_combine (member buffer offset 4) in
         count <> 0 /\ alloc (count * element_size) = false)
  | message.Overrun => False
  end.
Proof.
  split.
  - pose proof (reads_safely_ImageMessage (fun _ => true) buffer _
                  (within_start buffer)) as H.
    unfold message.ImageMessage.deserialize.
    destruct (message.ImageMessage.read buffer _) as [a c|e|].
    + apply H.
    + destruct e as [what_arg|].
      * exists what_arg. reflexivity.
      * destruct (H eq_refl) as (offset & element_size & _ & _ & Hno).
        cbv zeta in Hno. destruct Hno as [_ Hno]. discriminate Hno.
    + exact H.
  - pose proof (reads_safely_ProcessedImageMessage alloc buffer _
                  (within_start buffer)) as H.
    unfold message.ProcessedImageMessage.deserialize.
    destruct (message.ProcessedImageMessage.read alloc buffer _) as [a c|e|].
    + apply H.
    + destruct e as [what_arg|].
      * left. exists what_arg. reflexivity.
      * right. split; [reflexivity | apply H; reflexivity].
    + exact H.
Qed.

(** ** The image generator's loop *)

(** One call of [publish_image] completes; it either hands the encoded
    frame to the socket and counts it, or writes one line to the error
    stream and counts nothing. *)
Lemma publish_image_effects ext fs tk d image_path st :
  exists st',
    ImageGenerator.publish_image ext fs tk d image_path st = (Ok tt, st') /\
    ImageGenerator.image_paths_ st' = ImageGenerator.image_paths_ st /\
    ImageGenerator.running_ st' = ImageGenerator.running_ st /\
    ((exists image,
         ImageGenerator.load_image_file fs d image_path = Ok image /\
         send_errno tk = None /\
         ImageGenerator.publisher_ st' =
           ImageGenerator.publisher_ st ++ [Serializer.serialize_image image]
         /\
         ImageGenerator.images_sent_ st' =
           wrap64 (ImageGenerator.images_sent_ st + 1) /\
         ImageGenerator.cerr st' = ImageGenerator.cerr st) \/
     (ImageGenerator.publisher_ st' = ImageGenerator.publisher_ st /\
      ImageGenerator.images_sent_ st' = ImageGenerator.images_sent_ st /\
      exists line,
        ImageGenerator.cerr st' = ImageGenerator.cerr st ++ [line])).
Proof.
  unfold ImageGenerator.publish_image, try_catch, bindM, lift.
  destruct (ImageGenerator.load_image_file fs d image_path)
    as [image|e|] eqn:El.
  - unfold zoom, Publisher.send_image, Publisher.send_bytes.
    pose proof (serialize_image_not_empty image) as Hne.
    destruct (Serializer.serialize_image image) as [|b bs] eqn:E;
      [contradiction|].
    destruct (send_errno tk) as [err|] eqn:Es.
    + eexists. split; [reflexivity|]. split; [reflexivity|].
      split; [reflexivity|]. right.
      split; [reflexivity|]. split; [reflexivity|].
      eexists. reflexivity.
    + eexists. split; [reflexivity|]. split; [reflexivity|].
      split; [reflexivity|]. left. exists image.
      split; [reflexivity|]. split; [reflexivity|].
      rewrite E. cbn. repeat split.
  - eexists. split; [reflexivity|]. split; [reflexivity|].
    split; [reflexivity|]. right.
    split; [reflexivity|]. split; [reflexivity|].
    eexists. reflexivity.
  - destruct d; discriminate El.
Qed.

Lemma load_image_file_unmeasured fs d image_path image :
  ImageGenerator.load_image_file fs d image_path = Ok image ->
  unmeasured image /\ filename image = path_filename fs image_path.
Proof.
  destruct d; cbn; intros E; try discriminate.
  injection E as <-. repeat split.
Qed.

(** What holds of a loop that ends without another iteration. *)
Lemma ImageGenerator_idle (env : list (tick * disk)) (st st' : ImageGenerator.t)
    (image_index n : Z) :
  ImageGenerator.image_paths_ st' = ImageGenerator.image_paths_ st ->
  ImageGenerator.publisher_ st' = ImageGenerator.publisher_ st ->
  ImageGenerator.cerr st' = ImageGenerator.cerr st ->
  ImageGenerator.images_sent_ st' = ImageGenerator.images_sent_ st ->
  0 <= ImageGenerator.images_sent_ st < 2 ^ 64 ->
  0 <= image_index < n ->
  (ImageGenerator.running_ st = true ->
   Forall (fun e => stop_requested (fst e) = false) env -> env = []) ->
  ImageGenerator.image_paths_ st' = ImageGenerator.image_paths_ st /\
  0 <= image_index < n /\
  ImageGenerator.publisher_ st' = ImageGenerator.publisher_ st ++ [] /\
  ImageGenerator.cerr st' = ImageGenerator.cerr st ++ [] /\
  ImageGenerator.images_sent_ st' =
    wrap64 (ImageGenerator.images_sent_ st + size (@nil (list byte))) /\
  (length (@nil (list byte)) + length (@nil string) <= length env)%nat /\
  Forall (fun m => exists image,
              m = Serializer.serialize_image image /\ unmeasured image) [] /\
  (ImageGenerator.running_ st = true ->
   Forall (fun e => stop_requested (fst e) = false) env ->
   image_index = (image_index + size env) mod n /\
   (length (@nil (list byte)) + length (@nil string) = length env)%nat).
Proof.
  intros Hp Hpub Hcerr Hsent Hs Hi Hend.
  split; [exact Hp|]. split; [exact Hi|].
  split; [rewrite app_nil_r; exact Hpub|].
  split; [rewrite app_nil_r; exact Hcerr|].
  split; [rewrite size_nil, Z.add_0_r, wrap64_small by exact Hs; exact Hsent|].
  split; [cbn [length]; lia|]. split; [constructor|].
  intros Hrun Hno. rewrite (Hend Hrun Hno).
  rewrite size_nil, Z.add_0_r, Z.mod_small by exact Hi.
  split; reflexivity.
Qed.

(** The loop: it never indexes [image_paths_] out of range, and what it
    sends, counts and logs add up. *)
Lemma ImageGenerator_run_loop ext fs env :
  forall image_index st,
    let n := size (ImageGenerator.image_paths_ st) in
    n < 2 ^ 64 ->
    0 <= image_index < n ->
    0 <= ImageGenerator.images_sent_ st < 2 ^ 64 ->
    exists st' image_index' messages lines,
      ImageGenerator.run_loop ext fs env image_index st =
        (Ok image_index', st') /\
      ImageGenerator.image_paths_ st' = ImageGenerator.image_paths_ st /\
      0 <= image_index' < n /\
      ImageGenerator.publisher_ st' =
        ImageGenerator.publisher_ st ++ messages /\
      ImageGenerator.cerr st' = ImageGenerator.cerr st ++ lines /\
      ImageGenerator.images_sent_ st' =
        wrap64 (ImageGenerator.images_sent_ st + size messages) /\
      (length messages + length lines <= length env)%nat /\
      Forall (fun m => exists image,
                  m = Serializer.serialize_image image /\ unmeasured image)
             messages /\
      (ImageGenerator.running_ st = true ->
       Forall (fun e => stop_requested (fst e) = false) env ->
       image_index' = (image_index + size env) mod n /\
       (length messages + length lines = length env)%nat).
Proof.
  induction env as [|[tk d] rest IH]; intros image_index st n Hn Hi Hs.
  - exists st, image_index, [], []. split; [reflexivity|].
    apply ImageGenerator_idle; auto.
  - cbn [ImageGenerator.run_loop].
    destruct (stop_requested tk) eqn:Estop.
    { exists (ImageGenerator.stop st), image_index, [], [].
      split; [reflexivity|].
      apply ImageGenerator_idle; auto.
      intros _ Hno. inversion Hno as [|? ? Hno1 _]; subst.
      cbn [fst] in Hno1. congruence. }
    destruct (ImageGenerator.running_ st) eqn:Erun.
    2:{ exists st, image_index, [], []. split; [reflexivity|].
        pose proof (ImageGenerator_idle ((tk, d) :: rest) st st image_index n
                      eq_refl eq_refl eq_refl eq_refl Hs Hi) as H.
        rewrite Erun in H. apply H. discriminate. }
    destruct (nth_error (ImageGenerator.image_paths_ st)
                        (Z.to_nat image_index)) as [image_path|] eqn:Enth.
    2:{ exfalso. apply nth_error_None in Enth. unfold n, size in Hi. lia. }
    unfold bindM.
    destruct (publish_image_effects ext fs tk d image_path st)
      as (st1 & E1 & Hp1 & Hr1 & Hcases).
    rewrite E1, Hp1. fold n.
    replace (n =? 0) with false by (symmetry; apply Z.eqb_neq; lia).
    rewrite (wrap64_small (image_index + 1)) by lia.
    assert (Hi1 : 0 <= (image_index + 1) mod n < n)
      by (apply Z.mod_pos_bound; lia).
    assert (Hs1 : 0 <= ImageGenerator.images_sent_ st1 < 2 ^ 64).
    { destruct Hcases as [(image & _ & _ & _ & -> & _)|(_ & -> & _)];
        [apply wrap64_range | exact Hs]. }
    assert (Hn1 : size (ImageGenerator.image_paths_ st1) < 2 ^ 64)
      by (rewrite Hp1; exact Hn).
    assert (Hi1' : 0 <= (image_index + 1) mod n <
                   size (ImageGenerator.image_paths_ st1))
      by (rewrite Hp1; exact Hi1).
    destruct (IH ((image_index + 1) mod n) st1 Hn1 Hi1' Hs1)
      as (st' & i' & ms & ls & Erun' & Hp' & Hi' & Hpub & Hcerr & Hsent &
          Hlen & Hms & Hall).
    rewrite Hp1 in Hp', Hi', Hall. fold n in Hi', Hall.
    assert (Hrest : ImageGenerator.running_ st1 = true ->
                    Forall (fun e => stop_requested (fst e) = false)
                           ((tk, d) :: rest) ->
                    i' = (image_index + size ((tk, d) :: rest)) mod n /\
                    (length ms + length ls = length rest)%nat).
    { intros Hrun Hno. inversion Hno as [|? ? _ Hno']; subst.
      destruct (Hall Hrun Hno') as [-> Hl]. split; [|exact Hl].
      rewrite Zplus_mod_idemp_l. f_equal.
      unfold size. cbn [length]. lia. }
    rewrite Hr1 in Hrest.
    destruct Hcases as [(image & El & _ & Hpub1 & Hsent1 & Hcerr1)|
                        (Hpub1 & Hsent1 & line & Hcerr1)].
    + exists st', i', (Serializer.serialize_image image :: ms), ls.
      split; [exact Erun'|]. split; [exact Hp'|]. split; [exact Hi'|].
      split; [rewrite Hpub, Hpub1, <- app_assoc; reflexivity|].
      split; [rewrite Hcerr, Hcerr1; reflexivity|].
      split.
      { rewrite Hsent, Hsent1. unfold wrap64.
        rewrite Z.add_mod_idemp_l by lia. f_equal.
        unfold size. cbn [length]. lia. }
      split; [cbn [length]; lia|].
      split.
      { constructor; [|exact Hms]. exists image. split; [reflexivity|].
        apply (load_image_file_unmeasured fs d image_path image El). }
      intros Hrun Hno. destruct (Hrest Erun Hno) as [-> Hl].
      split; [reflexivity | cbn [length]; lia].
    + exists st', i', ms, (line :: ls).
      split; [exact Erun'|]. split; [exact Hp'|]. split; [exact Hi'|].
      split; [rewrite Hpub, Hpub1; reflexivity|].
      split; [rewrite Hcerr, Hcerr1, <- app_assoc; reflexivity|].
      split; [rewrite Hsent, Hsent1; reflexivity|].
      split; [cbn [length]; lia|].
      split; [exact Hms|].
      intros Hrun Hno. destruct (Hrest Erun Hno) as [-> Hl].
      split; [reflexivity | cbn [length]; lia].
Qed.

(** X18.  The image generator goes round its images and never leaves
    them.  From an index inside a non-empty [image_paths_], the loop of
    [run] never indexes the vector out of range and never takes a remainder
    by zero, whatever the files and the socket do; [image_paths_] is left as
    it was; and after [k] iterations without a stop request the index has
    advanced by [k] modulo the number of images, a failed image being
    skipped like a published one. *)
Theorem generator_cycles_through_its_images (ext : Externals) (fs : Paths)
    (env : list (tick * disk)) (image_index : Z) (st : ImageGenerator.t) :
  size (ImageGenerator.image_paths_ st) < 2 ^ 64 ->
  0 <= image_index < size (ImageGenerator.image_paths_ st) ->
  0 <= ImageGenerator.images_sent_ st < 2 ^ 64 ->
  exists st' image_index',
    ImageGenerator.run_loop ext fs env image_index st =
      (Ok image_index', st') /\
    ImageGenerator.image_paths_ st' = ImageGenerator.image_paths_ st /\
    0 <= image_index' < size (ImageGenerator.image_paths_ st) /\
    (ImageGenerator.running_ st = true ->
     Forall (fun e => stop_requested (fst e) = false) env ->
     image_index' =
       (image_index + size env) mod size (ImageGenerator.image_paths_ st)).
Proof.
  intros Hn Hi Hs.
  destruct (ImageGenerator_run_loop ext fs env image_index st Hn Hi Hs)
    as (st' & i' & ms & ls & E & Hp & Hi' & _ & _ & _ & _ & _ & Hall).
  exists st', i'. split; [exact E|]. split; [exact Hp|]. split; [exact Hi'|].
  intros Hrun Hno. apply (Hall Hrun Hno).
Qed.

Lemma generator_cycles_through_its_images_witness :
  exists st' image_index',
    ImageGenerator.run_loop sample_ext sample_paths sample_disk 0
      sample_generator = (Ok image_index', st') /\
    ImageGenerator.image_paths_ st' =
      ImageGenerator.image_paths_ sample_generator /\
    0 <= image_index' < 2 /\
    (ImageGenerator.running_ sample_generator = true ->
     Forall (fun e => stop_requested (fst e) = false) sample_disk ->
     image_index' = (0 + 3) mod 2).
Proof.
  apply (generator_cycles_through_its_images sample_ext sample_paths
           sample_disk 0 sample_generator); cbn; lia.
Defined.

(** X19.  The image generator counts exactly what it sends.  Over any
    run of its loop, every iteration either hands one message to the socket
    or writes one line to the error stream, never both; each message is the
    encoding of a frame whose dimensions are zero; and [images_sent_]
    advances by the number of messages handed to the socket: an image that
    could not be loaded or sent is not counted. *)
Theorem generator_counts_what_it_sends (ext : Externals) (fs : Paths)
    (env : list (tick * disk)) (image_index : Z) (st : ImageGenerator.t) :
  size (ImageGenerator.image_paths_ st) < 2 ^ 64 ->
  0 <= image_index < size (ImageGenerator.image_paths_ st) ->
  0 <= ImageGenerator.images_sent_ st < 2 ^ 64 ->
  exists st' image_index' messages lines,
    ImageGenerator.run_loop ext fs env image_index st =
      (Ok image_index', st') /\
    ImageGenerator.publisher_ st' =
      ImageGenerator.publisher_ st ++ messages /\
    ImageGenerator.cerr st' = ImageGenerator.cerr st ++ lines /\
    ImageGenerator.images_sent_ st' =
      wrap64 (ImageGenerator.images_sent_ st + size messages) /\
    (length messages + length lines <= length env)%nat /\
    Forall (fun m => exists image,
                m = Serializer.serialize_image image /\ unmeasured image)
           messages /\
    (ImageGenerator.running_ st = true ->
     Forall (fun e => stop_requested (fst e) = false) env ->
     (length messages + length lines = length env)%nat).
Proof.
  intros Hn Hi Hs.
  destruct (ImageGenerator_run_loop ext fs env image_index st Hn Hi Hs)
    as (st' & i' & ms & ls & E & _ & _ & Hpub & Hcerr & Hsent & Hlen & Hms &
        Hall).
  exists st', i', ms, ls.
  split; [exact E|]. split; [exact Hpub|]. split; [exact Hcerr|].
  split; [exact Hsent|]. split; [exact Hlen|]. split; [exact Hms|].
  intros Hrun Hno. apply (Hall Hrun Hno).
Qed.

Lemma generator_counts_what_it_sends_witness :
  exists st' image_index' messages lines,
    ImageGenerator.run_loop sample_ext sample_paths sample_disk 0
      sample_generator = (Ok image_index', st') /\
    ImageGenerator.publisher_ st' = [] ++ messages /\
    ImageGenerator.cerr st' = [] ++ lines /\
    ImageGenerator.images_sent_ st' = wrap64 (0 + size messages) /\
    (length messages + length lines <= 3)%nat /\
    Forall (fun m => exists image,
                m = Serializer.serialize_image image /\ unmeasured image)
           messages /\
    (ImageGenerator.running_ sample_generator = true ->
     Forall (fun e => stop_requested (fst e) = false) sample_disk ->
     (length messages + length lines = 3)%nat).
Proof.
  apply (generator_counts_what_it_sends sample_ext sample_paths
           sample_disk 0 sample_generator); cbn; lia.
Defined.

(** ** The command lines *)

(** Induction on an argument list, an option taking its value with it. *)
Lemma args_ind (P : list string -> Prop) :
  P [] ->
  (forall arg, P [arg]) ->
  (forall arg value rest, P rest -> P (arg :: value :: rest)) ->
  forall args, P args.
Proof.
  intros H0 H1 H2.
  assert (H : forall n args, (length args <= n)%nat -> P args).
  { induction n as [|n IH]; intros args Hn.
    - destruct args; [exact H0 | cbn in Hn; lia].
    - destruct args as [|arg [|value rest]]; [exact H0 | apply H1 |].
      apply H2, IH. cbn in Hn. lia. }
  intros args. apply (H (length args)). lia.
Qed.

(** The ways one step of an argument loop can go. *)
Ltac parse_step :=
  repeat match goal with
         | |- context [if ?c then _ else _] => destruct c eqn:?
         | |- context [match ?s with Some _ => _ | None => _ end] =>
             destruct s eqn:?
         end.

Section Parsers.
Variable stoi : string -> option Z.
Variable program_name : string.

Lemma data_logger_parse_timeout args :
  forall o0 o,
    data_logger_main.parse stoi program_name args o0 = Proceed o ->
    0 < data_logger_main.timeout_ms o0 ->
    0 < data_logger_main.timeout_ms o.
Proof.
  induction args as [| arg | arg value rest IH] using args_ind;
    intros o0 o; cbn [data_logger_main.parse].
  - intros E. injection E as <-. auto.
  - parse_step; unfold error_exit; discriminate.
  - parse_step; unfold error_exit; try discriminate;
      intros E Hpos; apply (IH _ _ E);
      cbn [data_logger_main.timeout_ms]; try assumption.
    apply Z.leb_gt. assumption.
Qed.

Lemma feature_extractor_parse_timeout args :
  forall o0 o,
    feature_extractor_main.parse stoi program_name args o0 = Proceed o ->
    0 < feature_extractor_main.timeout_ms o0 ->
    0 < feature_extractor_main.timeout_ms o.
Proof.
  induction args as [| arg | arg value rest IH] using args_ind;
    intros o0 o; cbn [feature_extractor_main.parse].
  - intros E. injection E as <-. auto.
  - parse_step; unfold error_exit; discriminate.
  - parse_step; unfold error_exit; try discriminate;
      intros E Hpos; apply (IH _ _ E);
      cbn [feature_extractor_main.timeout_ms]; try assumption.
    apply Z.leb_gt. assumption.
Qed.

Lemma image_generator_parse_delay args :
  forall o0 o,
    image_generator_main.parse stoi program_name args o0 = Proceed o ->
    0 <= image_generator_main.delay_ms o0 ->
    0 <= image_generator_main.delay_ms o.
Proof.
  induction args as [| arg | arg value rest IH] using args_ind;
    intros o0 o; cbn [image_generator_main.parse].
  - intros E. injection E as <-. auto.
  - parse_step; unfold error_exit; discriminate.
  - parse_step; unfold error_exit; try discriminate;
      intros E Hpos; apply (IH _ _ E);
      cbn [image_generator_main.delay_ms]; try assumption.
    apply Z.ltb_ge. assumption.
Qed.

Lemma help_or_error_later usage arg value rest code out :
  help_or_error usage rest code out ->
  help_or_error usage (arg :: value :: rest) code out.
Proof.
  intros [(H0 & Hu & He & Hin)|H1]; [left|right; exact H1].
  repeat split; try assumption.
  destruct Hin as [Hin|Hin]; [left|right]; right; right; exact Hin.
Qed.

Lemma help_flag arg rest :
  (arg =? "--help")%string || (arg =? "-h")%string = true ->
  In "--help"%string (arg :: rest) \/ In "-h"%string (arg :: rest).
Proof.
  intros H. apply orb_true_iff in H.
  destruct H as [H|H]; apply String.eqb_eq in H; subst;
    [left|right]; left; reflexivity.
Qed.

Ltac returned :=
  first
    [ left; repeat split; try reflexivity; apply help_flag; assumption
    | right; split; [reflexivity | eexists; reflexivity] ].

Lemma data_logger_parse_return args :
  forall o0 code out,
    data_logger_main.parse stoi program_name args o0 = Return code out ->
    help_or_error (data_logger_main.print_usage program_name) args code out.
Proof.
  induction args as [| arg | arg value rest IH] using args_ind;
    intros o0 code out; cbn [data_logger_main.parse].
  - discriminate.
  - parse_step; unfold error_exit; intros E; injection E as <- <-; returned.
  - parse_step; unfold error_exit; intros E;
      first [ apply help_or_error_later, (IH _ _ _ E)
            | injection E as <- <-; returned ].
Qed.

Lemma feature_extractor_parse_return args :
  forall o0 code out,
    feature_extractor_main.parse stoi program_name args o0 =
      Return code out ->
    help_or_error (feature_extractor_main.print_usage program_name) args
                  code out.
Proof.
  induction args as [| arg | arg value rest IH] using args_ind;
    intros o0 code out; cbn [feature_extractor_main.parse].
  - discriminate.
  - parse_step; unfold error_exit; intros E; injection E as <- <-; returned.
  - parse_step; unfold error_exit; intros E;
      first [ apply help_or_error_later, (IH _ _ _ E)
            | injection E as <- <-; returned ].
Qed.

Lemma image_generator_parse_return args :
  forall o0 code out,
    image_generator_main.parse stoi program_name args o0 = Return code out ->
    help_or_error (image_generator_main.print_usage program_name) args
                  code out.
Proof.
  induction args as [| arg | arg value rest IH] using args_ind;
    intros o0 code out; cbn [image_generator_main.parse].
  - discriminate.
  - parse_step; unfold error_exit; intros E; injection E as <- <-; returned.
  - parse_step; unfold error_exit; intros E;
      first [ apply help_or_error_later, (IH _ _ _ E)
            | injection E as <- <-; returned ].
Qed.

Lemma data_logger_parse_app a b :
  forall o o',
    data_logger_main.parse stoi program_name a o = Proceed o' ->
    data_logger_main.parse stoi program_name (a ++ b) o =
    data_logger_main.parse stoi program_name b o'.
Proof.
  induction a as [| arg | arg value rest IH] using args_ind;
    intros o o'; cbn [data_logger_main.parse app].
  - intros E. injection E as <-. reflexivity.
  - parse_step; unfold error_exit; discriminate.
  - parse_step; unfold error_exit; try discriminate; intros E; apply IH, E.
Qed.

Lemma feature_extractor_parse_app a b :
  forall o o',
    feature_extractor_main.parse stoi program_name a o = Proceed o' ->
    feature_extractor_main.parse stoi program_name (a ++ b) o =
    feature_extractor_main.parse stoi program_name b o'.
Proof.
  induction a as [| arg | arg value rest IH] using args_ind;
    intros o o'; cbn [feature_extractor_main.parse app].
  - intros E. injection E as <-. reflexivity.
  - parse_step; unfold error_exit; discriminate.
  - parse_step; unfold error_exit; try discriminate; intros E; apply IH, E.
Qed.

Lemma image_generator_parse_app a b :
  forall o o',
    image_generator_main.parse stoi program_name a o = Proceed o' ->
    image_generator_main.parse stoi program_name (a ++ b) o =
    image_generator_main.parse stoi program_name b o'.
Proof.
  induction a as [| arg | arg value rest IH] using args_ind;
    intros o o'; cbn [image_generator_main.parse app].
  - intros E. injection E as <-. reflexivity.
  - parse_step; unfold error_exit; discriminate.
  - parse_step; unfold error_exit; try discriminate; intros E; apply IH, E.
Qed.

End Parsers.

(** X20.  No stage is started with a timeout or delay it cannot use.
    Whatever the command line, when the argument loop of a [main] goes on to
    construct its stage, the receive timeout handed to the data logger and
    to the feature extractor is positive, and the delay handed to the image
    generator is not negative: the default when the option is absent, the
    last accepted value otherwise. *)
Theorem stages_start_with_usable_parameters (stoi : string -> option Z)
    (program_name : string) (args : list string) :
  (forall o,
      data_logger_main.parse_arguments stoi program_name args = Proceed o ->
      0 < data_logger_main.timeout_ms o) /\
  (forall o,
      feature_extractor_main.parse_arguments stoi program_name args =
        Proceed o ->
      0 < feature_extractor_main.timeout_ms o) /\
  (forall o,
      image_generator_main.parse_arguments stoi program_name args =
        Proceed o ->
      0 <= image_generator_main.delay_ms o).
Proof.
  split; [|split].
  - intros o E.
    apply (data_logger_parse_timeout stoi program_name args _ o E).
    cbn. lia.
  - intros o E.
    apply (feature_extractor_parse_timeout stoi program_name args _ o E).
    cbn. lia.
  - intros o. unfold image_generator_main.parse_arguments.
    destruct args as [|folder rest]; [discriminate|].
    intros E.
    apply (image_generator_parse_delay stoi program_name rest _ o E).
    cbn. lia.
Qed.

Lemma stages_start_with_usable_parameters_witness :
  data_logger_main.parse_arguments sample_stoi "data_logger"
    ["--timeout"; "250"; "--database"; "x.db"]%string =
    Proceed {| data_logger_main.endpoint := "tcp://localhost:5556";
               data_logger_main.database_path := "x.db";
               data_logger_main.timeout_ms := 250 |} /\
  0 < 250.
Proof.
  split; [reflexivity|].
  apply (proj1 (stages_start_with_usable_parameters sample_stoi
                  "data_logger"
                  ["--timeout"; "250"; "--database"; "x.db"]%string)
           {| data_logger_main.endpoint := "tcp://localhost:5556";
              data_logger_main.database_path := "x.db";
              data_logger_main.timeout_ms := 250 |}).
  reflexivity.
Defined.

(** X21.  How a [main] returns from its argument loop.  It returns 0 only
    for a help flag among the arguments it looked at, after printing the
    usage text and nothing on the error stream; every other return from the
    loop is 1, with exactly one line on the error stream.  The image
    generator takes its first argument as the image folder without looking
    at it, so a help flag counts there from the second argument on, and a
    missing folder is an error. *)
Theorem argument_loop_returns (stoi : string -> option Z)
    (program_name : string) (args : list string) (code : Z) (out : streams) :
  (data_logger_main.parse_arguments stoi program_name args =
     Return code out ->
   help_or_error (data_logger_main.print_usage program_name) args
                 code out) /\
  (feature_extractor_main.parse_arguments stoi program_name args =
     Return code out ->
   help_or_error (feature_extractor_main.print_usage program_name) args
                 code out) /\
  (image_generator_main.parse_arguments stoi program_name args =
     Return code out ->
   help_or_error (image_generator_main.print_usage program_name) (tl args)
                 code out).
Proof.
  split; [|split].
  - apply data_logger_parse_return.
  - apply feature_extractor_parse_return.
  - unfold image_generator_main.parse_arguments.
    destruct args as [|folder rest].
    + intros E. injection E as <- <-.
      right. split; [reflexivity | eexists; reflexivity].
    + apply image_generator_parse_return.
Qed.

Lemma argument_loop_returns_witness :
  help_or_error (data_logger_main.print_usage "data_logger")
    ["--timeout"; "-5"]%string 1
    {| cout := []; cerr := ["Error: timeout must be positive"%string] |} /\
  image_generator_main.parse_arguments sample_stoi "image_generator"
    ["--help"]%string =
    Proceed {| image_generator_main.image_folder := "--help";
               image_generator_main.endpoint := "tcp://*:5555";
               image_generator_main.delay_ms := 100 |}.
Proof.
  split; [|reflexivity].
  apply (proj1 (argument_loop_returns sample_stoi "data_logger"
                  ["--timeout"; "-5"]%string 1
                  {| cout := [];
                     cerr := ["Error: timeout must be positive"%string] |})).
  reflexivity.
Defined.

(** X22.  Options are handled from left to right, each on top of what the
    earlier ones set: when the argument loop accepts a list of arguments,
    running it on that list followed by more arguments is running it on the
    additional arguments, starting from the parameters the first list gave.
    So an option given twice takes its last value, and options that set
    different parameters can be given in any order. *)
Theorem options_apply_in_order (stoi : string -> option Z)
    (program_name : string) (a b : list string) :
  (forall o o',
      data_logger_main.parse stoi program_name a o = Proceed o' ->
      data_logger_main.parse stoi program_name (a ++ b) o =
      data_logger_main.parse stoi program_name b o') /\
  (forall o o',
      feature_extractor_main.parse stoi program_name a o = Proceed o' ->
      feature_extractor_main.parse stoi program_name (a ++ b) o =
      feature_extractor_main.parse stoi program_name b o') /\
  (forall o o',
      image_generator_main.parse stoi program_name a o = Proceed o' ->
      image_generator_main.parse stoi program_name (a ++ b) o =
      image_generator_main.parse stoi program_name b o').
Proof.
  split; [|split].
  - apply data_logger_parse_app.
  - apply feature_extractor_parse_app.
  - apply image_generator_parse_app.
Qed.

Lemma options_apply_in_order_witness :
  data_logger_main.parse sample_stoi "data_logger"
    (["--endpoint"; "tcp://a:1"]%string ++
     ["--endpoint"; "tcp://b:2"]%string)
    data_logger_main.defaults =
  Proceed {| data_logger_main.endpoint := "tcp://b:2";
             data_logger_main.database_path := "./imaging_data.db";
             data_logger_main.timeout_ms := 5000 |}.
Proof.
  rewrite (proj1 (options_apply_in_order sample_stoi "data_logger"
                    ["--endpoint"; "tcp://a:1"]%string
                    ["--endpoint"; "tcp://b:2"]%string)
             data_logger_main.defaults
             {| data_logger_main.endpoint := "tcp://a:1";
                data_logger_main.database_path := "./imaging_data.db";
                data_logger_main.timeout_ms := 5000 |} eq_refl).
  reflexivity.
Defined.

(** ** The older transport, end to end *)

(** X23.  Over the older transport too, what is published is what is
    received.  [Publisher::publish] of an encoded [ImageMessage] on a
    connected publisher whose send succeeds returns [true] and hands exactly
    that buffer to the socket; [Subscriber::receive] on a connected
    subscriber to which the buffer is delivered returns [true] with the
    buffer in the caller's vector, whatever the vector held, and writes
    nothing to the error stream; and [ImageMessage::deserialize] of it is
    the message that was sent, read to the last byte. *)
Theorem message_published_is_received (ext : Externals) (tk tk' : tick)
    (pub : ipc.Publisher) (sub : voyis.Subscriber)
    (m : message.ImageMessage.t) (data : list byte) :
  valid_ImageMessage m ->
  ipc.connected_ pub = true -> send_errno tk = None ->
  voyis.connected_ sub = true -> msg_init_rc tk' = 0 ->
  let buffer := message.ImageMessage.serialize m in
  ipc.publish ext tk buffer pub =
    (true, {| ipc.connected_ := true;
              ipc.socket_ := ipc.socket_ pub ++ [buffer];
              ipc.cerr := ipc.cerr pub |}) /\
  (recv tk' = zmq.Message buffer ->
   voyis.receive ext tk' sub data = (true, buffer, sub) /\
   message.ImageMessage.deserialize buffer =
     message.Returns m {| message.ptr := size buffer;
                          message.remaining := 0 |}).
Proof.
  intros Hv Hpub Hsend Hsub Hinit buffer.
  split.
  - unfold ipc.publish. rewrite Hpub, Hsend. reflexivity.
  - intros Hrecv. split.
    + unfold voyis.receive. rewrite Hsub, Hinit, Hrecv. reflexivity.
    + pose proof (decodes_ImageMessage m Hv [] []) as H.
      rewrite app_nil_l, app_nil_r in H.
      exact H.
Qed.

Lemma message_published_is_received_witness :
  let buffer := message.ImageMessage.serialize sample_message in
  ipc.publish sample_ext timeout_tick buffer sample_publisher =
    (true, {| ipc.connected_ := true;
              ipc.socket_ := [] ++ [buffer];
              ipc.cerr := [] |}) /\
  (recv message_tick = zmq.Message buffer ->
   voyis.receive sample_ext message_tick sample_subscriber [] =
     (true, buffer, sample_subscriber) /\
   message.ImageMessage.deserialize buffer =
     message.Returns sample_message
       {| message.ptr := size buffer; message.remaining := 0 |}).
Proof.
  apply (message_published_is_received sample_ext timeout_tick message_tick
           sample_publisher sample_subscriber sample_message []);
    try reflexivity.
  unfold valid_ImageMessage. cbn. lia.
Defined.

(** ** Construction of the image generator *)

Lemma scan_app lib entries :
  forall acc, ImageGeneratorSetup.scan lib entries acc =
              acc ++ ImageGeneratorSetup.scan lib entries [].
Proof.
  induction entries as [|entry rest IH]; intros acc; cbn.
  - rewrite app_nil_r. reflexivity.
  - rewrite (IH (if ImageGeneratorSetup.is_image lib entry
                 then acc ++ [entry_path entry] else acc)).
    rewrite (IH (if ImageGeneratorSetup.is_image lib entry
                 then [entry_path entry] else [])).
    destruct (ImageGeneratorSetup.is_image lib entry).
    + rewrite <- app_assoc. reflexivity.
    + reflexivity.
Qed.

Lemma in_scan lib entries p :
  In p (ImageGeneratorSetup.scan lib entries []) <->
  exists entry, In entry entries /\ entry_path entry = p /\
                ImageGeneratorSetup.is_image lib entry = true.
Proof.
  induction entries as [|entry rest IH]; cbn.
  - split; [tauto | intros (e & [] & _)].
  - rewrite scan_app, in_app_iff, IH. split.
    + intros [H | (e & He & Hp & Hi)].
      * destruct (ImageGeneratorSetup.is_image lib entry) eqn:E.
        -- destruct H as [<- | []]. exists entry. auto.
        -- destruct H.
      * exists e. auto.
    + intros (e & [<- | He] & Hp & Hi).
      * left. rewrite Hi. left. exact Hp.
      * right. exists e. auto.
Qed.

Lemma is_image_taken_up lib entry :
  ImageGeneratorSetup.is_image lib entry = true <->
  is_regular_file entry = true /\
  In (transform (tolower lib) (path_extension lib (entry_path entry)))
     ImageGeneratorSetup.extensions.
Proof.
  unfold ImageGeneratorSetup.is_image.
  destruct (is_regular_file entry).
  - rewrite existsb_exists. split.
    + intros (x & Hx & E). apply String.eqb_eq in E. subst x. auto.
    + intros [_ H]. eexists. split; [exact H | apply String.eqb_refl].
  - split; [discriminate | intros [H _]; discriminate H].
Qed.

(** X24.  A constructed generator is ready to run.  When the constructor
    of [ImageGenerator] returns, the folder was a directory that could be
    read to its end and the publisher is bound; [image_paths_] is not empty
    and, [std::sort] keeping the elements, holds exactly the paths of the
    regular files whose extension, lower-cased, is one of the six supported
    ones; nothing has been sent; and [run] on that object never indexes
    [image_paths_] out of range nor divides by zero, whatever the files and
    the socket do afterwards. *)
Theorem constructed_generator_is_ready (ext : Externals) (lib : Library)
    (status : folder) (zmq : zmq_setup)
    (image_folder publish_endpoint : string) (st : ImageGenerator.t) :
  keeps_elements (sort lib) ->
  ImageGeneratorSetup.ImageGenerator ext lib status zmq image_folder
    publish_endpoint = Ok st ->
  (exists entries,
     status = directory entries None /\
     forall p, In p (ImageGenerator.image_paths_ st) <->
               taken_up lib entries p) /\
  zmq = bound /\
  ImageGenerator.image_paths_ st <> [] /\
  ImageGenerator.running_ st = false /\
  ImageGenerator.images_sent_ st = 0 /\
  ImageGenerator.publisher_ st = [] /\
  (size (ImageGenerator.image_paths_ st) < 2 ^ 64 ->
   forall fs env, exists st' image_index,
     ImageGenerator.run ext fs env st = (Ok image_index, st') /\
     ImageGenerator.image_paths_ st' = ImageGenerator.image_paths_ st /\
     0 <= image_index < size (ImageGenerator.image_paths_ st)).
Proof.
  intros Hsort H.
  unfold ImageGeneratorSetup.ImageGenerator in H.
  destruct status as [| |entries failure]; try discriminate H.
  unfold ImageGeneratorSetup.load_image_paths in H.
  destruct failure as [w|]; [discriminate H|].
  destruct (sort lib (ImageGeneratorSetup.scan lib entries []))
    as [|p0 ps] eqn:Epaths; [discriminate H|].
  destruct zmq; cbn in H; try discriminate H.
  injection H as <-. cbn [ImageGenerator.image_paths_
    ImageGenerator.running_ ImageGenerator.images_sent_
    ImageGenerator.publisher_].
  split.
  { exists entries. split; [reflexivity|]. intros p.
    rewrite <- Epaths, (Hsort _ p), in_scan. unfold taken_up. split.
    - intros (e & He & Hp & Hi). apply is_image_taken_up in Hi.
      destruct Hi as [Hr Hx]. rewrite Hp in Hx. exists e. auto.
    - intros (e & He & Hp & Hr & Hx). exists e. split; [exact He|].
      split; [exact Hp|]. apply is_image_taken_up. rewrite Hp. auto. }
  split; [reflexivity|]. split; [discriminate|].
  split; [reflexivity|]. split; [reflexivity|]. split; [reflexivity|].
  intros Hn fs env. unfold ImageGenerator.run.
  set (st0 := {| ImageGenerator.image_paths_ := p0 :: ps;
                 ImageGenerator.running_ := false;
                 ImageGenerator.images_sent_ := 0;
                 ImageGenerator.publisher_ := [];
                 ImageGenerator.cerr := [] |}).
  assert (Hpos : 0 <= 0 < size (p0 :: ps)).
  { unfold size. cbn [length]. lia. }
  destruct (ImageGenerator_run_loop ext fs env 0
              (ImageGenerator.set_running true st0) Hn Hpos)
    as (st' & i' & ms & ls & E & Hp & Hi & _).
  { cbn. lia. }
  exists st', i'. split; [|split; [exact Hp | exact Hi]].
  cbn. exact E.
Qed.

Lemma constructed_generator_is_ready_witness :
  exists st,
    ImageGeneratorSetup.ImageGenerator sample_ext sample_library
      sample_folder bound "images" "tcp://*:5555" = Ok st /\
    ImageGenerator.image_paths_ st =
      ["images/a.PNG"; "images/b.jpeg"]%string /\
    forall fs env, exists st' image_index,
      ImageGenerator.run sample_ext fs env st = (Ok image_index, st') /\
      ImageGenerator.image_paths_ st' = ImageGenerator.image_paths_ st /\
      0 <= image_index < size (ImageGenerator.image_paths_ st).
Proof.
  destruct (ImageGeneratorSetup.ImageGenerator sample_ext sample_library
              sample_folder bound "images" "tcp://*:5555")
    as [st|e|] eqn:E; try (vm_compute in E; discriminate E).
  exists st. split; [reflexivity|].
  destruct (constructed_generator_is_ready sample_ext sample_library
              sample_folder bound "images" "tcp://*:5555" st)
    as (_ & _ & _ & _ & _ & _ & Hrun).
  - intros l p. split; intros Hin; exact Hin.
  - exact E.
  - assert (Hp : ImageGenerator.image_paths_ st =
                 ["images/a.PNG"; "images/b.jpeg"]%string).
    { vm_compute in E. injection E as <-. reflexivity. }
    split; [exact Hp|]. apply Hrun. rewrite Hp. vm_compute. reflexivity.
Defined.
